(** * Intelligent vehicle agent: response interpretation, speech summary,
      session reconstruction and the reconnecting socket client

    A shallow embedding of the client-side core of the dashboard
    (frontend/src/Dashboard.js and frontend/src/App.js):

    - [formatResponse] and the four formatters it dispatches to,
    - [extractKeyInfoForSpeech],
    - [groupInteractionsBySessions] and [formatSessionDate],
    - the [WebSocketAPI] class with its reconnect logic,

    and of what surrounds it: the form of frontend/src/LandingPage.js
    with its validation, the handlers of the vehicle controls, the error
    messages of [handleAPIError] and the session kept by the component
    [App].

    JavaScript strings are sequences of UTF-16 code units, and every string
    operation of the source (includes, indexOf, split, trim, replace, the
    regular expressions) works on code units; the emoji markers of the
    backend convention are surrogate pairs.  Strings are therefore modelled
    as lists of code units, and literals are written as UTF-8 text and
    transcoded by [u16]. *)

From Stdlib Require Import NArith ZArith List String Ascii Bool Lia DecimalString.
From Stdlib Require Import QArith Permutation Sorting.Sorted.
From stdpp Require Import gmap.
Import ListNotations.

(** ** JavaScript strings *)

Definition jsstring := list N.

(** UTF-8 bytes to Unicode code points (literals of this file are well-formed
    UTF-8; a truncated sequence at the end is dropped). *)
Fixpoint utf8_points (bs : list N) : list N :=
  match bs with
  | [] => []
  | b0 :: t0 =>
    if (b0 <? 0x80)%N then b0 :: utf8_points t0
    else match t0 with
    | [] => []
    | b1 :: t1 =>
      if (b0 <? 0xE0)%N
      then ((b0 mod 0x20) * 0x40 + b1 mod 0x40)%N :: utf8_points t1
      else match t1 with
      | [] => []
      | b2 :: t2 =>
        if (b0 <? 0xF0)%N
        then ((b0 mod 0x10) * 0x1000 + (b1 mod 0x40) * 0x40 + b2 mod 0x40)%N
               :: utf8_points t2
        else match t2 with
        | [] => []
        | b3 :: t3 =>
          ((b0 mod 0x8) * 0x40000 + (b1 mod 0x40) * 0x1000
           + (b2 mod 0x40) * 0x40 + b3 mod 0x40)%N :: utf8_points t3
        end
      end
    end
  end.

(** A code point as one UTF-16 code unit or a surrogate pair. *)
Definition utf16_units (cp : N) : list N :=
  if (cp <? 0x10000)%N then [cp]
  else [(0xD800 + (cp - 0x10000) / 0x400)%N; (0xDC00 + (cp - 0x10000) mod 0x400)%N].

(** The JavaScript string denoted by a source literal. *)
Definition u16 (s : string) : jsstring :=
  flat_map utf16_units (utf8_points (List.map N_of_ascii (list_ascii_of_string s))).

(** [!s] for a string: only the empty string is falsy. *)
Definition falsy (s : jsstring) : bool :=
  match s with [] => true | _ => false end.

Definition truthy (s : jsstring) : bool := negb (falsy s).

(** WhiteSpace and LineTerminator code units: what [trim] strips and what
    [\s] matches. *)
Definition isLineTerminator (c : N) : bool :=
  (c =? 0x0A)%N || (c =? 0x0D)%N || (c =? 0x2028)%N || (c =? 0x2029)%N.

Definition isWhiteSpace (c : N) : bool :=
  (c =? 0x09)%N || (c =? 0x0B)%N || (c =? 0x0C)%N || (c =? 0x20)%N
  || (c =? 0xA0)%N || (c =? 0x1680)%N
  || ((0x2000 <=? c)%N && (c <=? 0x200A)%N)
  || (c =? 0x202F)%N || (c =? 0x205F)%N || (c =? 0x3000)%N || (c =? 0xFEFF)%N
  || isLineTerminator c.

Fixpoint trimStart (s : jsstring) : jsstring :=
  match s with
  | c :: t => if isWhiteSpace c then trimStart t else s
  | [] => []
  end.

Definition trimEnd (s : jsstring) : jsstring := rev (trimStart (rev s)).

Definition trim (s : jsstring) : jsstring := trimEnd (trimStart s).

Fixpoint startsWith (pat s : jsstring) : bool :=
  match pat, s with
  | [], _ => true
  | p :: pat', c :: s' => (p =? c)%N && startsWith pat' s'
  | _ :: _, [] => false
  end.

(** [s.indexOf(pat)]: the first index at which [pat] occurs, or -1. *)
Fixpoint indexOf_from (pat s : jsstring) (i : Z) : Z :=
  if startsWith pat s then i
  else match s with
       | [] => (-1)%Z
       | _ :: t => indexOf_from pat t (i + 1)%Z
       end.

Definition indexOf (pat s : jsstring) : Z := indexOf_from pat s 0%Z.

Definition includes (pat s : jsstring) : bool := (0 <=? indexOf pat s)%Z.

(** [s.substring(a, b)]: arguments are clamped to [0, length] and swapped
    when out of order. *)
Definition clampIndex (s : jsstring) (i : Z) : nat :=
  Nat.min (Z.to_nat i) (length s).

Definition substring (s : jsstring) (a b : Z) : jsstring :=
  let x := clampIndex s a in
  let y := clampIndex s b in
  firstn (Nat.max x y - Nat.min x y) (skipn (Nat.min x y) s).

Definition substringFrom (s : jsstring) (a : Z) : jsstring :=
  substring s a (Z.of_nat (length s)).

(** [s.replace(pat, '')] with a string pattern: the first occurrence is
    removed. *)
Fixpoint removeFirstStr (pat s : jsstring) : jsstring :=
  if startsWith pat s then skipn (length pat) s
  else match s with
       | [] => []
       | c :: t => c :: removeFirstStr pat t
       end.

(** [s.split(sep)] for a separator of one code unit (a line feed or the
    star glyph in the source). *)
Fixpoint split1 (sep : N) (s : jsstring) : list jsstring :=
  match s with
  | [] => [[]]
  | c :: t =>
    if (c =? sep)%N then [] :: split1 sep t
    else match split1 sep t with
         | piece :: more => (c :: piece) :: more
         | [] => [[c]]
         end
  end.

(** [content.split('\n').filter(line => line.trim())] *)
Definition nonBlankLines (content : jsstring) : list jsstring :=
  List.filter (fun line => truthy (trim line)) (split1 0x0A%N content).

(** [lines.find(p)] *)
Definition find_line (p : jsstring -> bool) (lines : list jsstring)
  : option jsstring := List.find p lines.

(** ** Regular expressions

    A backtracking matcher with the priorities of the ECMAScript
    semantics: alternatives left to right, greedy quantifiers longest
    first, lazy ones shortest first, an iteration of a quantifier that
    consumes nothing is rejected.  Patterns without the [u] flag see
    code units. *)

Inductive regex :=
| Empty
| Class (p : N -> bool)
| Seq (r1 r2 : regex)
| Alt (r1 r2 : regex)
| Star (greedy : bool) (r : regex)
| Group (i : nat) (r : regex)
| Bol
| Eol.

Record mstate := MState {
  pos : nat;                       (* index of the next code unit *)
  rest : jsstring;                 (* input from [pos] on *)
  caps : list (nat * jsstring)     (* captures, most recent first *)
}.

(** The loop of a quantifier [r*] or [r*?]: [body] matches one more [r],
    [k] is what follows the quantifier.  The fuel is the length of the
    input left, which bounds the number of iterations since each one
    consumes at least one code unit. *)
Fixpoint star_loop (body : mstate -> (mstate -> option mstate) -> option mstate)
  (greedy : bool) (k : mstate -> option mstate) (fuel : nat) (st : mstate)
  : option mstate :=
  match fuel with
  | O => k st
  | S f =>
    let more (_ : unit) :=
      body st (fun st' =>
        if (pos st <? pos st')%nat then star_loop body greedy k f st'
        else None) in
    if greedy
    then match more tt with Some r => Some r | None => k st end
    else match k st with Some r => Some r | None => more tt end
  end.

Fixpoint rmatch (r : regex) (st : mstate) (k : mstate -> option mstate)
  : option mstate :=
  match r with
  | Empty => k st
  | Class p =>
    match rest st with
    | c :: t => if p c then k (MState (S (pos st)) t (caps st)) else None
    | [] => None
    end
  | Seq a b => rmatch a st (fun st' => rmatch b st' k)
  | Alt a b =>
    match rmatch a st k with
    | Some r => Some r
    | None => rmatch b st k
    end
  | Star g a => star_loop (rmatch a) g k (length (rest st)) st
  | Group i a =>
    rmatch a st (fun st' =>
      k (MState (pos st') (rest st')
           ((i, firstn (pos st' - pos st) (rest st)) :: caps st')))
  | Bol => if (pos st =? 0)%nat then k st else None
  | Eol => match rest st with [] => k st | _ :: _ => None end
  end.

(** The matcher has consumed a prefix of the input of [st] when it is in
    [st']. *)
Definition reaches (st st' : mstate) : Prop :=
  exists pre, rest st = pre ++ rest st' /\ pos st' = pos st + length pre.

(** Pattern combinators. *)
Definition chr (c : N) : regex := Class (N.eqb c).

Definition toggleCase (c : N) : N :=
  if ((0x41 <=? c) && (c <=? 0x5A))%N then (c + 0x20)%N
  else if ((0x61 <=? c) && (c <=? 0x7A))%N then (c - 0x20)%N
  else c.

(** A literal code unit under the [i] flag.  Without the [u] flag a code
    unit outside ASCII never canonicalizes to an ASCII letter, so an ASCII
    literal matches exactly its two ASCII cases. *)
Definition chr_i (c : N) : regex :=
  Class (fun x => (x =? c)%N || (x =? toggleCase c)%N).

Fixpoint lit_with (f : N -> regex) (s : jsstring) : regex :=
  match s with
  | [] => Empty
  | [c] => f c
  | c :: t => Seq (f c) (lit_with f t)
  end.

Definition lit (s : string) : regex := lit_with chr (u16 s).
Definition lit_i (s : string) : regex := lit_with chr_i (u16 s).

Definition plus (r : regex) : regex := Seq r (Star true r).
Definition plus_lazy (r : regex) : regex := Seq r (Star false r).
Definition star (r : regex) : regex := Star true r.
Definition opt (r : regex) : regex := Alt r Empty.

Definition isDigit (c : N) : bool := ((0x30 <=? c) && (c <=? 0x39))%N.
Definition digit : regex := Class isDigit.
Definition space : regex := Class isWhiteSpace.
Definition non_space : regex := Class (fun c => negb (isWhiteSpace c)).
Definition dot : regex := Class (fun c => negb (isLineTerminator c)).
Definition none_of (cs : list N) : regex :=
  Class (fun c => negb (existsb (N.eqb c) cs)).
Definition one_of (cs : list N) : regex :=
  Class (fun c => existsb (N.eqb c) cs).

(** A match: start index, end index, captures. *)
Record rmatched := RMatched {
  m_start : nat;
  m_end : nat;
  m_caps : list (nat * jsstring)
}.

(** The match anchored at index [p], where [s] is the input from [p] on. *)
Definition match_at (r : regex) (p : nat) (s : jsstring) : option rmatched :=
  match rmatch r (MState p s []) Some with
  | Some st => Some (RMatched p (pos st) (caps st))
  | None => None
  end.

(** The leftmost match at or after index [p]. *)
Fixpoint search_from (r : regex) (p : nat) (s : jsstring) : option rmatched :=
  match match_at r p s with
  | Some m => Some m
  | None => match s with
            | [] => None
            | _ :: t => search_from r (S p) t
            end
  end.

(** [s.match(r)] for a pattern without the [g] flag. *)
Definition exec (r : regex) (s : jsstring) : option rmatched :=
  search_from r 0 s.

Definition test (r : regex) (s : jsstring) : bool :=
  match exec r s with Some _ => true | None => false end.

(** [m[i]] *)
Fixpoint capture (i : nat) (cs : list (nat * jsstring)) : jsstring :=
  match cs with
  | [] => []
  | (j, v) :: t => if (i =? j)%nat then v else capture i t
  end.

Definition group (i : nat) (m : rmatched) : jsstring := capture i (m_caps m).

(** [m[0]] *)
Definition matched_text (s : jsstring) (m : rmatched) : jsstring :=
  firstn (m_end m - m_start m) (skipn (m_start m) s).

(** Successive matches of a pattern with the [g] flag: after a match the
    search resumes at its end, one further when the match is empty. *)
Fixpoint all_matches (fuel : nat) (r : regex) (p : nat) (s : jsstring)
  : list rmatched :=
  match fuel with
  | O => []
  | S f =>
    match search_from r p s with
    | None => []
    | Some m =>
      let next := if (m_start m <? m_end m)%nat then m_end m else S (m_end m) in
      m :: (if (next - p <=? length s)%nat
            then all_matches f r next (skipn (next - p) s)
            else [])
    end
  end.

Definition matches_of (r : regex) (s : jsstring) : list rmatched :=
  all_matches (S (length s)) r 0 s.

(** [s.match(r)] for a pattern with the [g] flag: the matched texts, or
    null when there is none. *)
Definition match_global (r : regex) (s : jsstring) : option (list jsstring) :=
  match matches_of r s with
  | [] => None
  | ms => Some (List.map (matched_text s) ms)
  end.

(** The input with the given matches cut out; [p] is the index of the head
    of [s]. *)
Fixpoint cut_matches (ms : list rmatched) (p : nat) (s : jsstring) : jsstring :=
  match ms with
  | [] => s
  | m :: ms' =>
    firstn (m_start m - p) s
    ++ cut_matches ms' (m_end m) (skipn (m_end m - p) s)
  end.

(** [s.replace(r, '')] with the [g] flag. *)
Definition remove_all (r : regex) (s : jsstring) : jsstring :=
  cut_matches (matches_of r s) 0 s.

(** [s.replace(r, '')] without the [g] flag. *)
Definition remove_first (r : regex) (s : jsstring) : jsstring :=
  match exec r s with
  | Some m => cut_matches [m] 0 s
  | None => s
  end.

(** [s.split(r)] for a pattern without groups: [p] is the start of the
    current piece, [q] the index tried next, [piece] the code units of
    [p..q) in reverse, [s] the input from [q] on.  A match that ends where
    the piece starts is skipped.  Every index is visited at most twice
    (once to cut at an empty match, once to move on), which bounds the
    fuel. *)
Fixpoint split_go (fuel : nat) (r : regex) (p q : nat) (piece s : jsstring)
  : list jsstring :=
  match fuel with
  | O => [rev piece ++ s]
  | S f =>
    match s with
    | [] => [rev piece]
    | c :: t =>
      match match_at r q s with
      | Some m =>
        if (m_end m =? p)%nat then split_go f r p (S q) (c :: piece) t
        else rev piece
             :: split_go f r (m_end m) (m_end m) [] (skipn (m_end m - q) s)
      | None => split_go f r p (S q) (c :: piece) t
      end
    end
  end.

Definition split_re (r : regex) (s : jsstring) : list jsstring :=
  match s with
  | [] => match match_at r 0 [] with Some _ => [] | None => [[]] end
  | _ => split_go (S (2 * length s)) r 0 0 [] s
  end.

(** ** encodeURIComponent

    Unreserved code units are kept; every other code point is written as
    its UTF-8 octets, each octet as [%XX].  A surrogate that is not half of
    a pair raises URIError, modelled as [None]. *)

Definition isUnreserved (c : N) : bool :=
  ((0x41 <=? c) && (c <=? 0x5A))%N || ((0x61 <=? c) && (c <=? 0x7A))%N
  || isDigit c
  || existsb (N.eqb c) (u16 "-_.!~*'()").

Definition hexDigit (d : N) : N :=
  if (d <? 10)%N then (0x30 + d)%N else (0x41 + (d - 10))%N.

Definition percent (octet : N) : jsstring :=
  [0x25%N; hexDigit (octet / 16); hexDigit (octet mod 16)].

Definition utf8_octets (cp : N) : list N :=
  if (cp <? 0x80)%N then [cp]
  else if (cp <? 0x800)%N then [(0xC0 + cp / 0x40)%N; (0x80 + cp mod 0x40)%N]
  else if (cp <? 0x10000)%N
       then [(0xE0 + cp / 0x1000)%N; (0x80 + (cp / 0x40) mod 0x40)%N;
             (0x80 + cp mod 0x40)%N]
       else [(0xF0 + cp / 0x40000)%N; (0x80 + (cp / 0x1000) mod 0x40)%N;
             (0x80 + (cp / 0x40) mod 0x40)%N; (0x80 + cp mod 0x40)%N].

Definition isHighSurrogate (c : N) : bool := ((0xD800 <=? c) && (c <=? 0xDBFF))%N.
Definition isLowSurrogate (c : N) : bool := ((0xDC00 <=? c) && (c <=? 0xDFFF))%N.

Definition pairPoint (hi lo : N) : N :=
  (0x10000 + (hi - 0xD800) * 0x400 + (lo - 0xDC00))%N.

Fixpoint encodeURIComponent (s : jsstring) : option jsstring :=
  match s with
  | [] => Some []
  | c :: t =>
    if isUnreserved c then option_map (cons c) (encodeURIComponent t)
    else if isLowSurrogate c then None
    else if isHighSurrogate c then
      match t with
      | lo :: t' =>
        if isLowSurrogate lo
        then option_map (app (flat_map percent (utf8_octets (pairPoint c lo))))
                        (encodeURIComponent t')
        else None
      | [] => None
      end
    else option_map (app (flat_map percent (utf8_octets c)))
                    (encodeURIComponent t)
  end.

(** [s.isWellFormed()]: no surrogate outside a pair. *)
Fixpoint wellFormed (s : jsstring) : bool :=
  match s with
  | [] => true
  | c :: t =>
    if isLowSurrogate c then false
    else if isHighSurrogate c then
      match t with
      | lo :: t' => isLowSurrogate lo && wellFormed t'
      | [] => false
      end
    else wellFormed t
  end.

(** Lines joined by line feeds, for writing inputs of several lines. *)
Definition lines_of (ls : list jsstring) : jsstring :=
  match ls with
  | [] => []
  | l :: more => l ++ flat_map (fun x => 0x0A%N :: x) more
  end.

(** ** Response classification (Dashboard.js, formatResponse) *)

Definition cat (rs : list regex) : regex := fold_right Seq Empty rs.

Definition PIN : jsstring := u16 "📍".

Record Place := mkPlace {
  place_name : jsstring;
  place_distance : jsstring;
  place_rating : option jsstring;     (* null when no rating was read *)
  place_status : jsstring;            (* '', 'Open' or 'Closed' *)
  place_address : jsstring;
  place_mapsUrl : jsstring
}.

(** The number shown next to a step: the digits read from the line, or the
    position of the step when the line has nothing after its number. *)
Inductive StepNumber :=
| Parsed (digits : jsstring)
| Positional (n : nat).

Record Step := mkStep {
  step_number : StepNumber;
  step_instruction : jsstring
}.

Record MapsLink := mkMapsLink {
  link_url : jsstring;
  link_after : option jsstring
}.

Inductive ErrorKind :=
| ReportedError       (* the error-response card showing the content *)
| ParseFailure.       (* the card of the catch clause *)

(** What the formatters render. *)
Inductive ClassifiedResult :=
| PlaceSearchResult (count placeType : jsstring) (places : list Place)
| DirectionsResult (destination distance duration : jsstring)
                   (steps : list Step) (mapsUrl : jsstring)
| LocationResult (text : jsstring)
| GeneralResult (text : jsstring) (link : option MapsLink)
| ErrorResult (kind : ErrorKind) (raw : jsstring)
| NoContent.          (* the bare 'No response content' element *)

Inductive JsError := TypeError | URIError.

Inductive outcome (A : Type) :=
| Returned (r : A)
| Threw (e : JsError).
Arguments Returned {A} r.
Arguments Threw {A} e.

(** [/https:\/\/www\.google\.com\/maps[^\s]*/] *)
Definition re_maps_url : regex :=
  cat [lit "https://www.google.com/maps"; star non_space].

Definition formatGeneralResponse (content : jsstring) : ClassifiedResult :=
  if includes (u16 "https://www.google.com/maps") content then
    let parts := split_re re_maps_url content in
    match exec re_maps_url content, parts with
    | Some urlMatch, part0 :: part1 :: _ =>
      GeneralResult (trim part0)
        (Some (mkMapsLink (matched_text content urlMatch)
                 (if truthy part1 then Some (trim part1) else None)))
    | _, _ => GeneralResult content None
    end
  else GeneralResult content None.

(** [lines[0]] is undefined for an empty array, and calling a method on it
    raises TypeError. *)
Definition formatLocationResponse (content : jsstring)
  : outcome ClassifiedResult :=
  match nonBlankLines content with
  | mainLocation :: _ =>
    Returned (LocationResult (trim (removeFirstStr PIN mainLocation)))
  | [] => Threw TypeError
  end.

(** The variables of the line loop of formatDirectionsResponse. *)
Record DirState := mkDirState {
  destination : jsstring;
  distance : jsstring;
  duration : jsstring;
  directions : list jsstring;
  mapsUrl : jsstring;
  hasError : bool
}.

(** [/https:\/\/[^\s]+/] *)
Definition re_https : regex := cat [lit "https://"; plus non_space].

(** [/^\d+\./] *)
Definition re_step_start : regex := cat [Bol; plus digit; lit "."].

(** [/^(\d+)\.\s*(.+)/] *)
Definition re_numbered : regex :=
  cat [Bol; Group 1 (plus digit); lit "."; star space; Group 2 (plus dot)].

(** The else-if chain of the line loop: the first test that holds decides
    what a line is. *)
Inductive LineKind :=
| DestinationLine | DistanceLine | DurationLine | MapsLine | StepLine
| ErrorLine | OtherLine.

Definition line_kind (trimmedLine : jsstring) : LineKind :=
  if includes (u16 "📍 Destination:") trimmedLine then DestinationLine
  else if includes (u16 "📏 Distance:") trimmedLine then DistanceLine
  else if includes (u16 "⏱️ Duration:") trimmedLine then DurationLine
  else if includes (u16 "🌐 Open in Google Maps:") trimmedLine then MapsLine
  else if test re_step_start trimmedLine then StepLine
  else if includes (u16 "❌") trimmedLine then ErrorLine
  else OtherLine.

Definition directions_line (st : DirState) (line : jsstring) : DirState :=
  let trimmedLine := trim line in
  match line_kind trimmedLine with
  | DestinationLine =>
    mkDirState (trim (removeFirstStr (u16 "📍 Destination:") trimmedLine))
      (distance st) (duration st) (directions st) (mapsUrl st) (hasError st)
  | DistanceLine =>
    mkDirState (destination st)
      (trim (removeFirstStr (u16 "📏 Distance:") trimmedLine))
      (duration st) (directions st) (mapsUrl st) (hasError st)
  | DurationLine =>
    mkDirState (destination st) (distance st)
      (trim (removeFirstStr (u16 "⏱️ Duration:") trimmedLine))
      (directions st) (mapsUrl st) (hasError st)
  | MapsLine =>
    match exec re_https trimmedLine with
    | Some urlMatch =>
      mkDirState (destination st) (distance st) (duration st) (directions st)
        (matched_text trimmedLine urlMatch) (hasError st)
    | None => st
    end
  | StepLine =>
    mkDirState (destination st) (distance st) (duration st)
      (directions st ++ [trimmedLine]) (mapsUrl st) (hasError st)
  | ErrorLine =>
    mkDirState (destination st) (distance st) (duration st) (directions st)
      (mapsUrl st) true
  | OtherLine => st
  end.

Definition directions_scan (lines : list jsstring) : DirState :=
  fold_left directions_line lines (mkDirState [] [] [] [] [] false).

(** [directions.map((direction, index) => ...)] *)
Definition render_step (index : nat) (direction : jsstring) : Step :=
  match exec re_numbered direction with
  | Some stepMatch => mkStep (Parsed (group 1 stepMatch)) (group 2 stepMatch)
  | None => mkStep (Positional (index + 1)) direction
  end.

Fixpoint mapi_from {A B} (f : nat -> A -> B) (i : nat) (l : list A) : list B :=
  match l with
  | [] => []
  | x :: t => f i x :: mapi_from f (S i) t
  end.

(** The body of the try block.  No operation in it can raise (split, trim,
    includes, replace and match are total on strings), so the catch clause,
    which would render [ErrorResult ParseFailure content], is never
    entered. *)
Definition formatDirectionsResponse (content : jsstring) : ClassifiedResult :=
  let st := directions_scan (nonBlankLines content) in
  if hasError st || falsy (destination st) then ErrorResult ReportedError content
  else DirectionsResult (destination st) (distance st) (duration st)
         (mapi_from render_step 0 (directions st)) (mapsUrl st).

(** [/Found (\d+) ([^(]+?)(?:\s*\(|near you)/i] *)
Definition re_found : regex :=
  cat [lit_i "Found "; Group 1 (plus digit); lit_i " ";
       Group 2 (plus_lazy (none_of (u16 "(")));
       Alt (cat [star space; lit "("]) (lit_i "near you")].

(** [/\(([^)]+)\)/] *)
Definition re_parens : regex :=
  cat [lit "("; Group 1 (plus (none_of (u16 ")"))); lit ")"].

(** The number of a rating, [\d+\.?\d*(?:\/\d+)?] *)
Definition re_rating_number : regex :=
  cat [plus digit; opt (lit "."); star digit; opt (cat [lit "/"; plus digit])].

(** [/⭐\s*(\d+\.?\d*(?:\/\d+)?)/] *)
Definition re_star_rating : regex :=
  cat [lit "⭐"; star space; Group 1 re_rating_number].

(** [/(\d+\.?\d*(?:\/\d+)?)/] *)
Definition re_rating : regex := Group 1 re_rating_number.

(** [/📮\s*(.+)/] *)
Definition re_address : regex :=
  cat [lit "📮"; star space; Group 1 (plus dot)].

(** [/[⭐🟢🔴📮]/g]: the pattern has no [u] flag, so the class holds the
    code units of the four glyphs, the two halves of each surrogate pair
    separately. *)
Definition re_glyphs : regex := one_of (u16 "⭐🟢🔴📮").

(** The fields read from the text of one numbered entry. *)
Record PlaceFields := mkPlaceFields {
  f_name : jsstring;
  f_distance : jsstring;
  f_rating : jsstring;
  f_status : jsstring;
  f_address : jsstring
}.

Definition parse_entry (entryContent : jsstring) : PlaceFields :=
  let cleanLine := trim (removeFirstStr PIN entryContent) in
  let fields :=
    match exec re_parens cleanLine with
    | Some distanceMatch =>
      let name := trim (substring cleanLine 0 (indexOf (u16 "(") cleanLine)) in
      let afterDistance :=
        trim (substringFrom cleanLine (indexOf (u16 ")") cleanLine + 1)) in
      let rating :=
        match exec re_star_rating afterDistance with
        | Some ratingMatch => group 1 ratingMatch
        | None => []
        end in
      let status :=
        if includes (u16 "🟢") afterDistance then u16 "Open"
        else if includes (u16 "🔴") afterDistance then u16 "Closed"
        else [] in
      let address :=
        match exec re_address afterDistance with
        | Some addressMatch => trim (group 1 addressMatch)
        | None => []
        end in
      mkPlaceFields name (group 1 distanceMatch) rating status address
    | None =>
      match split1 0x2B50%N cleanLine with
      | part0 :: part1 :: _ =>
        let ratingPart := trim part1 in
        mkPlaceFields (trim part0) []
          match exec re_rating ratingPart with
          | Some ratingMatch => group 1 ratingMatch
          | None => []
          end [] []
      | part0 :: [] => mkPlaceFields (trim part0) [] [] [] []
      | [] => mkPlaceFields [] [] [] [] []
      end
    end in
  mkPlaceFields (trim (remove_all re_glyphs (f_name fields)))
    (f_distance fields) (f_rating fields) (f_status fields) (f_address fields).

(** The text handed to encodeURIComponent for the maps link of an entry. *)
Definition link_text (f : PlaceFields) : jsstring :=
  f_name f ++ (if truthy (f_address f) then u16 " " ++ f_address f else []).

(** [places.push({...})]; [None] is the URIError of encodeURIComponent. *)
Definition make_place (f : PlaceFields) : option Place :=
  match encodeURIComponent (link_text f) with
  | Some q =>
    Some (mkPlace (f_name f) (f_distance f)
            (if truthy (f_rating f) then Some (u16 "⭐ " ++ f_rating f) else None)
            (f_status f) (f_address f)
            (u16 "https://www.google.com/maps/search/" ++ q))
  | None => None
  end.

(** The entries that reach [places.push], in order: the numbered lines
    whose name is not empty. *)
Fixpoint place_entries (lines : list jsstring) : list PlaceFields :=
  match lines with
  | [] => []
  | l :: more =>
    match exec re_numbered (trim l) with
    | Some numberedMatch =>
      let f := parse_entry (group 2 numberedMatch) in
      if truthy (f_name f) then f :: place_entries more else place_entries more
    | None => place_entries more
    end
  end.

(** The loop over the entries stops at the first exception. *)
Fixpoint make_places (fs : list PlaceFields) : option (list Place) :=
  match fs with
  | [] => Some []
  | f :: more =>
    match make_place f with
    | Some p => option_map (cons p) (make_places more)
    | None => None
    end
  end.

Definition formatPlaceSearchResponse (content : jsstring)
  : outcome ClassifiedResult :=
  match nonBlankLines content with
  | [] => Threw TypeError
  | headerLine :: entries =>
    match exec re_found headerLine with
    | None => Returned (formatGeneralResponse content)
    | Some foundMatch =>
      let count := group 1 foundMatch in
      let placeType := trim (group 2 foundMatch) in
      match make_places (place_entries entries) with
      | Some places => Returned (PlaceSearchResult count placeType places)
      | None => Threw URIError
      end
    end
  end.

(** [/Found \d+ .+ near you/i] *)
Definition re_found_dispatch : regex :=
  cat [lit_i "Found "; plus digit; lit_i " "; plus dot; lit_i " near you"].

Definition isDirections (content : jsstring) : bool :=
  includes (u16 "Turn-by-turn directions") content
  || includes (u16 "📋") content || includes (u16 "🧭") content.

Definition isLocation (content : jsstring) : bool :=
  includes PIN content && (length (split1 0x0A%N content) <=? 3)%nat.

Definition isPlaceSearch (content : jsstring) : bool :=
  test re_found_dispatch content || includes (u16 "🔍") content.

Definition formatResponse (content : jsstring) : outcome ClassifiedResult :=
  if falsy content then Returned NoContent
  else if isDirections content then Returned (formatDirectionsResponse content)
  else if isLocation content then formatLocationResponse content
  else if isPlaceSearch content then formatPlaceSearchResponse content
  else Returned (formatGeneralResponse content).

(** The results that count as one of the five variants; the bare
    'No response content' element is none of them. *)
Definition is_variant (r : ClassifiedResult) : bool :=
  match r with NoContent => false | _ => true end.

Definition is_general (r : ClassifiedResult) : bool :=
  match r with GeneralResult _ _ => true | _ => false end.

(** The texts that a call of formatResponse hands to encodeURIComponent,
    were every call to return: the link texts of the place entries when
    the place-search branch is taken and the header line matches. *)
Definition place_link_texts (content : jsstring) : list jsstring :=
  if falsy content || isDirections content || isLocation content
     || negb (isPlaceSearch content)
  then []
  else match nonBlankLines content with
       | headerLine :: entries =>
         match exec re_found headerLine with
         | Some _ => List.map link_text (place_entries entries)
         | None => []
         end
       | [] => []
       end.

Definition kind_eqb (a b : LineKind) : bool :=
  match a, b with
  | DestinationLine, DestinationLine | DistanceLine, DistanceLine
  | DurationLine, DurationLine | MapsLine, MapsLine | StepLine, StepLine
  | ErrorLine, ErrorLine | OtherLine, OtherLine => true
  | _, _ => false
  end.

(** Some line of the directions text is of the given kind. *)
Definition has_line_of_kind (k : LineKind) (content : jsstring) : bool :=
  existsb (fun line => kind_eqb (line_kind (trim line)) k) (nonBlankLines content).

(** The call returns one of the five variants. *)
Definition classified (content : jsstring) : Prop :=
  exists r, formatResponse content = Returned r /\ is_variant r = true.

(** ** Speech summary (Dashboard.js, extractKeyInfoForSpeech)

    [text.toLowerCase()] follows the Unicode case tables; the summary
    depends on it only through substring tests of the lowered text, so the
    function is kept a parameter of the section. *)

(** The decimal text of a non-negative integer. *)
Definition numberToString (n : N) : jsstring :=
  u16 (NilZero.string_of_uint (N.to_uint n)).

(** ** Numbers

    [parseInt(count)] and [parseInt(count) - 3] are doubles.  The digits
    of a count spell a non-negative integer, so the Numbers that occur are
    the doubles that are non-negative integers, and Infinity.  [parseInt]
    is taken to give the Number value of the integer that all the digits
    spell, and the text of a Number to be the shortest one that reads back
    as that Number. *)
Inductive Number :=
| Finite (n : N)
| Infinity.

(** The double nearest to a non-negative integer: below 2^53 the integer
    itself; from there on the nearest integer with a significand of 53
    bits, the even significand when two are equally near; Infinity when
    that is 2^1024 or more. *)
Definition toNumber (n : N) : Number :=
  if (n <? 2 ^ 53)%N then Finite n
  else
    let e := (N.log2 n - 52)%N in
    let q := (n / 2 ^ e)%N in
    let r := (n mod 2 ^ e)%N in
    let half := (2 ^ (e - 1))%N in
    let q' := if (r <? half)%N then q
              else if (half <? r)%N then (q + 1)%N
              else if N.even q then q else (q + 1)%N in
    if (q' * 2 ^ e <? 2 ^ 1024)%N then Finite (q' * 2 ^ e)%N else Infinity.

(** [parseInt] of a run of decimal digits. *)
Definition parseInt (digits : jsstring) : Number :=
  toNumber (fold_left (fun acc d => (acc * 10 + (d - 0x30))%N) digits 0%N).

(** [x > k], and [x - k] where [x > k], for an integer [k] below 2^53. *)
Definition greaterThan (x : Number) (k : N) : bool :=
  match x with
  | Finite n => (k <? n)%N
  | Infinity => true
  end.

Definition minus (x : Number) (k : N) : Number :=
  match x with
  | Finite n => toNumber (n - k)
  | Infinity => Infinity
  end.

(** The largest power of ten, from [p] on, that has a multiple among the
    integers from [a] to [b]. *)
Fixpoint widest_power (fuel : nat) (a b p : N) : N :=
  match fuel with
  | O => p
  | S f =>
    if ((a + 10 * p - 1) / (10 * p) * (10 * p) <=? b)%N
    then widest_power f a b (10 * p)%N
    else p
  end.

(** The integer with the fewest significant digits among those whose
    nearest double is the double [x] of 2^53 or more, and among these the
    one nearest to [x], with the even last digit when two are equally
    near.  The integers from [a] to [b] are those that round to [x]: the
    bounds lie half way to the neighbouring doubles and belong to [x] when
    its significand is even. *)
Definition shortest (x : N) : N :=
  let e := (N.log2 x - 52)%N in
  let m := (x / 2 ^ e)%N in
  let low4 := (4 * x - (if (m =? 2 ^ 52)%N then 2 ^ e else 2 ^ (e + 1)))%N in
  let high4 := (4 * x + 2 ^ (e + 1))%N in
  let a := if N.even m then ((low4 + 3) / 4)%N else (low4 / 4 + 1)%N in
  let b := if N.even m then (high4 / 4)%N else ((high4 + 3) / 4 - 1)%N in
  let p := widest_power (N.to_nat (N.log2 x)) a b 1 in
  let below := (x / p * p)%N in
  let above := (below + p)%N in
  if (below <? a)%N then above
  else if (b <? above)%N then below
  else if (x - below <? above - x)%N then below
  else if (above - x <? x - below)%N then above
  else if N.even (below / p) then below else above.

Fixpoint dropZeros (s : jsstring) : jsstring :=
  match s with
  | c :: t => if (c =? 0x30)%N then dropZeros t else s
  | [] => []
  end.

(** The text of a Number in a template literal: the decimal digits of an
    integer of at most 21 digits, and from 10^21 on the significant digits
    with a point after the first and the exponent. *)
Definition Number_toString (x : Number) : jsstring :=
  match x with
  | Infinity => u16 "Infinity"
  | Finite n =>
    if (n <? 2 ^ 53)%N then numberToString n
    else
      let digits := numberToString (shortest n) in
      if (length digits <=? 21)%nat then digits
      else
        match rev (dropZeros (rev digits)) with
        | [] => digits
        | d :: more =>
          d :: (match more with [] => [] | _ => 0x2E%N :: more end)
            ++ u16 "e+" ++ numberToString (N.of_nat (length digits - 1))
        end
  end.

(** [/(?:you are (?:in|at)|current location[:\s]+)([^.]+)/i] *)
Definition re_location : regex :=
  cat [Alt (cat [lit_i "you are "; Alt (lit_i "in") (lit_i "at")])
           (cat [lit_i "current location";
                 plus (Class (fun c => (c =? 0x3A)%N || isWhiteSpace c))]);
       Group 1 (plus (none_of (u16 ".")))].

(** [/📍\s*([^⭐(]+?)(?:\s*\(|\s*⭐|$)/g] *)
Definition re_pin_name : regex :=
  cat [lit "📍"; star space; Group 1 (plus_lazy (none_of (u16 "⭐(")));
       Alt (cat [star space; lit "("])
           (Alt (cat [star space; lit "⭐"]) Eol)].

(** [/📍\s*/] and [/\s*\($/] *)
Definition re_pin_lead : regex := cat [lit "📍"; star space].
Definition re_paren_tail : regex := cat [star space; lit "("; Eol].

(** [/🌤️|Temperature:|🌡️/g] and [/Condition:|Weather:|🌤️/g] *)
Definition re_temp_labels : regex :=
  Alt (lit "🌤️") (Alt (lit "Temperature:") (lit "🌡️")).
Definition re_condition_labels : regex :=
  Alt (lit "Condition:") (Alt (lit "Weather:") (lit "🌤️")).

(** [/[.!?]+/] *)
Definition re_sentence_end : regex := plus (one_of (u16 ".!?")).

(** [/[\u{1F300}-\u{1F9FF}]|[\u{2600}-\u{26FF}]|[\u{2700}-\u{27BF}]/gu]:
    with the [u] flag the pattern sees code points, so a surrogate pair is
    removed or kept as a whole. *)
Definition isEmojiPoint (cp : N) : bool :=
  ((0x1F300 <=? cp) && (cp <=? 0x1F9FF))%N
  || ((0x2600 <=? cp) && (cp <=? 0x26FF))%N
  || ((0x2700 <=? cp) && (cp <=? 0x27BF))%N.

Fixpoint stripEmoji (s : jsstring) : jsstring :=
  match s with
  | [] => []
  | c :: t =>
    match t with
    | lo :: t' =>
      if isHighSurrogate c && isLowSurrogate lo
      then if isEmojiPoint (pairPoint c lo) then stripEmoji t'
           else c :: lo :: stripEmoji t'
      else if isEmojiPoint c then stripEmoji t else c :: stripEmoji t
    | [] => if isEmojiPoint c then [] else [c]
    end
  end.

Section Speech.

Variable toLowerCase : jsstring -> jsstring.

(** 1. Location queries *)
Definition speech_location (text cleanText : jsstring) : option jsstring :=
  if includes (u16 "your current location") cleanText
     || includes (u16 "you are in") cleanText
     || includes (u16 "you are at") cleanText
  then match exec re_location text with
       | Some locationMatch =>
         Some (u16 "You are in " ++ trim (group 1 locationMatch))
       | None => None
       end
  else None.

(** 2. Place search *)
Definition speech_places (text cleanText : jsstring) : option jsstring :=
  if includes (u16 "found") cleanText && includes (u16 "near") cleanText
  then
    match exec re_found text with
    | Some foundMatch =>
      let count := group 1 foundMatch in
      let placeType := trim (group 2 foundMatch) in
      match match_global re_pin_name text with
      | Some placeMatches =>
        let places :=
          firstn 3 (List.map (fun m =>
            trim (remove_first re_paren_tail (remove_first re_pin_lead m)))
            placeMatches) in
        let response :=
          u16 "I found " ++ count ++ u16 " " ++ placeType ++ u16 " near you. " in
        Some
          match places with
          | [] => response
          | [p0] => response ++ u16 "Including " ++ p0 ++ u16 "."
          | [p0; p1] =>
            response ++ u16 "Including " ++ p0 ++ u16 " and " ++ p1 ++ u16 "."
          | p0 :: p1 :: p2 :: _ =>
            response ++ u16 "Including " ++ p0 ++ u16 ", " ++ p1
              ++ u16 ", and " ++ p2
              ++ (if greaterThan (parseInt count) 3
                  then u16 ", plus "
                         ++ Number_toString (minus (parseInt count) 3)
                         ++ u16 " more options."
                  else u16 ".")
          end
      | None => None
      end
    | None => None
    end
  else None.

(** 3. Navigation *)
Definition speech_navigation (text cleanText : jsstring) : option jsstring :=
  if includes (u16 "distance:") cleanText && includes (u16 "duration:") cleanText
  then
    let lines := nonBlankLines text in
    let distanceLine := find_line (includes (u16 "Distance:")) lines in
    let durationLine := find_line (includes (u16 "Duration:")) lines in
    let destinationLine :=
      find_line (fun line => includes PIN line
                             && negb (includes (u16 "Distance") line)
                             && negb (includes (u16 "Duration") line)) lines in
    let r1 :=
      match destinationLine with
      | Some l => u16 "Navigation to " ++ trim (remove_all (lit "📍") l) ++ u16 ". "
      | None => []
      end in
    let r2 :=
      match distanceLine with
      | Some l => r1 ++ trim (remove_all (lit "📏") l) ++ u16 ". "
      | None => r1
      end in
    let r3 :=
      match durationLine with
      | Some l => r2 ++ trim (remove_all (lit "⏱️") l) ++ u16 "."
      | None => r2
      end in
    Some (if truthy r3 then r3 else u16 "Navigation route calculated.")
  else None.

(** 4. Vehicle controls *)
Definition speech_temperature (cleanText : jsstring) : option jsstring :=
  if includes (u16 "temperature") cleanText
     && (includes (u16 "set") cleanText || includes (u16 "adjust") cleanText)
  then Some (u16 "Temperature adjusted.")
  else None.

Definition speech_ac (cleanText : jsstring) : option jsstring :=
  if includes (u16 "air conditioning") cleanText || includes (u16 "ac") cleanText
  then
    if includes (u16 "turned on") cleanText || includes (u16 "enabled") cleanText
    then Some (u16 "Air conditioning turned on.")
    else if includes (u16 "turned off") cleanText
            || includes (u16 "disabled") cleanText
    then Some (u16 "Air conditioning turned off.")
    else None
  else None.

Definition speech_music (cleanText : jsstring) : option jsstring :=
  if includes (u16 "music") cleanText || includes (u16 "song") cleanText
  then
    if includes (u16 "playing") cleanText || includes (u16 "started") cleanText
    then Some (u16 "Music started.")
    else if includes (u16 "paused") cleanText
            || includes (u16 "stopped") cleanText
    then Some (u16 "Music paused.")
    else if includes (u16 "volume") cleanText
    then Some (u16 "Volume adjusted.")
    else None
  else None.

Definition speech_doors (cleanText : jsstring) : option jsstring :=
  if includes (u16 "doors") cleanText || includes (u16 "lock") cleanText
  then
    if includes (u16 "locked") cleanText then Some (u16 "Doors locked.")
    else if includes (u16 "unlocked") cleanText then Some (u16 "Doors unlocked.")
    else None
  else None.

Definition speech_lights (cleanText : jsstring) : option jsstring :=
  if includes (u16 "lights") cleanText
  then
    if includes (u16 "turned on") cleanText || includes (u16 "enabled") cleanText
    then Some (u16 "Lights turned on.")
    else if includes (u16 "turned off") cleanText
            || includes (u16 "disabled") cleanText
    then Some (u16 "Lights turned off.")
    else None
  else None.

(** 5. Weather *)
Definition speech_weather (text cleanText : jsstring) : option jsstring :=
  if includes (u16 "weather") cleanText || includes (u16 "temperature") cleanText
  then
    let lines := nonBlankLines text in
    let tempLine :=
      find_line (fun line => includes (u16 "°") line
                             || includes (u16 "degrees") line) lines in
    let conditionLine :=
      find_line (fun line => includes (u16 "Condition:") line
                             || includes (u16 "Weather:") line) lines in
    let r1 :=
      match tempLine with
      | Some l => trim (remove_all re_temp_labels l)
      | None => []
      end in
    let r2 :=
      match conditionLine with
      | Some l =>
        let condition := trim (remove_all re_condition_labels l) in
        r1 ++ (if truthy r1 then u16 " with " ++ condition else condition)
      | None => r1
      end in
    Some (if truthy r2 then r2 else u16 "Weather information retrieved.")
  else None.

(** 6. Error messages *)
Definition speech_error (cleanText : jsstring) : option jsstring :=
  if includes (u16 "sorry") cleanText || includes (u16 "error") cleanText
     || includes (u16 "issue") cleanText
  then Some (u16 "Sorry, I encountered an issue. Please try again.")
  else None.

(** The value returned by the first rule that returns. *)
Fixpoint first_of (rules : list (option jsstring)) : option jsstring :=
  match rules with
  | [] => None
  | Some r :: _ => Some r
  | None :: more => first_of more
  end.

(** The rules before the air-conditioning check, in the order of the
    source. *)
Definition speech_before_ac (text : jsstring) : option jsstring :=
  let cleanText := toLowerCase text in
  first_of
    [speech_location text cleanText; speech_places text cleanText;
     speech_navigation text cleanText; speech_temperature cleanText].

(** The rules 1 to 6: the value returned by the first rule that returns,
    [None] when control reaches rule 7. *)
Definition speech_rules (text : jsstring) : option jsstring :=
  let cleanText := toLowerCase text in
  first_of
    [speech_before_ac text;
     speech_ac cleanText; speech_music cleanText; speech_doors cleanText;
     speech_lights cleanText; speech_weather text cleanText;
     speech_error cleanText].

(** [text.split(/[.!?]+/).filter(s => s.trim().length > 0)] *)
Definition sentences_of (text : jsstring) : list jsstring :=
  List.filter (fun s => (0 <? length (trim s))%nat)
              (split_re re_sentence_end text).

(** 7. General responses *)
Definition speech_general (text : jsstring) : jsstring :=
  match sentences_of text with
  | [] => u16 "Task completed."
  | first :: others =>
    let response := stripEmoji (trim first) in
    match others with
    | second :: _ =>
      if (length response <? 50)%nat
      then response ++ u16 ". " ++ trim (stripEmoji second)
      else response
    | [] => response
    end
  end.

Definition extractKeyInfoForSpeech (text : jsstring) : jsstring :=
  if falsy text || (length (trim text) =? 0)%nat then []
  else match speech_rules text with
       | Some response => response
       | None => speech_general text
       end.

End Speech.

(** Lower-casing of the letters A to Z; [toLowerCase] acts like this on
    text whose code units are all ASCII. *)
Definition asciiLower (s : jsstring) : jsstring :=
  List.map (fun c => if ((0x41 <=? c) && (c <=? 0x5A))%N then (c + 0x20)%N else c) s.

(** ** Session reconstruction (Dashboard.js, groupInteractionsBySessions)

    A [Date] is its time value, the milliseconds since the epoch; the
    timestamps of the interactions are taken as already parsed.  The local
    time zone enters through [tzOffset], the offset of local time from UTC
    at an instant, and the readings of the clock and the draws of
    [Math.random] through an environment. *)

Record CivilDate := mkCivil {
  year : Z;
  month : Z;       (* 1 to 12 *)
  day : Z
}.

(** The proleptic Gregorian date of a day number (days since 1970-01-01). *)
Definition civil_from_days (z : Z) : CivilDate :=
  let z := (z + 719468)%Z in
  let era := (z / 146097)%Z in
  let doe := (z - era * 146097)%Z in
  let yoe := ((doe - doe / 1460 + doe / 36524 - doe / 146096) / 365)%Z in
  let doy := (doe - (365 * yoe + yoe / 4 - yoe / 100))%Z in
  let mp := ((5 * doy + 2) / 153)%Z in
  let d := (doy - (153 * mp + 2) / 5 + 1)%Z in
  let m := (if mp <? 10 then mp + 3 else mp - 9)%Z in
  mkCivil (if m <=? 2 then yoe + era * 400 + 1 else yoe + era * 400)%Z m d.

Definition civil_eqb (a b : CivilDate) : bool :=
  ((year a =? year b) && (month a =? month b) && (day a =? day b))%Z.

(** The decimal text of an integer, as a template literal prints it. *)
Definition intToString (n : Z) : jsstring :=
  if (n <? 0)%Z then u16 "-" ++ numberToString (Z.to_N (- n))
  else numberToString (Z.to_N n).

Definition monthShort (m : Z) : jsstring :=
  nth (Z.to_nat (m - 1))
    [u16 "Jan"; u16 "Feb"; u16 "Mar"; u16 "Apr"; u16 "May"; u16 "Jun";
     u16 "Jul"; u16 "Aug"; u16 "Sep"; u16 "Oct"; u16 "Nov"; u16 "Dec"] [].

Inductive Role := user | assistant.

Record Interaction := mkInteraction {
  user_input : option jsstring;
  agent_response : option jsstring;
  agent_id : option jsstring;
  timestamp : Z;
  actions_taken : option (list jsstring)
}.

Record Message := mkMessage {
  msg_type : Role;
  msg_content : jsstring;
  msg_timestamp : Z;
  msg_agent_id : option jsstring;
  msg_actions_taken : list jsstring
}.

(** The parts of [`session_${Date.now()}_${Math.random()}_${i}`]. *)
Record SessionId := mkSessionId {
  id_time : Z;
  id_random : Q;
  id_index : nat
}.

Record Session := mkSession {
  id : SessionId;
  date : CivilDate;              (* the day named by toDateString *)
  displayDate : jsstring;
  startTime : Z;
  lastInteraction : Z;
  interactions : list Message;
  messageCount : nat
}.

(** The readings of the clock and the draws of Math.random during one
    call, in the order in which they are made. *)
Record Env := mkEnv {
  clock : nat -> Z;
  random : nat -> Q
}.

(** [x && x.trim()] for an optional field *)
Definition present (x : option jsstring) : option jsstring :=
  match x with
  | Some s => if truthy s && truthy (trim s) then Some s else None
  | None => None
  end.

(** [[...interactions].sort((a, b) => new Date(a.timestamp) - new Date(b.timestamp))]:
    the sort of an array is stable, so the result is the one list that is
    ordered by timestamp and keeps the input order among equal
    timestamps. *)
Fixpoint insert_sorted (x : Interaction) (l : list Interaction)
  : list Interaction :=
  match l with
  | [] => [x]
  | y :: t =>
    if (timestamp x <=? timestamp y)%Z then x :: l else y :: insert_sorted x t
  end.

Definition sort_by_timestamp (l : list Interaction) : list Interaction :=
  fold_right insert_sorted [] l.

(** The order of the comparator. *)
Definition by_timestamp (a b : Interaction) : Prop :=
  (timestamp a <= timestamp b)%Z.

(** The store of arrays of interactions, by reference. *)
Abbreviation heap := (gmap nat (list Interaction)).

Section Sessions.

Variable tzOffset : Z -> Z.

Definition localDay (t : Z) : Z := ((t + tzOffset t) / 86400000)%Z.

(** [date.toDateString()], as the local calendar date that it spells. *)
Definition toDateString (t : Z) : CivilDate := civil_from_days (localDay t).

Definition getFullYear (t : Z) : Z := year (toDateString t).

(** [date.toLocaleDateString('en-US', {month: 'short', day: 'numeric', year})] *)
Definition toLocaleDateString (t : Z) (withYear : bool) : jsstring :=
  let c := toDateString t in
  monthShort (month c) ++ u16 " " ++ intToString (day c)
  ++ (if withYear then u16 ", " ++ intToString (year c) else []).

(** [formatSessionDate(date)], with the reading [now] of [new Date()]. *)
Definition formatSessionDate (now date : Z) : jsstring :=
  let diffTime := (now - date)%Z in
  let diffDays := (diffTime / (1000 * 60 * 60 * 24))%Z in
  if (diffDays =? 0)%Z then u16 "Today"
  else if (diffDays =? 1)%Z then u16 "Yesterday"
  else if (diffDays <? 7)%Z then intToString diffDays ++ u16 " days ago"
  else toLocaleDateString date (negb (getFullYear date =? getFullYear now)%Z).

(** The variables of the loop: [sessions] without its last element, and
    [currentSession], which is that last element once a session exists. *)
Record GroupState := mkGroupState {
  earlier : list Session;
  currentSession : option Session
}.

Definition sessions_of (st : GroupState) : list Session :=
  earlier st ++ match currentSession st with Some s => [s] | None => [] end.

Definition add_message (s : Session) (m : Message) : Session :=
  mkSession (id s) (date s) (displayDate s) (startTime s) (lastInteraction s)
    (interactions s ++ [m]) (S (messageCount s)).

Definition set_lastInteraction (s : Session) (t : Z) : Session :=
  mkSession (id s) (date s) (displayDate s) (startTime s) t
    (interactions s) (messageCount s).

Definition starts_new_session (cur : option Session) (t : Z) : bool :=
  match cur with
  | None => true
  | Some s =>
    negb (civil_eqb (date s) (toDateString t))
    || (30 * 60 * 1000 <? t - lastInteraction s)%Z
  end.

Definition group_step (env : Env) (i : nat) (interaction : Interaction)
  (st : GroupState) : GroupState :=
  let interactionDate := timestamp interaction in
  let st1 :=
    if starts_new_session (currentSession st) interactionDate then
      let k := length (sessions_of st) in
      mkGroupState (sessions_of st)
        (Some (mkSession
                 (mkSessionId (clock env (2 * k)) (random env k) i)
                 (toDateString interactionDate)
                 (formatSessionDate (clock env (2 * k + 1)) interactionDate)
                 interactionDate interactionDate [] 0))
    else st in
  let actions := match actions_taken interaction with
                 | Some a => a | None => [] end in
  let add (r : Role) (field : option jsstring) (cur : option Session) :=
    match present field, cur with
    | Some content, Some s =>
      Some (add_message s (mkMessage r content interactionDate
                             (agent_id interaction) actions))
    | _, _ => cur
    end in
  let cur1 := add user (user_input interaction) (currentSession st1) in
  let cur2 := add assistant (agent_response interaction) cur1 in
  mkGroupState (earlier st1)
    (option_map (fun s => set_lastInteraction s interactionDate) cur2).

Fixpoint group_loop (env : Env) (i : nat) (sorted : list Interaction)
  (st : GroupState) : GroupState :=
  match sorted with
  | [] => st
  | interaction :: more =>
    group_loop env (S i) more (group_step env i interaction st)
  end.

(** The function on the value of its argument. *)
Definition groupInteractionsBySessions (env : Env)
  (interactions : list Interaction) : list Session :=
  match interactions with
  | [] => []
  | _ =>
    rev (sessions_of
           (group_loop env 0 (sort_by_timestamp interactions)
              (mkGroupState [] None)))
  end.

(** The function on a store of arrays: the argument is a reference, the
    spread [[...interactions]] allocates a new array, and [sort] reorders
    the array it is called on in place. *)
Definition spread (h : heap) (a : nat) : heap * nat :=
  let l := fresh (dom h) in
  (<[l := default [] (h !! a)]> h, l).

Definition sort_in_place (h : heap) (a : nat) : heap :=
  alter sort_by_timestamp a h.

Definition groupInteractionsBySessions_ref (env : Env) (h : heap)
  (interactions : nat) : heap * list Session :=
  match h !! interactions with
  | None | Some [] => (h, [])
  | Some _ =>
    let (h1, sortedInteractions) := spread h interactions in
    let h2 := sort_in_place h1 sortedInteractions in
    (h2, rev (sessions_of
                (group_loop env 0 (default [] (h2 !! sortedInteractions))
                   (mkGroupState [] None))))
  end.

End Sessions.

(** ** The reconnecting socket client (App.js, class WebSocketAPI)

    The object and the part of the browser it talks to: the sockets it has
    created, each with the [userId] captured by its handlers, and the
    timers it has set.  The browser delivers [onopen] to a socket that is
    connecting and [onclose] to a socket that is not yet closed; a socket
    on which [close()] was called goes on to deliver [onclose], since the
    handlers stay attached. *)

Inductive SocketStatus := SockConnecting | SockOpen | SockClosing | SockClosed.

Record SocketInfo := mkSocket {
  sock_user : jsstring;            (* userId in the closure of the handlers *)
  sock_status : SocketStatus
}.

Inductive Frame :=
| UserConnected (user_id : jsstring)   (* {type: 'user_connected', ...} *)
| Data (payload : jsstring).

Record Timer := mkTimer {
  timer_delay : Z;                 (* milliseconds *)
  timer_user : jsstring            (* the argument of the delayed connect *)
}.

Record WebSocketAPI := mkAPI {
  socket : option nat;             (* index of the socket, null as None *)
  isConnected : bool;
  messageHandlers : list nat;
  reconnectAttempts : nat;
  maxReconnectAttempts : nat
}.

Record World := mkWorld {
  api : WebSocketAPI;
  sockets : list SocketInfo;       (* every socket created so far *)
  timers : list Timer;             (* pending timeouts *)
  scheduled : list Z;              (* every delay passed to setTimeout *)
  sent : list (nat * Frame)        (* frames handed to socket.send *)
}.

(** [constructor()] *)
Definition new_api : WebSocketAPI := mkAPI None false [] 0 5.

Definition initial : World := mkWorld new_api [] [] [] [].

Definition set_status (i : nat) (s : SocketStatus) (l : list SocketInfo)
  : list SocketInfo :=
  match l !! i with
  | Some info => <[i := mkSocket (sock_user info) s]> l
  | None => l
  end.

(** [send(data)] *)
Definition send (data : Frame) (w : World) : World :=
  match isConnected (api w), socket (api w) with
  | true, Some s => mkWorld (api w) (sockets w) (timers w) (scheduled w)
                      (sent w ++ [(s, data)])
  | _, _ => w
  end.

(** [connect(userId)]: a new socket replaces the reference held by the
    object. *)
Definition connect (userId : jsstring) (w : World) : World :=
  let a := api w in
  mkWorld (mkAPI (Some (length (sockets w))) (isConnected a)
             (messageHandlers a) (reconnectAttempts a) (maxReconnectAttempts a))
    (sockets w ++ [mkSocket userId SockConnecting])
    (timers w) (scheduled w) (sent w).

(** The [onopen] handler of a socket created with [userId]. *)
Definition onopen (userId : jsstring) (w : World) : World :=
  let a := api w in
  send (UserConnected userId)
    (mkWorld (mkAPI (socket a) true (messageHandlers a) 0
                (maxReconnectAttempts a))
       (sockets w) (timers w) (scheduled w) (sent w)).

(** The [onclose] handler of a socket created with [userId]. *)
Definition onclose (userId : jsstring) (w : World) : World :=
  let a := api w in
  if (reconnectAttempts a <? maxReconnectAttempts a)%nat then
    let attempts := S (reconnectAttempts a) in
    mkWorld (mkAPI (socket a) false (messageHandlers a) attempts
               (maxReconnectAttempts a))
      (sockets w)
      (timers w ++ [mkTimer (2000 * Z.of_nat attempts) userId])
      (scheduled w ++ [(2000 * Z.of_nat attempts)%Z])
      (sent w)
  else
    mkWorld (mkAPI (socket a) false (messageHandlers a) (reconnectAttempts a)
               (maxReconnectAttempts a))
      (sockets w) (timers w) (scheduled w) (sent w).

(** [socket.close()]: a socket that is connecting or open starts to
    close; the close event follows later. *)
Definition close_socket (i : nat) (l : list SocketInfo) : list SocketInfo :=
  match l !! i with
  | Some info =>
    match sock_status info with
    | SockConnecting | SockOpen => set_status i SockClosing l
    | SockClosing | SockClosed => l
    end
  | None => l
  end.

(** [disconnect()] *)
Definition disconnect (w : World) : World :=
  let a := api w in
  match socket a with
  | Some s =>
    mkWorld (mkAPI None false (messageHandlers a) (reconnectAttempts a)
               (maxReconnectAttempts a))
      (close_socket s (sockets w)) (timers w) (scheduled w) (sent w)
  | None => w
  end.

(** [addMessageHandler(handler)] and [removeMessageHandler(handler)] *)
Definition addMessageHandler (h : nat) (w : World) : World :=
  let a := api w in
  mkWorld (mkAPI (socket a) (isConnected a) (messageHandlers a ++ [h])
             (reconnectAttempts a) (maxReconnectAttempts a))
    (sockets w) (timers w) (scheduled w) (sent w).

Definition removeMessageHandler (h : nat) (w : World) : World :=
  let a := api w in
  mkWorld (mkAPI (socket a) (isConnected a)
             (List.filter (fun x => negb (x =? h)%nat) (messageHandlers a))
             (reconnectAttempts a) (maxReconnectAttempts a))
    (sockets w) (timers w) (scheduled w) (sent w).

(** What can happen to the client: calls of its methods by the
    application, and events of the browser. *)
Inductive Event :=
| CallConnect (userId : jsstring)
| CallDisconnect
| CallSend (data : Frame)
| SocketOpens (i : nat)
| SocketCloses (i : nat)
| TimerFires (k : nat).

Definition with_sockets (l : list SocketInfo) (w : World) : World :=
  mkWorld (api w) l (timers w) (scheduled w) (sent w).

Definition step (w : World) (e : Event) : World :=
  match e with
  | CallConnect userId => connect userId w
  | CallDisconnect => disconnect w
  | CallSend data => send data w
  | SocketOpens i =>
    match sockets w !! i with
    | Some (mkSocket userId SockConnecting) =>
      onopen userId (with_sockets (set_status i SockOpen (sockets w)) w)
    | _ => w
    end
  | SocketCloses i =>
    match sockets w !! i with
    | Some (mkSocket userId status) =>
      match status with
      | SockClosed => w
      | _ => onclose userId (with_sockets (set_status i SockClosed (sockets w)) w)
      end
    | None => w
    end
  | TimerFires k =>
    match timers w !! k with
    | Some t =>
      connect (timer_user t)
        (mkWorld (api w) (sockets w) (take k (timers w) ++ drop (S k) (timers w))
           (scheduled w) (sent w))
    | None => w
    end
  end.

Definition run (w : World) (es : list Event) : World := fold_left step es w.

(** The connection state of the specification, read off the object and
    the browser. *)
Inductive ConnectionState :=
| Disconnected | Connecting | Connected | Reconnecting (attempt : nat) | Exhausted.

Definition connection_state (w : World) : ConnectionState :=
  let a := api w in
  if isConnected a then Connected
  else match timers w with
       | _ :: _ => Reconnecting (reconnectAttempts a)
       | [] =>
         match socket a with
         | Some s =>
           match sockets w !! s with
           | Some (mkSocket _ SockConnecting) => Connecting
           | _ => if (reconnectAttempts a <? maxReconnectAttempts a)%nat
                  then Disconnected else Exhausted
           end
         | None => Disconnected
         end
       end.

(** One failed reconnect round: the current socket closes, then the timer
    set by its handler, if any, fires. *)
Definition drop_round (w : World) : World :=
  match socket (api w) with
  | Some s => step (step w (SocketCloses s)) (TimerFires 0)
  | None => w
  end.

(** ** What a pattern matches

    The texts of a pattern, apart from the order in which the matcher
    tries them: the assertions [^] and [$] consume nothing. *)

Inductive lang : regex -> jsstring -> Prop :=
| lang_empty : lang Empty []
| lang_class (p : N -> bool) (c : N) : p c = true -> lang (Class p) [c]
| lang_seq (a b : regex) (u v : jsstring) :
    lang a u -> lang b v -> lang (Seq a b) (u ++ v)
| lang_alt_l (a b : regex) (u : jsstring) : lang a u -> lang (Alt a b) u
| lang_alt_r (a b : regex) (u : jsstring) : lang b u -> lang (Alt a b) u
| lang_star_done (g : bool) (a : regex) : lang (Star g a) []
| lang_star_more (g : bool) (a : regex) (u v : jsstring) :
    lang a u -> lang (Star g a) v -> lang (Star g a) (u ++ v)
| lang_group (i : nat) (a : regex) (u : jsstring) :
    lang a u -> lang (Group i a) u
| lang_bol : lang Bol []
| lang_eol : lang Eol [].

(** The groups of a pattern with their numbers, and the numbers of the
    groups that every match sets. *)
Fixpoint groups_of (r : regex) : list (nat * regex) :=
  match r with
  | Seq a b | Alt a b => groups_of a ++ groups_of b
  | Star _ a => groups_of a
  | Group i a => (i, a) :: groups_of a
  | Empty | Class _ | Bol | Eol => []
  end.

Fixpoint sure_groups (r : regex) : list nat :=
  match r with
  | Seq a b => sure_groups a ++ sure_groups b
  | Group i a => i :: sure_groups a
  | Alt _ _ | Star _ _ | Empty | Class _ | Bol | Eol => []
  end.

(** The captures recorded while [r] matched the text [w]: each holds a
    part of [w] that the group of its number matches, and every group
    that is set on all paths has one. *)
Definition captured (r : regex) (w : jsstring) (cs : list (nat * jsstring))
  : Prop :=
  Forall (fun c => incl (snd c) w
                   /\ exists a, In (fst c, a) (groups_of r) /\ lang a (snd c))
    cs
  /\ Forall (fun i => In i (List.map fst cs)) (sure_groups r).

(** The six parts of the statement about a successful match. *)
Ltac sound_goals := split; [|split; [|split; [|split; [|split]]]].

(** A rule with fixed answers gives none that reads like the text in the
    goal. *)
Ltac fixed_answer :=
  repeat match goal with
         | |- context [if ?b then _ else _] => destruct b
         end;
  try discriminate; intros [= H]; vm_compute in H; discriminate.

(** ** The sign-in and registration form (LandingPage.js) *)

(** [a === b] on strings *)
Fixpoint str_eqb (a b : jsstring) : bool :=
  match a, b with
  | [], [] => true
  | x :: a', y :: b' => (x =? y)%N && str_eqb a' b'
  | _, _ => false
  end.

Record VehicleModel := mkVehicleModel {
  model_id : jsstring;
  model_name : jsstring
}.

(** [VEHICLE_DATA[vehicleType]]: undefined for any other key. *)
Definition VEHICLE_DATA (vehicleType : jsstring) : option (list VehicleModel) :=
  if str_eqb vehicleType (u16 "car") then
    Some [mkVehicleModel (u16 "tesla_model_3") (u16 "Tesla Model 3");
          mkVehicleModel (u16 "bmw_3_series") (u16 "BMW 3 Series");
          mkVehicleModel (u16 "honda_civic") (u16 "Honda Civic")]
  else if str_eqb vehicleType (u16 "truck") then
    Some [mkVehicleModel (u16 "ford_f150") (u16 "Ford F-150");
          mkVehicleModel (u16 "ram_1500") (u16 "RAM 1500");
          mkVehicleModel (u16 "toyota_tacoma") (u16 "Toyota Tacoma")]
  else None.

Record FormData := mkFormData {
  username : jsstring;
  email : jsstring;
  password : jsstring;
  vehicleType : jsstring;
  vehicleModel : jsstring;
  billId : jsstring
}.

(** The state of the component. *)
Record LandingState := mkLanding {
  isLogin : bool;
  loading : bool;
  error : jsstring;
  formData : FormData
}.

Definition emptyForm : FormData := mkFormData [] [] [] (u16 "car") [] [].

Definition landing : LandingState := mkLanding true false [] emptyForm.

(** The [name] attributes of the inputs of the form. *)
Inductive Field :=
| UsernameField | EmailField | PasswordField
| VehicleTypeField | VehicleModelField | BillIdField.

(** [handleInputChange(e)] with [e.target.name] and [e.target.value] *)
Definition handleInputChange (name : Field) (value : jsstring)
  (st : LandingState) : LandingState :=
  let prev := formData st in
  mkLanding (isLogin st) (loading st) []
    match name with
    | UsernameField =>
      mkFormData value (email prev) (password prev) (vehicleType prev)
        (vehicleModel prev) (billId prev)
    | EmailField =>
      mkFormData (username prev) value (password prev) (vehicleType prev)
        (vehicleModel prev) (billId prev)
    | PasswordField =>
      mkFormData (username prev) (email prev) value (vehicleType prev)
        (vehicleModel prev) (billId prev)
    | VehicleTypeField =>
      mkFormData (username prev) (email prev) (password prev) value
        [] (billId prev)
    | VehicleModelField =>
      mkFormData (username prev) (email prev) (password prev) (vehicleType prev)
        value (billId prev)
    | BillIdField =>
      mkFormData (username prev) (email prev) (password prev) (vehicleType prev)
        (vehicleModel prev) value
    end.

(** The outcome of [validateForm()]: [true], or [false] after
    [setError(message)]. *)
Inductive Validation :=
| Valid
| Invalid (message : jsstring).

Definition validateForm (st : LandingState) : Validation :=
  let f := formData st in
  if falsy (trim (username f)) then Invalid (u16 "Username is required")
  else if (length (trim (username f)) <? 3)%nat
  then Invalid (u16 "Username must be at least 3 characters long")
  else if negb (isLogin st) && falsy (trim (email f))
  then Invalid (u16 "Email is required")
  else if negb (isLogin st) && negb (includes (u16 "@") (email f))
  then Invalid (u16 "Please enter a valid email")
  else if falsy (password f) then Invalid (u16 "Password is required")
  else if negb (isLogin st) && (length (password f) <? 6)%nat
  then Invalid (u16 "Password must be at least 6 characters")
  else if negb (isLogin st) && falsy (vehicleModel f)
  then Invalid (u16 "Please select a vehicle model")
  else Valid.

(** [toggleMode()] *)
Definition toggleMode (st : LandingState) : LandingState :=
  mkLanding (negb (isLogin st)) (loading st) [] emptyForm.

(** The body of the request that [handleSubmit] hands to
    [authenticateUser]. *)
Inductive AuthRequest :=
| LoginRequest (username password : jsstring)
| RegisterRequest (username email password vehicleType vehicleModel : jsstring)
                  (billId : option jsstring).   (* null as None *)

(** [handleSubmit(e)] up to the call of [authenticateUser]: the form is
    rejected by the validation, or the request is sent; looking a model up
    in [VEHICLE_DATA[formData.vehicleType]] raises TypeError when the type
    is not a key of the table, which the catch clause turns into an error
    message. *)
Inductive Submission :=
| Rejected (message : jsstring)
| Sent (req : AuthRequest)
| LookupFailed.

Definition handleSubmit (st : LandingState) : Submission :=
  let f := formData st in
  match validateForm st with
  | Invalid message => Rejected message
  | Valid =>
    if isLogin st then Sent (LoginRequest (trim (username f)) (password f))
    else
      match VEHICLE_DATA (vehicleType f) with
      | None => LookupFailed
      | Some _ =>
        Sent (RegisterRequest (trim (username f)) (trim (email f)) (password f)
                (vehicleType f) (vehicleModel f)
                (if truthy (trim (billId f)) then Some (trim (billId f))
                 else None))
      end
  end.

(** What the user can do to the form. *)
Inductive FormEvent :=
| Typed (name : Field) (value : jsstring)
| ToggleMode.

(** The values an input can deliver: a text input any text, a select one
    of its options; the selects and the inputs of the registration are in
    the page only in registration mode.  The options of the model select
    are the empty one and the models of the vehicle type selected. *)
Definition offered (st : LandingState) (e : FormEvent) : bool :=
  match e with
  | Typed UsernameField _ | Typed PasswordField _ | ToggleMode => true
  | Typed EmailField _ | Typed BillIdField _ => negb (isLogin st)
  | Typed VehicleTypeField value =>
    negb (isLogin st)
    && existsb (str_eqb value) [u16 "car"; u16 "truck"]
  | Typed VehicleModelField value =>
    negb (isLogin st)
    && (falsy value
        || match VEHICLE_DATA (vehicleType (formData st)) with
           | Some models => existsb (fun v => str_eqb value (model_id v)) models
           | None => false
           end)
  end.

Definition form_step (st : LandingState) (e : FormEvent) : LandingState :=
  match e with
  | Typed name value => handleInputChange name value st
  | ToggleMode => toggleMode st
  end.

(** The states of the form that the user can bring about. *)
Inductive form_reachable : LandingState -> Prop :=
| form_start : form_reachable landing
| form_next (st : LandingState) (e : FormEvent) :
    form_reachable st -> offered st e = true -> form_reachable (form_step st e).

(** The model named by the form is one of the models of the type named by
    the form. *)
Definition model_of_type (f : FormData) : bool :=
  match VEHICLE_DATA (vehicleType f) with
  | Some models => existsb (fun v => str_eqb (vehicleModel f) (model_id v)) models
  | None => false
  end.

(** A text without white space at either end. *)
Definition trimmed (s : jsstring) : Prop := trim s = s.

(** ** The vehicle controls of the dashboard (Dashboard.js)

    The dashboard state in the shape that the defaults of
    [loadVehicleState] give it; temperature and volume are whole numbers,
    as the backend and the steps of the buttons give them. *)

Record Climate := mkClimate {
  temperature : Z;
  ac_on : bool;
  fan_speed : Z
}.

Record Music := mkMusic {
  playing : bool;
  volume : Z;
  current_track : jsstring
}.

Record Vehicle := mkVehicle {
  doors_locked : bool;
  lights_on : bool
}.

Record VehicleState := mkVehicleState {
  climate : Climate;
  music : Music;
  vehicle : Vehicle
}.

(** The body of a request to [/api/vehicle/command], without the user. *)
Record Command := mkCommand {
  command : jsstring;
  parameters : option (jsstring * Z)     (* [{}] as None *)
}.

(** How a [fetch] ends: with a response of some status, or rejected. *)
Inductive FetchOutcome :=
| Responded (status : Z)
| Rejected_fetch.

(** [response.ok] *)
Definition ok (status : Z) : bool := ((200 <=? status) && (status <=? 299))%Z.

(** The effects of one run of a control handler: the request it sent,
    whether it logged the user out, and the dashboard state it left. *)
Record Handled := mkHandled {
  sent_command : Command;
  logged_out : bool;
  next_state : VehicleState
}.

(** A handler reads [vehicleState] from the render in which it was
    created ([seen]), sends its request, and when the response is there
    updates the state of that moment ([prev]) with what it computed from
    [seen].  [checkAuthAndLogout] ends the handler on status 401. *)
Definition settle (cmd : Command) (reply : FetchOutcome)
  (update : VehicleState -> VehicleState) (prev : VehicleState) : Handled :=
  match reply with
  | Responded status =>
    if (status =? 401)%Z then mkHandled cmd true prev
    else if ok status then mkHandled cmd false (update prev)
    else mkHandled cmd false prev
  | Rejected_fetch => mkHandled cmd false prev
  end.

Definition handleTemperatureChange (seen : VehicleState) (increment : Z)
  (reply : FetchOutcome) (prev : VehicleState) : Handled :=
  let newTemp := (temperature (climate seen) + increment)%Z in
  settle (mkCommand (u16 "set_temperature") (Some (u16 "temperature", newTemp)))
    reply
    (fun prev =>
       mkVehicleState
         (mkClimate newTemp (ac_on (climate prev)) (fan_speed (climate prev)))
         (music prev) (vehicle prev))
    prev.

Definition handleACToggle (seen : VehicleState) (reply : FetchOutcome)
  (prev : VehicleState) : Handled :=
  settle (mkCommand (u16 "toggle_ac") None) reply
    (fun prev =>
       let newACState := negb (ac_on (climate seen)) in
       mkVehicleState
         (mkClimate (temperature (climate prev)) newACState
            (fan_speed (climate prev)))
         (music prev) (vehicle prev))
    prev.

Definition handleMusicToggle (seen : VehicleState) (reply : FetchOutcome)
  (prev : VehicleState) : Handled :=
  settle
    (mkCommand (if playing (music seen) then u16 "pause_music"
                else u16 "play_music") None)
    reply
    (fun prev =>
       let newPlayingState := negb (playing (music seen)) in
       mkVehicleState (climate prev)
         (mkMusic newPlayingState (volume (music prev))
            (current_track (music prev)))
         (vehicle prev))
    prev.

Definition handleVolumeChange (seen : VehicleState) (increment : Z)
  (reply : FetchOutcome) (prev : VehicleState) : Handled :=
  let newVolume := Z.max 0 (Z.min 100 (volume (music seen) + increment)) in
  settle (mkCommand (u16 "set_volume") (Some (u16 "volume", newVolume))) reply
    (fun prev =>
       mkVehicleState (climate prev)
         (mkMusic (playing (music prev)) newVolume (current_track (music prev)))
         (vehicle prev))
    prev.

Definition handleDoorsToggle (seen : VehicleState) (reply : FetchOutcome)
  (prev : VehicleState) : Handled :=
  settle
    (mkCommand (if doors_locked (vehicle seen) then u16 "unlock_doors"
                else u16 "lock_doors") None)
    reply
    (fun prev =>
       let newLockState := negb (doors_locked (vehicle seen)) in
       mkVehicleState (climate prev) (music prev)
         (mkVehicle newLockState (lights_on (vehicle prev))))
    prev.

Definition handleLightsToggle (seen : VehicleState) (reply : FetchOutcome)
  (prev : VehicleState) : Handled :=
  settle (mkCommand (u16 "toggle_lights") None) reply
    (fun prev =>
       let newLightsState := negb (lights_on (vehicle seen)) in
       mkVehicleState (climate prev) (music prev)
         (mkVehicle (doors_locked (vehicle prev)) newLightsState))
    prev.

(** The controls of the dashboard and the handler behind each. *)
Inductive Control :=
| TemperatureButton (increment : Z)
| ACButton
| MusicButton
| VolumeButton (increment : Z)
| DoorsButton
| LightsButton.

Definition press (c : Control) (seen : VehicleState) (reply : FetchOutcome)
  (prev : VehicleState) : Handled :=
  match c with
  | TemperatureButton increment => handleTemperatureChange seen increment reply prev
  | ACButton => handleACToggle seen reply prev
  | MusicButton => handleMusicToggle seen reply prev
  | VolumeButton increment => handleVolumeChange seen increment reply prev
  | DoorsButton => handleDoorsToggle seen reply prev
  | LightsButton => handleLightsToggle seen reply prev
  end.

(** The request was accepted: a response came, it is not the 401 that
    logs the user out, and it is ok. *)
Definition accepted (reply : FetchOutcome) : bool :=
  match reply with
  | Responded status => negb (status =? 401)%Z && ok status
  | Rejected_fetch => false
  end.

(** ** Error messages of the API client (App.js, handleAPIError) *)

(** [error.response.data]: absent (undefined or null), or a value whose
    [detail] property is a string or is missing. *)
Inductive ResponseData :=
| NoData
| WithDetail (detail : option jsstring).

(** The three kinds of error that the function tells apart. *)
Inductive ApiError :=
| ResponseError (status : Z) (data : ResponseData)  (* error.response is set *)
| RequestError                                      (* only error.request *)
| OtherError (message : option jsstring).           (* neither *)

(** [data.detail || fallback]; reading a property of undefined raises
    TypeError. *)
Definition detail_or (data : ResponseData) (fallback : jsstring)
  : outcome jsstring :=
  match data with
  | NoData => Threw TypeError
  | WithDetail (Some d) => Returned (if truthy d then d else fallback)
  | WithDetail None => Returned fallback
  end.

Definition handleAPIError (error : ApiError) : outcome jsstring :=
  match error with
  | ResponseError status data =>
    if (status =? 400)%Z then detail_or data (u16 "Invalid request")
    else if (status =? 401)%Z then Returned (u16 "Authentication required")
    else if (status =? 403)%Z then Returned (u16 "Access denied")
    else if (status =? 404)%Z then Returned (u16 "Service not found")
    else if (status =? 500)%Z
    then Returned (u16 "Server error - please try again later")
    else detail_or data
           (u16 "Server error (" ++ intToString status ++ u16 ")")
  | RequestError =>
    Returned (u16 "Unable to connect to server. Please check your internet connection.")
  | OtherError message =>
    Returned match message with
             | Some m => if truthy m then m else u16 "An unexpected error occurred"
             | None => u16 "An unexpected error occurred"
             end
  end.

(** ** The session of the application (App.js, function App)

    The state of the component and the entry [vehicleAssistantUser] of
    the local storage.  A user record is kept abstract, with the text that
    [JSON.stringify] gives for it and the record that [JSON.parse] reads
    from a text; [None] stands for the exception of [JSON.parse], and for
    the value null, on which [verifyUserAuth] raises and catches TypeError
    before it makes any request: both ways the entry is removed. *)

Module App.

Section Session.

Variable User : Type.
Variable stringify : User -> jsstring.
Variable parse : jsstring -> option User.

Record AppState := mkApp {
  isLoggedIn : bool;
  currentUser : option User;       (* null as None *)
  loading : bool;
  saved : option jsstring          (* the entry of the local storage *)
}.

(** The state in which the component is mounted. *)
Definition mounted (entry : option jsstring) : AppState :=
  mkApp false None true entry.

(** [verifyUserAuth(userData)], on the outcome of its request *)
Definition verifyUserAuth (reply : FetchOutcome) : bool :=
  match reply with
  | Responded status => if (status =? 401)%Z then false else ok status
  | Rejected_fetch => false
  end.

(** [checkExistingAuth()]; the request is made only for an entry that is
    there, is not empty and can be parsed. *)
Definition checkExistingAuth (reply : FetchOutcome) (st : AppState) : AppState :=
  match saved st with
  | Some savedUser =>
    if truthy savedUser then
      match parse savedUser with
      | Some userData =>
        if verifyUserAuth reply
        then mkApp true (Some userData) false (saved st)
        else mkApp (isLoggedIn st) (currentUser st) false None
      | None => mkApp (isLoggedIn st) (currentUser st) false None
      end
    else mkApp (isLoggedIn st) (currentUser st) false (saved st)
  | None => mkApp (isLoggedIn st) (currentUser st) false None
  end.

Definition handleLogin (userData : User) (st : AppState) : AppState :=
  mkApp true (Some userData) (loading st) (Some (stringify userData)).

Definition handleLogout (st : AppState) : AppState :=
  mkApp false None (loading st) None.

Definition updateUser (updatedUserData : User) (st : AppState) : AppState :=
  mkApp (isLoggedIn st) (Some updatedUserData) (loading st)
    (Some (stringify updatedUserData)).

(** What happens to the component: the check of the saved session ends,
    the landing page reports a login, the dashboard asks for a logout or
    passes an updated user record. *)
Inductive AppEvent :=
| Checked (reply : FetchOutcome)
| LoggedIn (userData : User)
| LoggedOut
| Updated (updatedUserData : User).

(** The check runs once, while the spinner is shown; the landing page and
    the dashboard exist only after it, and the dashboard only for a user
    who is logged in. *)
Definition enabled (st : AppState) (e : AppEvent) : bool :=
  match e with
  | Checked _ => loading st
  | LoggedIn _ | LoggedOut => negb (loading st)
  | Updated _ => negb (loading st) && isLoggedIn st
  end.

Definition app_step (st : AppState) (e : AppEvent) : AppState :=
  match e with
  | Checked reply => checkExistingAuth reply st
  | LoggedIn userData => handleLogin userData st
  | LoggedOut => handleLogout st
  | Updated updatedUserData => updateUser updatedUserData st
  end.

Inductive app_reachable (entry : option jsstring) : AppState -> Prop :=
| app_mounted : app_reachable entry (mounted entry)
| app_next (st : AppState) (e : AppEvent) :
    app_reachable entry st -> enabled st e = true ->
    app_reachable entry (app_step st e).

(** The dashboard is shown for a user whose record the storage holds; the
    landing page is shown without a user and without a saved session. *)
Definition session_kept (st : AppState) : Prop :=
  if isLoggedIn st
  then exists userData savedUser,
         currentUser st = Some userData
         /\ saved st = Some savedUser /\ parse savedUser = Some userData
  else currentUser st = None /\ (saved st = None \/ saved st = Some []).

End Session.

End App.

(** ** What the session reconstruction is measured against *)

(** The messages that one interaction puts on the current session: the
    user turn, then the assistant turn, each only if its text is
    present. *)
Definition turns (x : Interaction) : list Message :=
  let actions := match actions_taken x with
                 | Some a => a | None => [] end in
  let turn (r : Role) (field : option jsstring) :=
    match present field with
    | Some content => [mkMessage r content (timestamp x) (agent_id x) actions]
    | None => []
    end in
  turn user (user_input x) ++ turn assistant (agent_response x).

(** A session after one more interaction was put on it. *)
Definition push_turns (s : Session) (x : Interaction) : Session :=
  mkSession (id s) (date s) (displayDate s) (startTime s) (timestamp x)
    (interactions s ++ turns x) (length (turns x) + messageCount s).

(** The session that the loop creates for interaction [i] when [k]
    sessions exist. *)
Definition opened (tzOffset : Z -> Z) (env : Env) (k i : nat)
  (x : Interaction) : Session :=
  mkSession (mkSessionId (clock env (2 * k)) (random env k) i)
    (toDateString tzOffset (timestamp x))
    (formatSessionDate tzOffset (clock env (2 * k + 1)) (timestamp x))
    (timestamp x) (timestamp x) [] 0.

(** Two interactions that follow each other in time are cut apart when
    they fall on different local days or lie more than thirty minutes
    apart. *)
Definition cut_between (tzOffset : Z -> Z) (a b : Interaction) : bool :=
  negb (civil_eqb (toDateString tzOffset (timestamp a))
          (toDateString tzOffset (timestamp b)))
  || (30 * 60 * 1000 <? timestamp b - timestamp a)%Z.

(** The number of interactions of a time-ordered list that open a
    session: the first one, and every one cut from its predecessor. *)
Fixpoint session_starts (tzOffset : Z -> Z) (prev : option Interaction)
  (l : list Interaction) : nat :=
  match l with
  | [] => 0
  | x :: t =>
    (match prev with
     | None => 1
     | Some p => if cut_between tzOffset p x then 1 else 0
     end + session_starts tzOffset (Some x) t)%nat
  end.

(** A session covers the time from its first to its last interaction,
    and its messages lie in between. *)
Definition spans (s : Session) : Prop :=
  (startTime s <= lastInteraction s)%Z
  /\ Forall (fun m => (startTime s <= msg_timestamp m <= lastInteraction s)%Z)
       (interactions s).

(** The session [later] begins no earlier than [sooner] ends. *)
Definition follows (later sooner : Session) : Prop :=
  (lastInteraction sooner <= startTime later)%Z.

(** Every message of the session carries a time of the session's day. *)
Definition on_its_day (tzOffset : Z -> Z) (s : Session) : Prop :=
  date s = toDateString tzOffset (startTime s)
  /\ Forall (fun m => toDateString tzOffset (msg_timestamp m) = date s)
       (interactions s).

(** The current session ends at the interaction handled last, on whose
    day it lies. *)
Definition tracks (tzOffset : Z -> Z) (prev : option Interaction)
  (st : GroupState) : Prop :=
  match prev, currentSession st with
  | None, None => True
  | Some p, Some s =>
    lastInteraction s = timestamp p
    /\ date s = toDateString tzOffset (timestamp p)
  | _, _ => False
  end.

(** Sessions in the order of their creation: each begins no earlier than
    the ones before it end, each spans its messages, and none reaches
    beyond the time [b]. *)
Definition in_order (b : Z) (cs : list Session) : Prop :=
  StronglySorted (fun sooner later => follows later sooner) cs
  /\ Forall spans cs
  /\ Forall (fun s => (lastInteraction s <= b)%Z) cs.

(** ** What the directions card is measured against *)

(** The text after the label on a line of kind [k]. *)
Definition labelled (k : LineKind) (label : jsstring) (trimmedLine : jsstring)
  : option jsstring :=
  if kind_eqb (line_kind trimmedLine) k
  then Some (trim (removeFirstStr label trimmedLine)) else None.

(** The address on a maps line that holds one. *)
Definition linked (trimmedLine : jsstring) : option jsstring :=
  if kind_eqb (line_kind trimmedLine) MapsLine
  then option_map (matched_text trimmedLine) (exec re_https trimmedLine)
  else None.

(** The last of the lines of the text from which [read] gets a value. *)
Definition last_read (read : jsstring -> option jsstring) (content : jsstring)
  : option jsstring :=
  last (omap read (List.map trim (nonBlankLines content))).

(** The numbered lines, trimmed, in the order of the text. *)
Definition step_lines (content : jsstring) : list jsstring :=
  List.filter (fun l => kind_eqb (line_kind l) StepLine)
    (List.map trim (nonBlankLines content)).

(** The card read off the text line by line: every field from the last
    line that gives it, the steps from the numbered lines. *)
Definition directions_card (content : jsstring) : ClassifiedResult :=
  let dest := default [] (last_read (labelled DestinationLine
                                       (u16 "📍 Destination:")) content) in
  if has_line_of_kind ErrorLine content || falsy dest
  then ErrorResult ReportedError content
  else DirectionsResult dest
         (default [] (last_read (labelled DistanceLine (u16 "📏 Distance:"))
                        content))
         (default [] (last_read (labelled DurationLine (u16 "⏱️ Duration:"))
                        content))
         (mapi_from render_step 0 (step_lines content))
         (default [] (last_read linked content)).

(** ** What the forms and controls are measured against *)

(** What the validation lets through. *)
Definition acceptable (st : LandingState) : Prop :=
  let f := formData st in
  3 <= length (trim (username f))
  /\ password f <> []
  /\ (isLogin st = false ->
      includes (u16 "@") (email f) = true
      /\ 6 <= length (password f)
      /\ vehicleModel f <> []).

(** A request as the backend should see it: a user name of at least
    three code units without white space around it, a password, and for a
    registration an e-mail address with an at sign and without white space
    around it, a password of at least six code units, a model, and a bill
    id that is absent or not blank. *)
Definition request_ok (req : AuthRequest) : Prop :=
  match req with
  | LoginRequest username password =>
    trimmed username /\ 3 <= length username /\ password <> []
  | RegisterRequest username email password vehicleType vehicleModel billId =>
    trimmed username /\ 3 <= length username
    /\ trimmed email /\ includes (u16 "@") email = true
    /\ 6 <= length password
    /\ vehicleModel <> []
    /\ match billId with
       | Some b => trimmed b /\ b <> []
       | None => True
       end
  end.

(** After an accepted request the dashboard shows what the request asked
    for: the value sent, the state named by the command, or the opposite
    of what the user saw when pressing a toggle. *)
Definition agrees (c : Control) (seen : VehicleState) (h : Handled) : Prop :=
  let cmd := sent_command h in
  let now := next_state h in
  match c with
  | TemperatureButton _ =>
    parameters cmd = Some (u16 "temperature", temperature (climate now))
  | VolumeButton _ =>
    parameters cmd = Some (u16 "volume", volume (music now))
  | MusicButton =>
    (command cmd = u16 "play_music" /\ playing (music now) = true)
    \/ (command cmd = u16 "pause_music" /\ playing (music now) = false)
  | DoorsButton =>
    (command cmd = u16 "lock_doors" /\ doors_locked (vehicle now) = true)
    \/ (command cmd = u16 "unlock_doors" /\ doors_locked (vehicle now) = false)
  | ACButton => ac_on (climate now) = negb (ac_on (climate seen))
  | LightsButton => lights_on (vehicle now) = negb (lights_on (vehicle seen))
  end.

(** ** What the cards are measured against *)

Definition no_space (s : jsstring) : Prop :=
  Forall (fun c => isWhiteSpace c = false) s.

(** An address that begins with [prefix] and holds no white space. *)
Definition web_address (prefix url : jsstring) : Prop :=
  (exists more, url = prefix ++ more) /\ no_space url.

(** The step at position [index] of a directions card, counted from zero:
    an instruction that is not empty, under a number read from the line
    (one or more digits) or, when none was read, the position of the step
    counted from one. *)
Definition step_ok (index : nat) (s : Step) : Prop :=
  step_instruction s <> []
  /\ match step_number s with
     | Parsed digits => digits <> [] /\ Forall (fun c => isDigit c = true) digits
     | Positional n => n = index + 1
     end.

(** A string of code units, each below 2^16. *)
Definition code_units (s : jsstring) : Prop :=
  Forall (fun c => (c < 0x10000)%N) s.

(** The code units of an encoded component: unreserved ones and the
    per cent sign. *)
Definition url_char (c : N) : bool := isUnreserved c || (c =? 0x25)%N.

(** A place card: a name that is not empty, name and address without
    white space around them, a status that is empty, Open or Closed, a
    rating that is absent or the star followed by a rating number, and a
    maps address made of the search prefix and an encoded query. *)
Definition place_ok (p : Place) : Prop :=
  place_name p <> [] /\ trimmed (place_name p)
  /\ In (place_status p) [[]; u16 "Open"; u16 "Closed"]
  /\ match place_rating p with
     | Some r => exists n, r = u16 "⭐ " ++ n /\ lang re_rating_number n
     | None => True
     end
  /\ trimmed (place_address p)
  /\ exists q,
       place_mapsUrl p = u16 "https://www.google.com/maps/search/" ++ q
       /\ Forall (fun c => url_char c = true) q.

(** The fields of an entry from which a card is made. *)
Definition fields_ok (f : PlaceFields) : Prop :=
  trimmed (f_name f)
  /\ In (f_status f) [[]; u16 "Open"; u16 "Closed"]
  /\ (f_rating f = [] \/ lang re_rating_number (f_rating f))
  /\ trimmed (f_address f)
  /\ code_units (f_name f) /\ code_units (f_address f).

(** The controls without a value: each flips one switch. *)
Definition is_toggle (c : Control) : bool :=
  match c with
  | ACButton | MusicButton | DoorsButton | LightsButton => true
  | TemperatureButton _ | VolumeButton _ => false
  end.

(** ** What the spoken summary is measured against *)

(** The rules that the source tests before the weather rule, in its
    order. *)
Definition speech_before_weather (toLowerCase : jsstring -> jsstring)
  (text : jsstring) : option jsstring :=
  let cleanText := toLowerCase text in
  first_of
    [speech_before_ac toLowerCase text;
     speech_ac cleanText; speech_music cleanText; speech_doors cleanText;
     speech_lights cleanText].

(** The weather rule hands back the text of a condition line: control
    reaches the rule, its test holds, no line gives a temperature, and the
    first line with [Condition:] or [Weather:] is, with the labels removed
    and trimmed, the text [answer]. *)
Definition condition_echo (toLowerCase : jsstring -> jsstring)
  (text answer : jsstring) : Prop :=
  speech_before_weather toLowerCase text = None
  /\ includes (u16 "weather") (toLowerCase text)
     || includes (u16 "temperature") (toLowerCase text) = true
  /\ find_line (fun line => includes (u16 "°") line
                            || includes (u16 "degrees") line)
       (nonBlankLines text) = None
  /\ exists conditionLine,
       find_line (fun line => includes (u16 "Condition:") line
                              || includes (u16 "Weather:") line)
         (nonBlankLines text) = Some conditionLine
       /\ trim (remove_all re_condition_labels conditionLine) = answer.

(** The code units that end a sentence, and how many a text holds. *)
Definition isTerminator (c : N) : bool := existsb (N.eqb c) (u16 ".!?").

Definition terminators (s : jsstring) : nat :=
  length (List.filter isTerminator s).

(** The code points of a string: a surrogate pair counts as the one code
    point it encodes, every other code unit as itself.  This is how a
    pattern with the [u] flag reads its input. *)
Fixpoint code_points (s : jsstring) : list N :=
  match s with
  | [] => []
  | c :: t =>
    match t with
    | lo :: t' =>
      if isHighSurrogate c && isLowSurrogate lo
      then pairPoint c lo :: code_points t'
      else c :: code_points t
    | [] => [c]
    end
  end.

(** No code point of the three ranges that the summary removes. *)
Definition emoji_free (s : jsstring) : Prop :=
  Forall (fun cp => isEmojiPoint cp = false) (code_points s).

(** A code unit that is no half of a surrogate pair. *)
Definition plain (c : N) : bool :=
  negb (isHighSurrogate c) && negb (isLowSurrogate c).

(** ** Inputs and environments of the examples *)

(** The place-search response of section 8 of the specification. *)
Definition sample_places : jsstring :=
  lines_of [u16 "Found 3 restaurants near you (sample)";
            u16 "1. 📍 Cafe A (0.5 mi) ⭐ 4.5 🟢";
            u16 "2. 📍 Cafe B (1.2 mi) ⭐ 4.0 🔴"].

(** A place-search response whose entry name starts with U+1F600. *)
Definition sample_emoji_place : jsstring :=
  lines_of [u16 "Found 1 cafes near you"; u16 "1. 😀 Cafe (1 mi)"].

(** A directions response with the cross mark on a step line. *)
Definition sample_blocked_step : jsstring :=
  lines_of [u16 "🧭 Route"; u16 "📍 Destination: Home";
            u16 "1. ❌ Road closed ahead"].

(** A place-search response whose count is no double. *)
Definition sample_large_count : jsstring :=
  lines_of [u16 "Found 9007199254740993 cafes near you";
            u16 "1. 📍 A (1 mi)"; u16 "2. 📍 B (2 mi)"; u16 "3. 📍 C (3 mi)"].

(** A directions response whose second step is a bare number. *)
Definition sample_bare_step : jsstring :=
  lines_of [u16 "🧭 Route"; u16 "📍 Destination: Home";
            u16 "1. Turn left"; u16 "2."].

(** A directions response with the cross mark on a line of its own. *)
Definition sample_route_error : jsstring :=
  lines_of [u16 "🧭 Route"; u16 "❌ No route found"].

Definition sample_ac_temperature : jsstring :=
  u16 "Temperature set to 22. Air conditioning turned on.".

Definition sample_ac : jsstring := u16 "The air conditioning is now turned on.".

Definition sample_weather_condition : jsstring :=
  lines_of [u16 "weather"; u16 "Condition: Task completed."].

(** Local time equal to UTC. *)
Definition utc (_ : Z) : Z := 0%Z.

Definition env0 : Env := mkEnv (fun _ => 0%Z) (fun _ => 0%Q).

(** Two interactions with the same timestamp. *)
Definition asked_first : Interaction :=
  mkInteraction (Some (u16 "lock the doors")) None None 1710027000000 None.
Definition asked_second : Interaction :=
  mkInteraction (Some (u16 "play music")) None None 1710027000000 None.
Definition asked_later : Interaction :=
  mkInteraction (Some (u16 "play music")) (Some (u16 "Music started."))
    None 1710027060000 None.

(** The contents of the messages of each session. *)
Definition contents (ss : list Session) : list (list jsstring) :=
  List.map (fun s => List.map msg_content (interactions s)) ss.

(** The client after [connect(userId)] and the open event of its socket. *)
Definition connected (userId : jsstring) : World :=
  run initial [CallConnect userId; SocketOpens 0].

(** The client holds a socket that is not closed, every other socket is
    closed, no timer is pending, and [n] reconnect attempts have been
    counted. *)
Definition one_live_socket (n : nat) (w : World) : Prop :=
  exists s info,
    socket (api w) = Some s
    /\ sockets w !! s = Some info
    /\ sock_status info <> SockClosed
    /\ (forall i other, sockets w !! i = Some other -> i <> s ->
        sock_status other = SockClosed)
    /\ timers w = []
    /\ reconnectAttempts (api w) = n
    /\ maxReconnectAttempts (api w) = 5.

(** Every socket is closed, no timer is pending and the attempts are used
    up. *)
Definition exhausted (w : World) : Prop :=
  (forall i info, sockets w !! i = Some info -> sock_status info = SockClosed)
  /\ timers w = []
  /\ isConnected (api w) = false
  /\ reconnectAttempts (api w) = 5
  /\ maxReconnectAttempts (api w) = 5.

Definition is_connect_call (e : Event) : bool :=
  match e with CallConnect _ => true | _ => false end.

(** The delays of the first [n] reconnect attempts. *)
Definition backoff_delays (n : nat) : list Z :=
  List.map (fun k => (2000 * Z.of_nat k)%Z) (seq 1 n).

(** A registration form filled in for a truck. *)
Definition sample_registration : list FormEvent :=
  [ToggleMode;
   Typed UsernameField (u16 " driver ");
   Typed EmailField (u16 "driver@example.org");
   Typed PasswordField (u16 "secret1");
   Typed VehicleTypeField (u16 "truck");
   Typed VehicleModelField (u16 "ram_1500")].

(** The dashboard state of the defaults of loadVehicleState. *)
Definition default_state : VehicleState :=
  mkVehicleState (mkClimate 22 false 2) (mkMusic false 50 (u16 "No track"))
    (mkVehicle false false).

(** A response that none of the rules 1 to 6 of the summary takes. *)
Definition sample_chat : jsstring :=
  u16 "Hello there! How can I help you today? Just ask.".

(** A response with emoji that none of the rules 1 to 6 takes. *)
Definition sample_emoji_chat : jsstring :=
  u16 "Hello 😀 there! All good ☀ today? Yes.".

(** * Properties *)

(** ** Checks of the string layer *)

Example u16_pin : u16 "📍" = [0xD83D; 0xDCCD]%N.
Proof. reflexivity. Qed.

Example u16_stopwatch : u16 "⏱️" = [0x23F1; 0xFE0F]%N.
Proof. reflexivity. Qed.

Example u16_glyph_class :
  u16 "⭐🟢🔴📮" = [0x2B50; 0xD83D; 0xDFE2; 0xD83D; 0xDD34; 0xD83D; 0xDCEE]%N.
Proof. reflexivity. Qed.

Example split1_lines : split1 0x0A%N (u16 "a" ++ [0x0A%N] ++ u16 "b")
                       = [u16 "a"; u16 "b"].
Proof. reflexivity. Qed.

Example split_sentences :
  split_re re_sentence_end (u16 "One. Two?! Three")
  = [u16 "One"; u16 " Two"; u16 " Three"].
Proof. vm_compute. reflexivity. Qed.

Example split_only_dots : split_re re_sentence_end (u16 "...") = [[]; []].
Proof. vm_compute. reflexivity. Qed.

Example encode_space : encodeURIComponent (u16 "Cafe A") = Some (u16 "Cafe%20A").
Proof. vm_compute. reflexivity. Qed.

Example encode_pair :
  encodeURIComponent (u16 "😀") = Some (u16 "%F0%9F%98%80").
Proof. vm_compute. reflexivity. Qed.

Example encode_lone_low : encodeURIComponent [0xDE00%N] = None.
Proof. reflexivity. Qed.

Example found_header :
  option_map (fun m => (group 1 m, group 2 m))
    (exec re_found (u16 "Found 3 restaurants near you (sample)"))
  = Some (u16 "3", u16 "restaurants ").
Proof. vm_compute. reflexivity. Qed.

(** ** Checks of the Numbers *)

Example parseInt_tie : parseInt (u16 "9007199254740993") = Finite 9007199254740992.
Proof. vm_compute. reflexivity. Qed.

Example parseInt_overflow : parseInt (u16 "1" ++ repeat 0x30%N 309) = Infinity.
Proof. vm_compute. reflexivity. Qed.

Example toString_shortest :
  Number_toString (parseInt (u16 "18446744073709551616"))
  = u16 "18446744073709552000".
Proof. vm_compute. reflexivity. Qed.

Example toString_exponent :
  Number_toString (parseInt (u16 "123456789012345678901234567890"))
  = u16 "1.2345678901234568e+29"
  /\ Number_toString (parseInt (u16 "999999999999999999999")) = u16 "1e+21".
Proof. split; vm_compute; reflexivity. Qed.

(** Below 2^53 the Numbers are the integers. *)
Lemma more_options_exact (n : N) :
  (3 < n < 2 ^ 53)%N ->
  greaterThan (toNumber n) 3 = true
  /\ Number_toString (minus (toNumber n) 3) = numberToString (n - 3).
Proof.
  intros [H3 H]. unfold toNumber.
  rewrite (proj2 (N.ltb_lt _ _) H). cbn [greaterThan minus].
  split; [now apply N.ltb_lt|].
  unfold toNumber.
  assert (H' : (n - 3 < 2 ^ 53)%N) by lia.
  rewrite (proj2 (N.ltb_lt _ _) H'). cbn [Number_toString].
  now rewrite (proj2 (N.ltb_lt _ _) H').
Qed.

(** A count beyond 2^53 is spoken as written, and the number of further
    options as the doubles give it. *)
Example speech_large_count :
  extractKeyInfoForSpeech asciiLower sample_large_count
  = u16 "I found 9007199254740993 cafes near you. Including A, B, and C, plus 9007199254740989 more options.".
Proof. vm_compute. reflexivity. Qed.

(** ** The place-search sample (C1) *)

(** C1.  On the three-line sample of the specification, formatResponse
    takes the location branch, because the text holds a pin glyph and has
    three lines, and renders the header line as a location, whereas
    formatPlaceSearchResponse applied to the same text yields the count,
    category and the two entries that the claim lists. *)
Theorem formatResponse_sample_places :
  formatResponse sample_places
  = Returned (LocationResult (u16 "Found 3 restaurants near you (sample)"))
  /\ formatPlaceSearchResponse sample_places
     = Returned
         (PlaceSearchResult (u16 "3") (u16 "restaurants")
            [mkPlace (u16 "Cafe A") (u16 "0.5 mi") (Some (u16 "⭐ 4.5"))
               (u16 "Open") []
               (u16 "https://www.google.com/maps/search/Cafe%20A");
             mkPlace (u16 "Cafe B") (u16 "1.2 mi") (Some (u16 "⭐ 4.0"))
               (u16 "Closed") []
               (u16 "https://www.google.com/maps/search/Cafe%20B")]).
Proof. split; vm_compute; reflexivity. Qed.

(** With one entry more the text has four lines and reaches the
    place-search branch. *)
Example formatResponse_four_lines :
  exists places,
    formatResponse (sample_places ++ [0x0A%N] ++ u16 "3. 📍 Cafe C (2 mi)")
    = Returned (PlaceSearchResult (u16 "3") (u16 "restaurants") places)
    /\ List.map place_name places = [u16 "Cafe A"; u16 "Cafe B"; u16 "Cafe C"].
Proof. eexists. split; vm_compute; reflexivity. Qed.

(** ** The session label (C7) *)

(** C7.  A session that started at 23:30 on 9 March 2024 is labelled
    Today at 00:30 on 10 March (UTC as local time), and a session stamped
    one minute after the present is labelled -1 days ago: the label counts
    elapsed periods of 24 hours, not calendar days. *)
Theorem formatSessionDate_not_calendar :
  formatSessionDate utc 1710030600000 1710027000000 = u16 "Today"
  /\ toDateString utc 1710027000000 = mkCivil 2024 3 9
  /\ toDateString utc 1710030600000 = mkCivil 2024 3 10
  /\ formatSessionDate utc 1710030600000 1710030660000 = u16 "-1 days ago"
  /\ toDateString utc 1710030660000 = mkCivil 2024 3 10.
Proof. repeat split; vm_compute; reflexivity. Qed.

(** What decides the label is the time elapsed. *)
Lemma formatSessionDate_elapsed (tzOffset : Z -> Z) (now date : Z) :
  ((0 <= now - date < 86400000)%Z ->
   formatSessionDate tzOffset now date = u16 "Today")
  /\ ((86400000 <= now - date < 172800000)%Z ->
      formatSessionDate tzOffset now date = u16 "Yesterday").
Proof.
  unfold formatSessionDate.
  change (1000 * 60 * 60 * 24)%Z with 86400000%Z.
  split; intros H.
  - now rewrite Z.div_small.
  - replace ((now - date) / 86400000)%Z with 1%Z; trivial.
    apply (Z.div_unique_pos _ _ 1 (now - date - 86400000)); lia.
Qed.

Example formatSessionDate_older :
  formatSessionDate utc 1710030600000 1704067200000 = u16 "Jan 1"
  /\ formatSessionDate utc 1710030600000 1672531200000 = u16 "Jan 1, 2023".
Proof. split; vm_compute; reflexivity. Qed.

(** ** Explicit disconnect (C4) *)

(** C4.  After connect and open, disconnect() leaves the client
    disconnected with no socket, but the close event of the socket it
    closed runs the close handler, which sets a 2000 ms timer, and when
    the timer fires the client is connecting again. *)
Theorem disconnect_reconnects (userId : jsstring) :
  let w := connected userId in
  connection_state w = Connected
  /\ connection_state (step w CallDisconnect) = Disconnected
  /\ socket (api (step w CallDisconnect)) = None
  /\ timers (run w [CallDisconnect; SocketCloses 0]) = [mkTimer 2000 userId]
  /\ connection_state (run w [CallDisconnect; SocketCloses 0; TimerFires 0])
     = Connecting.
Proof. repeat split. Qed.

(** ** Facts about the string operations *)

Lemma trimStart_in (x : N) (s : jsstring) : In x (trimStart s) -> In x s.
Proof.
  induction s as [|c t IH]; simpl; auto.
  destruct (isWhiteSpace c); simpl; auto.
Qed.

Lemma trimEnd_in (x : N) (s : jsstring) : In x (trimEnd s) -> In x s.
Proof.
  unfold trimEnd. intros H.
  apply in_rev in H. apply trimStart_in in H. now apply in_rev.
Qed.

Lemma trim_in (x : N) (s : jsstring) : In x (trim s) -> In x s.
Proof. unfold trim. intros H. now apply trimStart_in, trimEnd_in. Qed.

Lemma trimStart_keeps (c : N) (s : jsstring) :
  isWhiteSpace c = false -> In c s -> In c (trimStart s).
Proof.
  intros Hc. induction s as [|d t IH]; simpl; auto.
  intros [->|H].
  - rewrite Hc. now left.
  - destruct (isWhiteSpace d); simpl; auto.
Qed.

Lemma trim_keeps (c : N) (s : jsstring) :
  isWhiteSpace c = false -> In c s -> In c (trim s).
Proof.
  intros Hc H. unfold trim, trimEnd.
  apply in_rev. rewrite rev_involutive.
  apply trimStart_keeps; trivial.
  apply in_rev. rewrite rev_involutive.
  now apply trimStart_keeps.
Qed.

Lemma trim_nil_blank (c : N) (s : jsstring) :
  trim s = [] -> In c s -> isWhiteSpace c = true.
Proof.
  intros Ht Hin. destruct (isWhiteSpace c) eqn:E; trivial.
  pose proof (trim_keeps c s E Hin) as H. rewrite Ht in H. destruct H.
Qed.

Lemma startsWith_head (c : N) (p s : jsstring) :
  startsWith (c :: p) s = true -> exists t, s = c :: t.
Proof.
  destruct s as [|d t]; simpl; [discriminate|].
  intros H. apply andb_prop in H as [H _].
  apply N.eqb_eq in H. subst. now exists t.
Qed.

Lemma indexOf_from_found (pat s : jsstring) (i : Z) :
  (0 <= i)%Z -> (0 <= indexOf_from pat s i)%Z ->
  exists pre post, s = pre ++ post /\ startsWith pat post = true.
Proof.
  revert i. induction s as [|c t IH]; intros i Hi; simpl.
  - destruct (startsWith pat []) eqn:E; [|lia].
    intros _. now exists [], [].
  - destruct (startsWith pat (c :: t)) eqn:E.
    + intros _. now exists [], (c :: t).
    + intros H. destruct (IH (i + 1)%Z) as (pre & post & -> & Hp); [lia|trivial|].
      now exists (c :: pre), post.
Qed.

Lemma includes_found (pat s : jsstring) :
  includes pat s = true ->
  exists pre post, s = pre ++ post /\ startsWith pat post = true.
Proof.
  unfold includes, indexOf. intros H. apply Z.leb_le in H.
  now apply (indexOf_from_found pat s 0%Z).
Qed.

Lemma includes_In (c : N) (p s : jsstring) :
  includes (c :: p) s = true -> In c s.
Proof.
  intros H. destruct (includes_found _ _ H) as (pre & post & -> & Hs).
  destruct (startsWith_head _ _ _ Hs) as [t ->].
  apply in_or_app. right. now left.
Qed.

Lemma split1_covers (sep c : N) (s : jsstring) :
  c <> sep -> In c s ->
  exists piece, In piece (split1 sep s) /\ In c piece.
Proof.
  intros Hc. induction s as [|d t IH]; simpl; [intros []|].
  intros [->|H].
  - destruct (N.eqb_spec c sep) as [|_]; [contradiction|].
    destruct (split1 sep t) as [|piece more].
    + exists [c]. split; now left.
    + exists (c :: piece). split; now left.
  - destruct (IH H) as (piece & Hp & Hin).
    destruct (N.eqb_spec d sep) as [_|_].
    + exists piece. split; [now right|trivial].
    + destruct (split1 sep t) as [|p0 more]; [destruct Hp|].
      destruct Hp as [->|Hp].
      * exists (d :: piece). split; [now left|now right].
      * exists piece. split; [now right|trivial].
Qed.

Lemma nonBlankLines_nonempty (c : N) (s : jsstring) :
  isWhiteSpace c = false -> In c s -> nonBlankLines s <> [].
Proof.
  intros Hc Hin.
  assert (Hsep : c <> 0x0A%N) by (intros ->; discriminate).
  destruct (split1_covers _ _ _ Hsep Hin) as (piece & Hp & Hcp).
  assert (In piece (nonBlankLines s)) as H.
  { unfold nonBlankLines. apply filter_In. split; trivial.
    pose proof (trim_keeps c piece Hc Hcp) as Ht.
    destruct (trim piece); [destruct Ht|reflexivity]. }
  intros E. rewrite E in H. destruct H.
Qed.

(** ** Facts about the matcher *)

Lemma rmatch_class_head (p : N -> bool) (a b : regex) (st : mstate)
  (k : mstate -> option mstate) :
  rmatch (Seq (Seq (Class p) a) b) st k <> None ->
  exists c t, rest st = c :: t /\ p c = true.
Proof.
  simpl. destruct (rest st) as [|c t]; [congruence|].
  destruct (p c) eqn:E; [|congruence].
  intros _. now exists c, t.
Qed.

Lemma search_from_head (P : N -> Prop) (r : regex) :
  (forall q t, match_at r q t <> None -> exists c t', t = c :: t' /\ P c) ->
  forall s q m, search_from r q s = Some m -> exists c, In c s /\ P c.
Proof.
  intros Hr. induction s as [|d t IH]; intros q m; simpl.
  - destruct (match_at r q []) eqn:E; [|discriminate].
    destruct (Hr q []) as (c & t' & Ht & _); congruence.
  - destruct (match_at r q (d :: t)) eqn:E.
    + intros _. destruct (Hr q (d :: t)) as (c & t' & Ht & Hc); [congruence|].
      injection Ht as -> ->. exists c. split; [now left|trivial].
    + intros H. destruct (IH _ _ H) as (c & Hin & Hc).
      exists c. split; [now right|trivial].
Qed.

Lemma match_at_none (r : regex) (q : nat) (s : jsstring) :
  match_at r q s <> None -> rmatch r (MState q s []) Some <> None.
Proof. unfold match_at. destruct (rmatch r _ Some); congruence. Qed.

(** A match of the dispatch pattern starts with an F in either case. *)
Lemma found_dispatch_letter (s : jsstring) :
  test re_found_dispatch s = true ->
  exists c, In c s /\ (c = 0x46 \/ c = 0x66)%N.
Proof.
  unfold test, exec. destruct (search_from re_found_dispatch 0 s) eqn:E;
    [intros _|discriminate].
  revert E. apply search_from_head. intros q t H.
  apply match_at_none in H.
  destruct (rmatch_class_head _ _ _ _ _ H) as (c & t' & Ht & Hc).
  simpl in Ht. exists c, t'. split; trivial.
  apply orb_prop in Hc as [Hc|Hc]; apply N.eqb_eq in Hc; subst; auto.
Qed.

(** ** The fuel of the matcher is enough

    The loops of the matcher, of the global match and of the split are
    written with a bound on their number of rounds.  The bounds used are
    never reached: any larger bound gives the same result. *)

Lemma reaches_refl (st : mstate) : reaches st st.
Proof. exists []. simpl. split; [reflexivity|lia]. Qed.

Lemma reaches_trans (a b c : mstate) : reaches a b -> reaches b c -> reaches a c.
Proof.
  intros (p1 & H1 & P1) (p2 & H2 & P2). exists (p1 ++ p2).
  rewrite H1, H2, P2, P1, length_app, app_assoc. split; [reflexivity|lia].
Qed.

Lemma reaches_length (st st' : mstate) :
  reaches st st' ->
  pos st <= pos st' /\ length (rest st') + (pos st' - pos st) = length (rest st).
Proof.
  intros (pre & H & P). rewrite H, P, length_app. lia.
Qed.

Section Continuations.

Variable body : mstate -> (mstate -> option mstate) -> option mstate.

Hypothesis body_ext : forall st k1 k2,
  (forall st', reaches st st' -> k1 st' = k2 st') -> body st k1 = body st k2.

Lemma star_loop_ext (g : bool) (fuel : nat) :
  forall st k1 k2,
    (forall st', reaches st st' -> k1 st' = k2 st') ->
    star_loop body g k1 fuel st = star_loop body g k2 fuel st.
Proof using body_ext.
  induction fuel as [|f IH]; intros st k1 k2 H; cbn [star_loop].
  - apply H, reaches_refl.
  - rewrite (H st (reaches_refl st)).
    rewrite (body_ext st _
               (fun st' => if (pos st <? pos st')%nat
                           then star_loop body g k2 f st' else None)).
    + reflexivity.
    + intros st' R. destruct (pos st <? pos st')%nat; trivial.
      apply IH. intros st'' R'. apply H. now apply (reaches_trans _ st').
Qed.

Hypothesis body_none : forall st, body st (fun _ => None) = None.

Lemma star_loop_none (g : bool) (fuel : nat) (st : mstate) :
  star_loop body g (fun _ => None) fuel st = None.
Proof using body_ext body_none.
  revert st. induction fuel as [|f IH]; intros st; cbn [star_loop]; trivial.
  rewrite (body_ext st _ (fun _ => None)).
  - rewrite body_none. now destruct g.
  - intros st' _. now destruct (pos st <? pos st')%nat.
Qed.

Lemma star_loop_nil (g : bool) (k : mstate -> option mstate) (fuel : nat)
  (st : mstate) :
  rest st = [] -> star_loop body g k fuel st = k st.
Proof using body_ext body_none.
  intros E. destruct fuel as [|f]; cbn [star_loop]; trivial.
  rewrite (body_ext st _ (fun _ => None)).
  - rewrite body_none. destruct g; trivial. now destruct (k st).
  - intros st' R. apply reaches_length in R. rewrite E in R. simpl in R.
    destruct (Nat.ltb_spec (pos st) (pos st')); [lia|reflexivity].
Qed.

Lemma star_loop_fuel (g : bool) (k : mstate -> option mstate) (n : nat) :
  forall m st,
    length (rest st) <= n -> length (rest st) <= m ->
    star_loop body g k n st = star_loop body g k m st.
Proof using body_ext body_none.
  induction n as [|n IH]; intros m st Hn Hm.
  - rewrite !star_loop_nil; trivial; destruct (rest st); trivial; simpl in Hn; lia.
  - destruct m as [|m].
    + rewrite !star_loop_nil; trivial; destruct (rest st); trivial;
        simpl in Hm; lia.
    + cbn [star_loop].
      rewrite (body_ext st _
                 (fun st' => if (pos st <? pos st')%nat
                             then star_loop body g k m st' else None)).
      * reflexivity.
      * intros st' R. apply reaches_length in R.
        destruct (Nat.ltb_spec (pos st) (pos st')); trivial.
        apply IH; lia.
Qed.

End Continuations.

Lemma rmatch_ext (r : regex) :
  forall st k1 k2,
    (forall st', reaches st st' -> k1 st' = k2 st') ->
    rmatch r st k1 = rmatch r st k2.
Proof.
  induction r as [|p|a IHa b IHb|a IHa b IHb|g a IHa|i a IHa| |];
    intros st k1 k2 H; cbn [rmatch].
  - apply H, reaches_refl.
  - destruct (rest st) as [|c t] eqn:E; trivial.
    destruct (p c); trivial. apply H. exists [c]. simpl.
    split; [trivial|lia].
  - apply IHa. intros st' R. apply IHb. intros st'' R'.
    apply H. now apply (reaches_trans _ st').
  - now rewrite (IHa st k1 k2 H), (IHb st k1 k2 H).
  - now apply star_loop_ext.
  - apply IHa. intros st' R. apply H.
    destruct R as (pre & R & P). now exists pre.
  - destruct (pos st =? 0)%nat; trivial. apply H, reaches_refl.
  - destruct (rest st); trivial. apply H, reaches_refl.
Qed.

Lemma rmatch_none (r : regex) : forall st, rmatch r st (fun _ => None) = None.
Proof.
  induction r as [|p|a IHa b IHb|a IHa b IHb|g a IHa|i a IHa| |];
    intros st; cbn [rmatch]; trivial.
  - destruct (rest st) as [|c t]; trivial. now destruct (p c).
  - rewrite (rmatch_ext a st _ (fun _ => None)); trivial.
  - now rewrite IHa, IHb.
  - apply star_loop_none; trivial. apply rmatch_ext.
  - now destruct (pos st =? 0)%nat.
  - now destruct (rest st).
Qed.

(** The quantifier loop with any fuel that covers the input left. *)
Lemma star_fuel_enough (g : bool) (a : regex) (k : mstate -> option mstate)
  (st : mstate) (n : nat) :
  length (rest st) <= n ->
  star_loop (rmatch a) g k n st = rmatch (Star g a) st k.
Proof.
  intros H. cbn [rmatch].
  apply star_loop_fuel; trivial; [apply rmatch_ext|apply rmatch_none].
Qed.

(** A successful match ends in a state reached from the start, on which
    the continuation succeeded. *)
Lemma rmatch_reaches (r : regex) :
  forall st k x, rmatch r st k = Some x ->
                 exists st', reaches st st' /\ k st' = Some x.
Proof.
  induction r as [|p|a IHa b IHb|a IHa b IHb|g a IHa|i a IHa| |];
    intros st k x; cbn [rmatch].
  - intros H. exists st. split; [apply reaches_refl|trivial].
  - destruct (rest st) as [|c t] eqn:E; [discriminate|].
    destruct (p c); [|discriminate]. intros H. eexists. split; [|exact H].
    exists [c]. simpl. split; [trivial|lia].
  - intros H. apply IHa in H as (st1 & R1 & H).
    apply IHb in H as (st2 & R2 & H). exists st2.
    split; [now apply (reaches_trans _ st1)|trivial].
  - destruct (rmatch a st k) eqn:E.
    + intros [= <-]. now apply IHa.
    + apply IHb.
  - generalize (length (rest st)) as fuel. intros fuel. revert st x.
    induction fuel as [|f IHf]; intros st x; cbn [star_loop].
    + intros H. exists st. split; [apply reaches_refl|trivial].
    + assert (forall y,
                rmatch a st (fun st' => if (pos st <? pos st')%nat
                                        then star_loop (rmatch a) g k f st'
                                        else None) = Some y ->
                exists st', reaches st st' /\ k st' = Some y) as Hmore.
      { intros y H. apply IHa in H as (st1 & R1 & H).
        destruct (pos st <? pos st1)%nat; [|discriminate].
        apply IHf in H as (st2 & R2 & H). exists st2.
        split; [now apply (reaches_trans _ st1)|trivial]. }
      destruct g.
      * destruct (rmatch a st _) eqn:E.
        -- intros [= <-]. now apply Hmore.
        -- intros H. exists st. split; [apply reaches_refl|trivial].
      * destruct (k st) eqn:E.
        -- intros [= <-]. exists st. split; [apply reaches_refl|trivial].
        -- apply Hmore.
  - intros H. apply IHa in H as (st1 & R1 & H).
    eexists. split; [|exact H].
    destruct R1 as (pre & R & P). now exists pre.
  - destruct (pos st =? 0)%nat; [|discriminate].
    intros H. exists st. split; [apply reaches_refl|trivial].
  - destruct (rest st) eqn:E; [|discriminate].
    intros H. exists st. split; [apply reaches_refl|trivial].
Qed.

Lemma match_at_bounds (r : regex) (p : nat) (s : jsstring) (m : rmatched) :
  match_at r p s = Some m ->
  m_start m = p /\ p <= m_end m <= p + length s.
Proof.
  unfold match_at. destruct (rmatch r _ Some) as [st|] eqn:E; [|discriminate].
  intros [= <-]. simpl.
  apply rmatch_reaches in E as (st' & R & [= ->]).
  apply reaches_length in R. simpl in R. lia.
Qed.

Lemma search_from_bounds (r : regex) (s : jsstring) :
  forall p m, search_from r p s = Some m ->
              p <= m_start m /\ m_start m <= m_end m <= p + length s.
Proof.
  induction s as [|c t IH]; intros p m; cbn [search_from].
  - destruct (match_at r p []) eqn:E; [|discriminate].
    intros [= <-]. apply match_at_bounds in E. simpl in *. lia.
  - destruct (match_at r p (c :: t)) eqn:E.
    + intros [= <-]. apply match_at_bounds in E. simpl in *. lia.
    + intros H. apply IH in H. simpl. lia.
Qed.

(** The loop of the global match with any fuel above the length of the
    input left. *)
Lemma all_matches_fuel (r : regex) (n : nat) :
  forall m p s,
    length s < n -> length s < m ->
    all_matches n r p s = all_matches m r p s.
Proof.
  induction n as [|n IH]; intros m p s Hn Hm; [lia|].
  destruct m as [|m]; [lia|]. cbn [all_matches].
  destruct (search_from r p s) as [x|] eqn:E; trivial.
  apply search_from_bounds in E. f_equal.
  set (next := if (m_start x <? m_end x)%nat then m_end x else S (m_end x)).
  assert (p < next) as Hnext
    by (unfold next; destruct (Nat.ltb_spec (m_start x) (m_end x)); lia).
  destruct (next - p <=? length s)%nat eqn:L; trivial.
  apply Nat.leb_le in L. apply IH; rewrite length_skipn; lia.
Qed.

(** The loop of the split with any fuel above twice the length of the
    input left, plus one when a piece has been started. *)
Lemma split_go_fuel (r : regex) (n : nat) :
  forall m p q piece s,
    2 * length s + (if (p =? q)%nat then 0 else 1) < n ->
    2 * length s + (if (p =? q)%nat then 0 else 1) < m ->
    split_go n r p q piece s = split_go m r p q piece s.
Proof.
  induction n as [|n IH]; intros m p q piece s Hn Hm; [lia|].
  destruct m as [|m]; [lia|]. cbn [split_go].
  destruct s as [|c t]; trivial. simpl length in *.
  assert (forall b : bool, 0 <= (if b then 0 else 1) <= 1) as Hb
    by (intros []; lia).
  pose proof (Hb (p =? q)%nat) as H0. pose proof (Hb (p =? S q)%nat) as H1.
  destruct (match_at r q (c :: t)) as [x|] eqn:E.
  - apply match_at_bounds in E as [_ E]. simpl in E.
    destruct (Nat.eqb_spec (m_end x) p) as [Hp|Hp].
    + apply IH; lia.
    + f_equal.
      destruct (Nat.eq_dec (m_end x) q) as [Hq|Hq].
      * rewrite Hq, Nat.sub_diag. simpl skipn.
        destruct (Nat.eqb_spec p q); [lia|].
        apply IH; rewrite Nat.eqb_refl; simpl length; lia.
      * apply IH; rewrite Nat.eqb_refl, length_skipn; simpl length; lia.
  - apply IH; lia.
Qed.

(** ** Totality of the classification (C2) *)

Lemma unreserved_not_surrogate (c : N) :
  isUnreserved c = true -> isLowSurrogate c = false /\ isHighSurrogate c = false.
Proof.
  unfold isUnreserved, isLowSurrogate, isHighSurrogate, isDigit.
  intros H.
  assert (c < 0x80)%N as Hc.
  { set (l := u16 "-_.!~*'()") in H. vm_compute in l. subst l.
    simpl existsb in H.
    repeat (apply orb_prop in H as [H|H]);
      try (apply andb_prop in H as [_ H]; apply N.leb_le in H; lia);
      try (apply N.eqb_eq in H; lia).
    discriminate. }
  split; apply andb_false_intro1; apply N.leb_gt; lia.
Qed.

Lemma encodeURIComponent_wellFormed (s : jsstring) :
  wellFormed s = true -> encodeURIComponent s <> None.
Proof.
  remember (length s) as n eqn:Hn.
  revert s Hn. induction n as [n IH] using lt_wf_ind. intros s Hn.
  destruct s as [|c t]; [discriminate|]. simpl.
  destruct (isUnreserved c) eqn:U.
  - destruct (unreserved_not_surrogate c U) as [-> ->]. intros H.
    specialize (IH (length t) ltac:(simpl in Hn; lia) t eq_refl H).
    destruct (encodeURIComponent t); [discriminate|contradiction].
  - destruct (isLowSurrogate c); [discriminate|].
    destruct (isHighSurrogate c).
    + destruct t as [|lo t']; [discriminate|].
      destruct (isLowSurrogate lo); [|discriminate]. simpl. intros H.
      specialize (IH (length t') ltac:(simpl in Hn; lia) t' eq_refl H).
      destruct (encodeURIComponent t'); [discriminate|contradiction].
    + intros H.
      specialize (IH (length t) ltac:(simpl in Hn; lia) t eq_refl H).
      destruct (encodeURIComponent t); [discriminate|contradiction].
Qed.

Lemma make_places_wellFormed (fs : list PlaceFields) :
  Forall (fun t => wellFormed t = true) (List.map link_text fs) ->
  exists places, make_places fs = Some places.
Proof.
  induction fs as [|f more IH]; simpl; intros H.
  - now exists [].
  - inversion H as [|? ? Hf Hmore]; subst.
    destruct (IH Hmore) as [ps ->].
    unfold make_place.
    pose proof (encodeURIComponent_wellFormed _ Hf) as He.
    destruct (encodeURIComponent (link_text f)); [|contradiction].
    simpl. eauto.
Qed.

Lemma pin_has_lines (content : jsstring) :
  includes PIN content = true -> nonBlankLines content <> [].
Proof.
  intros H. apply includes_In in H.
  now apply (nonBlankLines_nonempty 0xD83D%N).
Qed.

Lemma place_search_has_lines (content : jsstring) :
  isPlaceSearch content = true -> nonBlankLines content <> [].
Proof.
  unfold isPlaceSearch. intros H. apply orb_prop in H as [H|H].
  - destruct (found_dispatch_letter _ H) as (c & Hin & [->| ->]).
    + now apply (nonBlankLines_nonempty 0x46%N).
    + now apply (nonBlankLines_nonempty 0x66%N).
  - apply includes_In in H. now apply (nonBlankLines_nonempty 0xD83D%N).
Qed.

Lemma formatDirectionsResponse_variant (content : jsstring) :
  is_variant (formatDirectionsResponse content) = true.
Proof.
  unfold formatDirectionsResponse.
  now destruct (hasError _ || falsy _).
Qed.

Lemma formatGeneralResponse_general (content : jsstring) :
  is_general (formatGeneralResponse content) = true.
Proof.
  unfold formatGeneralResponse.
  destruct (includes _ content); trivial.
  destruct (exec re_maps_url content); trivial.
  now destruct (split_re re_maps_url content) as [|? [|? ?]].
Qed.

Lemma general_is_variant (r : ClassifiedResult) :
  is_general r = true -> is_variant r = true.
Proof. now destruct r. Qed.

(** C2, counterexample.  The empty string yields the bare 'No response
    content' element, which is none of the variants, and a place entry
    whose name starts with U+1F600 makes the call raise URIError: the
    cleanup of the name removes the high surrogate D83D, a member of the
    class of the glyph pattern, and leaves the low one alone. *)
Lemma formatResponse_unclassified :
  formatResponse [] = Returned NoContent
  /\ ~ classified []
  /\ formatResponse sample_emoji_place = Threw URIError
  /\ ~ classified sample_emoji_place.
Proof.
  repeat split.
  - intros (r & H & Hv). vm_compute in H. injection H as <-. discriminate.
  - intros (r & H & _). vm_compute in H. discriminate.
Qed.

(** C2, amended.  The empty string yields the 'No response content'
    element.  Every other input, provided the link text of each of its
    place entries is well formed when the place-search branch is taken,
    yields exactly one variant, a GeneralResult when no rule matches. *)
Theorem formatResponse_total (content : jsstring) :
  Forall (fun t => wellFormed t = true) (place_link_texts content) ->
  exists r,
    formatResponse content = Returned r
    /\ (content = [] -> r = NoContent)
    /\ (content <> [] ->
        is_variant r = true
        /\ (isDirections content = false -> isLocation content = false ->
            isPlaceSearch content = false -> is_general r = true)).
Proof.
  unfold formatResponse, place_link_texts.
  destruct content as [|c0 t]; [simpl; intros _; exists NoContent; tauto|].
  set (content := c0 :: t). change (falsy content) with false. simpl orb.
  destruct (isDirections content) eqn:D.
  { intros _. eexists. split; [reflexivity|]. split; [discriminate|].
    intros _. split; [apply formatDirectionsResponse_variant|discriminate]. }
  destruct (isLocation content) eqn:L.
  { intros _. unfold formatLocationResponse.
    apply andb_prop in L as [L _]. apply pin_has_lines in L.
    destruct (nonBlankLines content) as [|l0 ls]; [contradiction|].
    eexists. split; [reflexivity|]. split; [discriminate|].
    intros _. split; [reflexivity|discriminate]. }
  destruct (isPlaceSearch content) eqn:S; simpl.
  - pose proof (place_search_has_lines _ S) as Hl.
    unfold formatPlaceSearchResponse.
    destruct (nonBlankLines content) as [|headerLine entries]; [contradiction|].
    destruct (exec re_found headerLine) as [foundMatch|].
    + intros H. destruct (make_places_wellFormed _ H) as [places ->].
      eexists. split; [reflexivity|]. split; [discriminate|].
      intros _. split; [reflexivity|discriminate].
    + intros _. eexists. split; [reflexivity|]. split; [discriminate|].
      intros _. split; [|discriminate].
      apply general_is_variant, formatGeneralResponse_general.
  - intros _. eexists. split; [reflexivity|]. split; [discriminate|].
    intros _. split; [|intros _ _ _]; [apply general_is_variant|];
      apply formatGeneralResponse_general.
Qed.

Lemma Forall_wellFormed (l : list jsstring) :
  forallb wellFormed l = true -> Forall (fun t => wellFormed t = true) l.
Proof.
  intros H. apply List.Forall_forall. intros t Ht.
  rewrite forallb_forall in H. now apply H.
Qed.

Lemma formatResponse_total_witness :
  exists r,
    formatResponse (sample_places ++ [0x0A%N] ++ u16 "3. 📍 Cafe C (2 mi)")
    = Returned r.
Proof.
  destruct (formatResponse_total
              (sample_places ++ [0x0A%N] ++ u16 "3. 📍 Cafe C (2 mi)"))
    as (r & H & _).
  - apply Forall_wellFormed. vm_compute. reflexivity.
  - exists r. exact H.
Defined.

(** ** Directions that report an error (C3) *)

Lemma isDirections_not_empty (content : jsstring) :
  isDirections content = true -> falsy content = false.
Proof. now destruct content. Qed.

Lemma scan_hasError (lines : list jsstring) (st : DirState) :
  hasError (fold_left directions_line lines st)
  = hasError st
    || existsb (fun l => kind_eqb (line_kind (trim l)) ErrorLine) lines.
Proof.
  revert st. induction lines as [|l more IH]; intros st; simpl.
  - now rewrite orb_false_r.
  - rewrite IH. unfold directions_line.
    destruct (line_kind (trim l)); simpl; trivial.
    + now destruct (exec re_https (trim l)).
    + now rewrite orb_true_r.
Qed.

Lemma scan_destination (lines : list jsstring) (st : DirState) :
  existsb (fun l => kind_eqb (line_kind (trim l)) DestinationLine) lines = false ->
  destination (fold_left directions_line lines st) = destination st.
Proof.
  revert st. induction lines as [|l more IH]; intros st; simpl; trivial.
  intros H. apply orb_false_elim in H as [Hl Hmore].
  rewrite (IH _ Hmore). unfold directions_line.
  destruct (line_kind (trim l)); simpl; trivial; try discriminate.
  now destruct (exec re_https (trim l)).
Qed.

(** C3, counterexample.  The directions branch is taken and a line holds
    the cross mark, but the line starts with a step number, so it is kept
    as a step and the result is a DirectionsResult. *)
Lemma directions_marker_on_step :
  isDirections sample_blocked_step = true
  /\ existsb (includes (u16 "❌")) (nonBlankLines sample_blocked_step) = true
  /\ formatResponse sample_blocked_step
     = Returned (DirectionsResult (u16 "Home") [] []
                   [mkStep (Parsed (u16 "1")) (u16 "❌ Road closed ahead")] []).
Proof. repeat split; vm_compute; reflexivity. Qed.

(** C3, amended.  When the directions branch is taken and either some
    line holds the cross mark and is none of a destination, distance,
    duration, maps-link or numbered-step line, or no line is a destination
    line, the result is the error card carrying the input unchanged. *)
Theorem directions_error_raw (content : jsstring) :
  isDirections content = true ->
  has_line_of_kind ErrorLine content = true
  \/ has_line_of_kind DestinationLine content = false ->
  formatResponse content = Returned (ErrorResult ReportedError content).
Proof.
  intros D H. unfold formatResponse.
  rewrite (isDirections_not_empty _ D), D.
  unfold formatDirectionsResponse, directions_scan.
  unfold has_line_of_kind in H. destruct H as [H|H].
  - rewrite scan_hasError, H. reflexivity.
  - rewrite (scan_destination _ _ H). simpl. now rewrite orb_true_r.
Qed.

Lemma directions_error_raw_witness :
  formatResponse sample_route_error
  = Returned (ErrorResult ReportedError sample_route_error).
Proof.
  apply directions_error_raw.
  - vm_compute. reflexivity.
  - left. vm_compute. reflexivity.
Defined.


(** ** The close handler in any state *)

(** In any state, the close handler sets a timer exactly when the
    attempts counted are below the maximum, and the delay is 2000 ms times
    the new count. *)
Lemma onclose_delay (userId : jsstring) (w : World) :
  scheduled (onclose userId w)
  = scheduled w
    ++ (if (reconnectAttempts (api w) <? maxReconnectAttempts (api w))%nat
        then [(2000 * Z.of_nat (S (reconnectAttempts (api w))))%Z] else []).
Proof.
  unfold onclose.
  destruct (reconnectAttempts (api w) <? maxReconnectAttempts (api w))%nat;
    simpl; trivial.
  now rewrite app_nil_r.
Qed.

(** The maximum set by the constructor is never changed. *)
Lemma step_max (w : World) (e : Event) :
  maxReconnectAttempts (api (step w e)) = maxReconnectAttempts (api w).
Proof.
  destruct e as [u| |d|i|i|k]; simpl; trivial.
  - unfold disconnect. now destruct (socket (api w)).
  - unfold send. now destruct (isConnected (api w)), (socket (api w)).
  - destruct (sockets w !! i) as [[u []]|]; trivial.
    unfold onopen, send. simpl. now destruct (socket (api w)).
  - destruct (sockets w !! i) as [[u st]|]; trivial.
    destruct st; trivial; unfold onclose; simpl;
      now destruct (reconnectAttempts (api w) <? maxReconnectAttempts (api w))%nat.
  - now destruct (timers w !! k).
Qed.

Lemma run_max (es : list Event) :
  maxReconnectAttempts (api (run initial es)) = 5.
Proof.
  unfold run. change 5 with (maxReconnectAttempts (api initial)).
  generalize initial. induction es as [|e es IH]; intros w; simpl; trivial.
  now rewrite IH, step_max.
Qed.

Lemma set_status_same (i : nat) (st : SocketStatus) (l : list SocketInfo)
  (info : SocketInfo) :
  l !! i = Some info ->
  set_status i st l !! i = Some (mkSocket (sock_user info) st).
Proof.
  intros H. unfold set_status. rewrite H.
  apply list_lookup_insert_eq. now apply lookup_lt_Some in H.
Qed.

(** In any state whose current socket is not closed and whose attempts
    are not used up, disconnect() followed by the close event of that
    socket sets a reconnect timer. *)
Lemma disconnect_close_schedules (w : World) (s : nat) (info : SocketInfo) :
  socket (api w) = Some s ->
  sockets w !! s = Some info ->
  sock_status info <> SockClosed ->
  reconnectAttempts (api w) < maxReconnectAttempts (api w) ->
  scheduled (run w [CallDisconnect; SocketCloses s])
  = scheduled w ++ [(2000 * Z.of_nat (S (reconnectAttempts (api w))))%Z].
Proof.
  intros Hs Hl Hst Hlt. unfold run. cbn [fold_left step].
  unfold disconnect. rewrite Hs. cbn [sockets].
  assert (exists st', close_socket s (sockets w) !! s
                      = Some (mkSocket (sock_user info) st')
                      /\ st' <> SockClosed) as (st' & -> & Hst').
  { unfold close_socket. rewrite Hl. exists SockClosing.
    split; [|discriminate].
    destruct info as [u st]. cbn [sock_status sock_user] in *.
    destruct st; try contradiction; trivial;
      now rewrite (set_status_same _ _ _ _ Hl). }
  assert (forall x, scheduled (onclose (sock_user info) x)
                    = scheduled x
                      ++ (if (reconnectAttempts (api x)
                              <? maxReconnectAttempts (api x))%nat
                          then [(2000 * Z.of_nat (S (reconnectAttempts (api x))))%Z]
                          else [])) as Hclose
    by (intros x; apply onclose_delay).
  apply Nat.ltb_lt in Hlt.
  destruct st'; try contradiction; rewrite Hclose; cbn -[Nat.ltb];
    now rewrite Hlt.
Qed.

(** ** Reconnect delays (C5) *)

Lemma connected_one_live (userId : jsstring) :
  one_live_socket 0 (connected userId).
Proof.
  exists 0, (mkSocket userId SockOpen). repeat split; try discriminate.
  intros [|i] other H Hi; [contradiction|discriminate].
Qed.

Lemma set_status_lookup (i j : nat) (st : SocketStatus) (l : list SocketInfo)
  (info : SocketInfo) :
  set_status i st l !! j = Some info ->
  (j = i /\ sock_status info = st) \/ (j <> i /\ l !! j = Some info).
Proof.
  unfold set_status. destruct (l !! i) as [old|] eqn:E.
  - destruct (decide (j = i)) as [->|Hne].
    + rewrite list_lookup_insert_eq by (now apply lookup_lt_Some in E).
      intros [= <-]. now left.
    + rewrite list_lookup_insert_ne by congruence. now right.
  - intros H. right. split; [|trivial]. intros ->. congruence.
Qed.

Lemma drop_round_live (n : nat) (w : World) :
  one_live_socket n w -> n < 5 ->
  one_live_socket (S n) (drop_round w)
  /\ scheduled (drop_round w) = scheduled w ++ [(2000 * Z.of_nat (S n))%Z].
Proof.
  intros (s & [u st] & Hs & Hl & Hst & Hothers & Ht & Hn & Hmax) Hlt.
  unfold drop_round. rewrite Hs.
  assert (step w (SocketCloses s)
          = onclose u (with_sockets (set_status s SockClosed (sockets w)) w))
    as ->.
  { simpl. rewrite Hl. now destruct st. }
  unfold onclose. simpl api. simpl reconnectAttempts. simpl maxReconnectAttempts.
  rewrite Hn, Hmax. destruct (Nat.ltb_spec n 5) as [_|]; [|lia].
  simpl. rewrite Ht. simpl. split; [|reflexivity].
  set (l := set_status s SockClosed (sockets w)).
  exists (length l), (mkSocket u SockConnecting).
  repeat split; simpl; trivial; try discriminate.
  - now rewrite list_lookup_middle.
  - intros i other H Hi.
    apply lookup_app_Some in H as [H|[Hge H]].
    + apply set_status_lookup in H as [[_ H]|[Hne H]]; trivial.
      now apply (Hothers i).
    + destruct (i - length l) as [|k] eqn:E; [lia|discriminate].
Qed.

Lemma drop_round_last (w : World) :
  one_live_socket 5 w ->
  exhausted (drop_round w) /\ scheduled (drop_round w) = scheduled w.
Proof.
  intros (s & [u st] & Hs & Hl & Hst & Hothers & Ht & Hn & Hmax).
  unfold drop_round. rewrite Hs.
  assert (step w (SocketCloses s)
          = onclose u (with_sockets (set_status s SockClosed (sockets w)) w))
    as ->.
  { simpl. rewrite Hl. now destruct st. }
  unfold onclose. simpl api. simpl reconnectAttempts. simpl maxReconnectAttempts.
  rewrite Hn, Hmax. simpl. rewrite Ht. simpl.
  repeat split; trivial.
  intros i info H.
  apply set_status_lookup in H as [[_ H]|[Hne H]]; trivial.
  now apply (Hothers i).
Qed.

Lemma step_exhausted (w : World) (e : Event) :
  exhausted w -> is_connect_call e = false ->
  exhausted (step w e) /\ scheduled (step w e) = scheduled w.
Proof.
  intros (Hall & Ht & Hc & Hn & Hmax) He.
  destruct e as [u| |d|i|i|k]; simpl in *; try discriminate.
  - unfold disconnect. destruct (socket (api w)) as [s|] eqn:Hs.
    + unfold close_socket.
      destruct (sockets w !! s) as [info|] eqn:E; simpl.
      * rewrite (Hall _ _ E). now repeat split.
      * now repeat split.
    + now repeat split.
  - unfold send. rewrite Hc. now repeat split.
  - destruct (sockets w !! i) as [[u st]|] eqn:E; [|now repeat split].
    pose proof (Hall _ _ E) as H. simpl in H. subst st. now repeat split.
  - destruct (sockets w !! i) as [[u st]|] eqn:E; [|now repeat split].
    pose proof (Hall _ _ E) as H. simpl in H. subst st. now repeat split.
  - rewrite Ht. now repeat split.
Qed.

Lemma drop_round_exhausted (w : World) : exhausted w -> drop_round w = w.
Proof.
  intros (Hall & Ht & _). unfold drop_round.
  destruct (socket (api w)) as [s|]; trivial. simpl.
  destruct (sockets w !! s) as [[u st]|] eqn:E.
  - pose proof (Hall _ _ E) as H. simpl in H. subst st. now rewrite Ht.
  - now rewrite Ht.
Qed.

Lemma rounds_live (w : World) (n : nat) :
  one_live_socket 0 w -> n <= 5 ->
  one_live_socket n (Nat.iter n drop_round w)
  /\ scheduled (Nat.iter n drop_round w) = scheduled w ++ backoff_delays n.
Proof.
  intros Hw. induction n as [|n IH]; intros Hn.
  - split; trivial. unfold backoff_delays. simpl. now rewrite app_nil_r.
  - destruct IH as [Hlive Hsched]; [lia|]. simpl Nat.iter.
    destruct (drop_round_live n _ Hlive) as [Hlive' Hsched']; [lia|].
    split; trivial. rewrite Hsched', Hsched. unfold backoff_delays.
    rewrite seq_S, map_app, app_assoc. reflexivity.
Qed.

Lemma rounds_exhausted (w : World) (n : nat) :
  one_live_socket 0 w -> 6 <= n ->
  exhausted (Nat.iter n drop_round w)
  /\ scheduled (Nat.iter n drop_round w) = scheduled w ++ backoff_delays 5.
Proof.
  intros Hw Hn.
  replace n with ((n - 6) + 6) by lia. generalize (n - 6) as m. clear n Hn.
  induction m as [|m [IHe IHs]].
  - destruct (rounds_live w 5 Hw) as [Hlive Hsched]; [lia|].
    change (Nat.iter (0 + 6) drop_round w)
      with (drop_round (Nat.iter 5 drop_round w)).
    destruct (drop_round_last _ Hlive) as [He Hs]. split; trivial.
    now rewrite Hs.
  - change (Nat.iter (S m + 6) drop_round w)
      with (drop_round (Nat.iter (m + 6) drop_round w)).
    rewrite (drop_round_exhausted _ IHe). now split.
Qed.

Lemma run_exhausted (es : list Event) (w : World) :
  exhausted w -> forallb (fun e => negb (is_connect_call e)) es = true ->
  exhausted (run w es) /\ scheduled (run w es) = scheduled w.
Proof.
  unfold run. revert w. induction es as [|e es IH]; intros w Hw Hes; simpl.
  - now split.
  - simpl in Hes. apply andb_prop in Hes as [He Hes].
    apply negb_true_iff in He.
    destruct (step_exhausted w e Hw He) as [Hw' Hs'].
    destruct (IH _ Hw' Hes) as [Hw'' Hs'']. split; trivial.
    now rewrite Hs''.
Qed.

(** C5.  From a client whose one live socket is the current one, with no
    attempt counted: after [n] consecutive drops, each followed by the
    timer it sets, the delays set so far are 2000, 4000, 6000, 8000 and
    10000 ms, the first [min n 5] of them; once the fifth attempt has
    dropped as well, no sequence of calls and events without a call of
    connect sets a further timer. *)
Theorem reconnect_backoff (w : World) (n : nat) :
  one_live_socket 0 w ->
  scheduled (Nat.iter n drop_round w)
  = scheduled w ++ backoff_delays (Nat.min n 5)
  /\ backoff_delays 5 = [2000; 4000; 6000; 8000; 10000]%Z
  /\ forall es,
       forallb (fun e => negb (is_connect_call e)) es = true ->
       scheduled (run (Nat.iter (6 + n) drop_round w) es)
       = scheduled w ++ backoff_delays 5.
Proof.
  intros Hw. split; [|split; [reflexivity|]].
  - destruct (Nat.le_gt_cases n 5) as [Hn|Hn].
    + rewrite Nat.min_l by trivial. now apply rounds_live.
    + rewrite Nat.min_r by lia. now apply rounds_exhausted.
  - intros es Hes.
    destruct (rounds_exhausted w (6 + n) Hw) as [He Hs]; [lia|].
    destruct (run_exhausted es _ He Hes) as [_ Hr].
    now rewrite Hr.
Qed.

Lemma reconnect_backoff_witness :
  scheduled (Nat.iter 7 drop_round (connected (u16 "driver")))
  = [2000; 4000; 6000; 8000; 10000]%Z.
Proof.
  destruct (reconnect_backoff (connected (u16 "driver")) 7
              (connected_one_live (u16 "driver"))) as (H & _ & _).
  exact H.
Defined.

(** ** Order of the input of the session reconstruction (C6) *)

Lemma insert_sorted_perm (x : Interaction) (l : list Interaction) :
  Permutation (insert_sorted x l) (x :: l).
Proof.
  induction l as [|y t IH]; simpl; trivial.
  destruct (timestamp x <=? timestamp y)%Z; trivial.
  rewrite IH. apply perm_swap.
Qed.

Lemma sort_by_timestamp_perm (l : list Interaction) :
  Permutation (sort_by_timestamp l) l.
Proof.
  induction l as [|x t IH]; simpl; trivial.
  rewrite insert_sorted_perm. now apply perm_skip.
Qed.

Lemma insert_sorted_sorted (x : Interaction) (l : list Interaction) :
  StronglySorted by_timestamp l -> StronglySorted by_timestamp (insert_sorted x l).
Proof.
  induction l as [|y t IH]; simpl; intros Hs.
  - repeat constructor.
  - apply StronglySorted_inv in Hs as [Ht Hy].
    destruct (Z.leb_spec (timestamp x) (timestamp y)) as [Hxy|Hxy].
    + constructor; [now constructor|].
      constructor; trivial.
      eapply List.Forall_impl; [|exact Hy]. unfold by_timestamp. intros; lia.
    + constructor; [now apply IH|].
      apply List.Forall_forall. intros z Hz.
      apply (Permutation_in _ (insert_sorted_perm x t)) in Hz as [<-|Hz].
      * unfold by_timestamp. lia.
      * rewrite List.Forall_forall in Hy. now apply Hy.
Qed.

Lemma sort_by_timestamp_sorted (l : list Interaction) :
  StronglySorted by_timestamp (sort_by_timestamp l).
Proof.
  induction l as [|x t IH]; simpl; [constructor|].
  now apply insert_sorted_sorted.
Qed.

(** A list ordered by distinct timestamps is determined by its elements. *)
Lemma sorted_unique (l1 l2 : list Interaction) :
  StronglySorted by_timestamp l1 -> StronglySorted by_timestamp l2 ->
  Permutation l1 l2 -> List.NoDup (List.map timestamp l1) -> l1 = l2.
Proof.
  revert l2. induction l1 as [|a t1 IH]; intros l2 S1 S2 P D.
  - apply Permutation_nil in P. now subst.
  - destruct l2 as [|b t2].
    { symmetry in P. now apply Permutation_nil in P. }
    apply StronglySorted_inv in S1 as [S1 F1].
    apply StronglySorted_inv in S2 as [S2 F2].
    apply List.NoDup_cons_iff in D as [Da D].
    assert (a = b) as ->.
    { assert (In a (b :: t2)) as [Hab|Hab]
        by (apply (Permutation_in _ P); now left); [now subst|].
      assert (In b (a :: t1)) as [Hba|Hba]
        by (apply (Permutation_in _ (Permutation_sym P)); now left); trivial.
      rewrite List.Forall_forall in F1, F2.
      pose proof (F1 _ Hba) as H1. pose proof (F2 _ Hab) as H2.
      unfold by_timestamp in *.
      exfalso. apply Da.
      replace (timestamp a) with (timestamp b) by lia.
      now apply in_map. }
    f_equal. apply IH; trivial. now apply Permutation_cons_inv in P.
Qed.

Lemma sort_by_timestamp_order_free (l l' : list Interaction) :
  Permutation l l' -> List.NoDup (List.map timestamp l) ->
  sort_by_timestamp l = sort_by_timestamp l'.
Proof.
  intros P D. apply sorted_unique; try apply sort_by_timestamp_sorted.
  - now rewrite !sort_by_timestamp_perm.
  - eapply Permutation_NoDup; [|exact D].
    apply Permutation_map. symmetry. apply sort_by_timestamp_perm.
Qed.

(** C6, counterexample.  Two interactions with the same timestamp come
    out in the order in which they were passed, so the two orders of the
    same two records give the messages of the session in different
    orders. *)
Lemma groupInteractions_order_matters :
  Permutation [asked_first; asked_second] [asked_second; asked_first]
  /\ contents (groupInteractionsBySessions utc env0 [asked_first; asked_second])
     = [[u16 "lock the doors"; u16 "play music"]]
  /\ contents (groupInteractionsBySessions utc env0 [asked_second; asked_first])
     = [[u16 "play music"; u16 "lock the doors"]]
  /\ groupInteractionsBySessions utc env0 [asked_first; asked_second]
     <> groupInteractionsBySessions utc env0 [asked_second; asked_first].
Proof.
  split; [apply perm_swap|]. split; [vm_compute; reflexivity|].
  split; [vm_compute; reflexivity|].
  intros H. apply (f_equal contents) in H. vm_compute in H. discriminate.
Qed.

(** The sort keeps the input order among equal timestamps: the records
    that carry one timestamp stand in the sorted copy as they stood in the
    input. *)
Lemma insert_sorted_stable (t : Z) (x : Interaction) (l : list Interaction) :
  List.filter (fun y => (timestamp y =? t)%Z) (insert_sorted x l)
  = List.filter (fun y => (timestamp y =? t)%Z) (x :: l).
Proof.
  induction l as [|y l IH]; trivial.
  cbn [insert_sorted].
  destruct (Z.leb_spec (timestamp x) (timestamp y)) as [Hxy|Hxy]; trivial.
  cbn [List.filter] in *. rewrite IH.
  destruct (Z.eqb_spec (timestamp x) t), (Z.eqb_spec (timestamp y) t);
    trivial; lia.
Qed.

Lemma sort_by_timestamp_stable (t : Z) (l : list Interaction) :
  List.filter (fun y => (timestamp y =? t)%Z) (sort_by_timestamp l)
  = List.filter (fun y => (timestamp y =? t)%Z) l.
Proof.
  induction l as [|x l IH]; trivial.
  cbn [sort_by_timestamp fold_right]. rewrite insert_sorted_stable.
  cbn [List.filter]. fold (sort_by_timestamp l). now rewrite IH.
Qed.

(** ** The argument of the session reconstruction (C9) *)

Lemma fresh_not_argument (h : heap) (a : nat) (l : list Interaction) :
  h !! a = Some l -> fresh (dom h) <> a.
Proof.
  intros H E. apply (is_fresh (dom h)). rewrite E.
  now apply elem_of_dom_2 in H.
Qed.

(** The function on the store computes what the function on values
    computes from the array behind the reference. *)
Lemma groupInteractions_ref_value (tzOffset : Z -> Z) (env : Env) (h : heap)
  (a : nat) :
  snd (groupInteractionsBySessions_ref tzOffset env h a)
  = groupInteractionsBySessions tzOffset env (default [] (h !! a)).
Proof.
  unfold groupInteractionsBySessions_ref, groupInteractionsBySessions.
  destruct (h !! a) as [[|x l]|] eqn:E; trivial.
  unfold spread, sort_in_place. rewrite E. cbn [fst snd].
  now rewrite fin_maps.lookup_alter_eq, fin_maps.lookup_insert_eq.
Qed.

(** C9.  After the call the array behind the argument holds the same
    elements in the same order: the sort works on the array allocated by
    the spread. *)
Theorem groupInteractions_keeps_argument (tzOffset : Z -> Z) (env : Env)
  (h : heap) (a : nat) :
  fst (groupInteractionsBySessions_ref tzOffset env h a) !! a = h !! a.
Proof.
  unfold groupInteractionsBySessions_ref.
  destruct (h !! a) as [[|x l]|] eqn:E; trivial.
  unfold spread, sort_in_place. cbn [fst].
  pose proof (fresh_not_argument h a _ E) as Hf.
  now rewrite fin_maps.lookup_alter_ne, fin_maps.lookup_insert_ne.
Qed.

(** More generally, no array of the store is changed; the call only adds
    the array of the copy. *)
Lemma groupInteractions_frame (tzOffset : Z -> Z) (env : Env) (h : heap)
  (a b : nat) (l : list Interaction) :
  h !! b = Some l ->
  fst (groupInteractionsBySessions_ref tzOffset env h a) !! b = Some l.
Proof.
  intros Hb. unfold groupInteractionsBySessions_ref.
  destruct (h !! a) as [[|x t]|] eqn:E; trivial.
  unfold spread, sort_in_place. cbn [fst].
  pose proof (fresh_not_argument h b _ Hb) as Hf.
  now rewrite fin_maps.lookup_alter_ne, fin_maps.lookup_insert_ne.
Qed.

(** Sorting the argument itself would have reordered it. *)
Example sort_in_place_reorders :
  sort_in_place {[ 0 := [asked_later; asked_first] ]} 0 !! 0
  = Some [asked_first; asked_later].
Proof. reflexivity. Qed.

(** ** The air-conditioning confirmation (C8) *)

Lemma blank_guard (text : jsstring) :
  falsy text || (length (trim text) =? 0)%nat = true <-> trim text = [].
Proof.
  split.
  - intros H. apply orb_prop in H as [H|H].
    + now destruct text.
    + apply Nat.eqb_eq in H. now destruct (trim text).
  - intros ->. apply orb_true_r.
Qed.

Lemma whitespace_not_upper (c : N) :
  isWhiteSpace c = true -> ((0x41 <=? c) && (c <=? 0x5A))%N = false.
Proof.
  intros H. apply andb_false_iff.
  destruct (N.leb_spec 0x41 c) as [H1|]; [right|now left].
  apply N.leb_gt.
  unfold isWhiteSpace, isLineTerminator in H.
  repeat (apply orb_prop in H as [H|H]);
    try (apply N.eqb_eq in H; lia).
  apply andb_prop in H as [H _]. apply N.leb_le in H. lia.
Qed.

Lemma asciiLower_blank (s : jsstring) : trim s = [] -> asciiLower s = s.
Proof.
  intros H.
  assert (forall c, In c s -> isWhiteSpace c = true) as Hall
    by (intros c; now apply trim_nil_blank).
  clear H. induction s as [|c t IH]; simpl; trivial.
  rewrite (whitespace_not_upper c) by (apply Hall; now left).
  f_equal. apply IH. intros d Hd. apply Hall. now right.
Qed.

(** C8, counterexample.  The text holds both phrases, but it also holds
    temperature and set, and that rule comes first. *)
Lemma speech_ac_preempted :
  includes (u16 "air conditioning") (asciiLower sample_ac_temperature) = true
  /\ includes (u16 "turned on") (asciiLower sample_ac_temperature) = true
  /\ extractKeyInfoForSpeech asciiLower sample_ac_temperature
     = u16 "Temperature adjusted."
  /\ extractKeyInfoForSpeech asciiLower sample_ac_temperature
     <> u16 "Air conditioning turned on.".
Proof.
  repeat split; try (vm_compute; reflexivity).
  vm_compute. discriminate.
Qed.

(** C8, amended.  When the lowered text holds both phrases and none of the
    earlier rules (location, place search, navigation, temperature)
    returns, the summary is exactly the fixed confirmation.  The lowering
    is any function that leaves strings of white space unchanged, as
    toLowerCase does. *)
Theorem speech_ac_turned_on (toLowerCase : jsstring -> jsstring)
  (text : jsstring) :
  (forall s, trim s = [] -> toLowerCase s = s) ->
  includes (u16 "air conditioning") (toLowerCase text) = true ->
  includes (u16 "turned on") (toLowerCase text) = true ->
  speech_before_ac toLowerCase text = None ->
  extractKeyInfoForSpeech toLowerCase text = u16 "Air conditioning turned on.".
Proof.
  intros Hlower Hac Hon Hbefore. unfold extractKeyInfoForSpeech.
  destruct (falsy text || (length (trim text) =? 0)%nat) eqn:G.
  - apply blank_guard in G. rewrite (Hlower _ G) in Hac.
    apply includes_In in Hac.
    now pose proof (trim_nil_blank _ _ G Hac).
  - unfold speech_rules. cbn [first_of]. rewrite Hbefore.
    unfold speech_ac. now rewrite Hac, Hon.
Qed.

Lemma speech_ac_turned_on_witness :
  extractKeyInfoForSpeech asciiLower sample_ac = u16 "Air conditioning turned on.".
Proof.
  apply speech_ac_turned_on.
  - exact asciiLower_blank.
  - vm_compute. reflexivity.
  - vm_compute. reflexivity.
  - vm_compute. reflexivity.
Defined.

(** ** The empty summary and the fallback (C10) *)

Lemma rmatch_class (p : N -> bool) (st : mstate)
  (k : mstate -> option mstate) :
  rmatch (Class p) st k
  = match rest st with
    | c :: t => if p c then k (MState (S (pos st)) t (caps st)) else None
    | [] => None
    end.
Proof. reflexivity. Qed.

Lemma rmatch_plus (r : regex) (st : mstate) (k : mstate -> option mstate) :
  rmatch (plus r) st k
  = rmatch r st (fun st' => star_loop (rmatch r) true k (length (rest st')) st').
Proof. reflexivity. Qed.

Lemma star_class_some (p : N -> bool) (fuel : nat) (st : mstate) :
  exists st',
    star_loop (rmatch (Class p)) true Some fuel st = Some st'
    /\ pos st <= pos st'.
Proof.
  revert st. induction fuel as [|f IH]; intros st.
  - now exists st.
  - cbn [star_loop]. rewrite rmatch_class.
    destruct (rest st) as [|c t]; [now exists st|].
    destruct (p c); [|now exists st].
    cbn [pos]. rewrite (proj2 (Nat.ltb_lt _ _)) by lia.
    destruct (IH (MState (S (pos st)) t (caps st))) as (st' & -> & Hle).
    exists st'. split; trivial. simpl in Hle. lia.
Qed.

Lemma plus_class_none (p : N -> bool) (q : nat) (c : N) (t : jsstring) :
  match_at (plus (Class p)) q (c :: t) = None -> p c = false.
Proof.
  unfold match_at. rewrite rmatch_plus, rmatch_class. cbn [rest pos caps].
  destruct (p c); trivial.
  destruct (star_class_some p (length t) (MState (S q) t [])) as (st' & -> & _).
  discriminate.
Qed.

Lemma plus_class_some (p : N -> bool) (q : nat) (s : jsstring) (m : rmatched) :
  match_at (plus (Class p)) q s = Some m -> q < m_end m.
Proof.
  unfold match_at. rewrite rmatch_plus, rmatch_class. cbn [rest pos caps].
  destruct s as [|c t]; [discriminate|].
  destruct (p c); [|discriminate].
  destruct (star_class_some p (length t) (MState (S q) t [])) as (st' & -> & H).
  intros [= <-]. simpl in *. lia.
Qed.

(** The pieces of a split at runs of a class hold no member of the
    class. *)
Lemma split_go_pieces (p : N -> bool) (fuel : nat) :
  forall (a q : nat) (piece s : jsstring),
    length s < fuel -> a <= q ->
    Forall (fun c => p c = false) piece ->
    forall x, In x (split_go fuel (plus (Class p)) a q piece s) ->
              Forall (fun c => p c = false) x.
Proof.
  induction fuel as [|f IH]; intros a q piece s Hlen Haq Hpiece x; [lia|].
  cbn [split_go]. destruct s as [|c t].
  - intros [<-|[]]. now apply List.Forall_rev.
  - simpl in Hlen.
    destruct (match_at (plus (Class p)) q (c :: t)) as [m|] eqn:E.
    + pose proof (plus_class_some _ _ _ _ E) as Hm.
      destruct (Nat.eqb_spec (m_end m) a) as [|_]; [lia|].
      intros [<-|Hx]; [now apply List.Forall_rev|].
      revert Hx. apply IH; trivial.
      rewrite length_skipn. simpl. lia.
    + apply plus_class_none in E.
      apply IH; [lia|lia|]. now constructor.
Qed.

Lemma split_re_pieces (p : N -> bool) (s x : jsstring) :
  In x (split_re (plus (Class p)) s) -> Forall (fun c => p c = false) x.
Proof.
  unfold split_re. destruct s as [|c t].
  - destruct (match_at _ 0 []); [intros []|]. intros [<-|[]]. constructor.
  - apply split_go_pieces; [simpl; lia|lia|constructor].
Qed.

Lemma sentence_no_dot (text s : jsstring) :
  In s (sentences_of text) -> ~ In 0x2E%N s.
Proof.
  unfold sentences_of. intros H. apply filter_In in H as [H _].
  apply split_re_pieces in H. rewrite List.Forall_forall in H.
  intros Hdot. now apply H in Hdot.
Qed.

Lemma stripEmoji_in (x : N) (s : jsstring) : In x (stripEmoji s) -> In x s.
Proof.
  remember (length s) as n eqn:Hn. revert s Hn.
  induction n as [n IH] using lt_wf_ind. intros s Hn.
  destruct s as [|c [|lo t]]; simpl; trivial.
  - destruct (isEmojiPoint c); [intros []|trivial].
  - simpl in Hn.
    assert (In x (stripEmoji t) -> In x t) as IHt
      by (apply (IH (length t)); [lia|reflexivity]).
    assert (In x (stripEmoji (lo :: t)) -> In x (lo :: t)) as IHlo
      by (apply (IH (length (lo :: t))); [simpl; lia|reflexivity]).
    destruct (isHighSurrogate c && isLowSurrogate lo).
    + destruct (isEmojiPoint (pairPoint c lo)).
      * intros H. right. right. now apply IHt.
      * intros [H|[H|H]]; auto.
    + destruct (isEmojiPoint c).
      * intros H. right. apply IHlo. exact H.
      * intros [H|H]; [now left|right; apply IHlo; exact H].
Qed.

(** A list is cut in one way only at the first occurrence of an
    element. *)
Lemma app_first_occurrence (x : N) (l1 l2 l1' l2' : jsstring) :
  l1 ++ x :: l2 = l1' ++ x :: l2' -> ~ In x l1 -> ~ In x l1' ->
  l1 = l1' /\ l2 = l2'.
Proof.
  revert l1'. induction l1 as [|a t IH]; intros [|b t'] E H1 H1'; simpl in *.
  - injection E as ->. now split.
  - injection E as -> _. tauto.
  - injection E as -> _. tauto.
  - injection E as -> E. destruct (IH t' E) as [-> ->]; tauto.
Qed.

Lemma speech_general_not_fallback (text : jsstring) :
  sentences_of text <> [] -> speech_general text <> u16 "Task completed.".
Proof.
  unfold speech_general.
  destruct (sentences_of text) as [|first others] eqn:E; [congruence|].
  intros _.
  assert (~ In 0x2E%N (stripEmoji (trim first))) as Hfirst.
  { intros H. apply stripEmoji_in, trim_in in H.
    revert H. apply (sentence_no_dot text). rewrite E. now left. }
  assert (stripEmoji (trim first) <> u16 "Task completed.") as Hne.
  { intros H. apply Hfirst. rewrite H. vm_compute. tauto. }
  destruct others as [|second more]; trivial.
  destruct (length (stripEmoji (trim first)) <? 50)%nat; trivial.
  intros H.
  change (u16 ". ") with (0x2E%N :: u16 " ") in H.
  change (u16 "Task completed.") with (u16 "Task completed" ++ 0x2E%N :: []) in H.
  apply app_first_occurrence in H as [_ H]; trivial.
  - discriminate.
  - vm_compute. intuition discriminate.
Qed.

(** C10, counterexample.  The weather rule returns the text of a
    Condition line, here the very words of the fallback, although the
    input has a sentence. *)
Lemma speech_fallback_text_from_weather :
  extractKeyInfoForSpeech asciiLower sample_weather_condition
  = u16 "Task completed."
  /\ sentences_of sample_weather_condition
     = [u16 "weather" ++ [0x0A%N] ++ u16 "Condition: Task completed"]
  /\ sentences_of sample_weather_condition <> [].
Proof.
  split; [vm_compute; reflexivity|].
  split; [vm_compute; reflexivity|].
  vm_compute. discriminate.
Qed.

(** The fallback is reached by a text of punctuation only. *)
Example speech_fallback_reached :
  extractKeyInfoForSpeech asciiLower (u16 "...") = u16 "Task completed."
  /\ sentences_of (u16 "...") = [].
Proof. split; vm_compute; reflexivity. Qed.

(** ** More facts about trim and includes *)

Lemma trimStart_idem (s : jsstring) : trimStart (trimStart s) = trimStart s.
Proof.
  induction s as [|c t IH]; simpl; trivial.
  destruct (isWhiteSpace c) eqn:E; trivial.
  simpl. now rewrite E.
Qed.

Lemma trimStart_app (a b : jsstring) :
  trimStart (a ++ b)
  = match trimStart a with
    | [] => trimStart b
    | _ => trimStart a ++ b
    end.
Proof.
  induction a as [|c t IH]; simpl; trivial.
  destruct (isWhiteSpace c); trivial.
Qed.

Lemma trimEnd_cons (c : N) (t : jsstring) :
  isWhiteSpace c = false -> trimEnd (c :: t) = c :: trimEnd t.
Proof.
  intros Hc. unfold trimEnd. simpl. rewrite trimStart_app.
  destruct (trimStart (rev t)) as [|d u]; simpl.
  - now rewrite Hc.
  - now rewrite rev_app_distr.
Qed.

Lemma trimEnd_idem (s : jsstring) : trimEnd (trimEnd s) = trimEnd s.
Proof. unfold trimEnd. now rewrite rev_involutive, trimStart_idem. Qed.

Lemma trimStart_head (s : jsstring) :
  match trimStart s with
  | [] => True
  | c :: _ => isWhiteSpace c = false
  end.
Proof.
  induction s as [|c t IH]; simpl; trivial.
  destruct (isWhiteSpace c) eqn:E; trivial.
Qed.

(** Trimming twice is trimming once. *)
Lemma trim_trim (s : jsstring) : trim (trim s) = trim s.
Proof.
  unfold trim. pose proof (trimStart_head s) as H.
  destruct (trimStart s) as [|c t]; trivial.
  rewrite (trimEnd_cons c t H). simpl. rewrite H.
  rewrite (trimEnd_cons c _ H). now rewrite trimEnd_idem.
Qed.

Lemma trimStart_length (s : jsstring) : length (trimStart s) <= length s.
Proof.
  induction s as [|c t IH]; simpl; trivial.
  destruct (isWhiteSpace c); simpl; lia.
Qed.

Lemma trim_length (s : jsstring) : length (trim s) <= length s.
Proof.
  unfold trim, trimEnd. rewrite length_rev.
  etransitivity; [apply trimStart_length|].
  rewrite length_rev. apply trimStart_length.
Qed.

Lemma includes_unit (c : N) (s : jsstring) :
  includes [c] s = true <-> In c s.
Proof.
  split; [apply includes_In|].
  unfold includes, indexOf.
  assert (H : forall i, (0 <= i)%Z -> In c s ->
                        (0 <=? indexOf_from [c] s i)%Z = true).
  { induction s as [|d t IH]; intros i Hi; [intros []|].
    intros Hin. cbn [indexOf_from startsWith].
    destruct (N.eqb_spec c d) as [->|Hne]; simpl.
    - now apply Z.leb_le.
    - destruct Hin as [->|Hin]; [contradiction|].
      apply IH; [lia|trivial]. }
  intros Hin. apply H; [lia|trivial].
Qed.

Lemma str_eqb_eq (a b : jsstring) : str_eqb a b = true <-> a = b.
Proof.
  revert b. induction a as [|x a IH]; intros [|y b]; simpl; try easy.
  rewrite andb_true_iff, N.eqb_eq, IH. split.
  - now intros [-> ->].
  - intros [= -> ->]. auto.
Qed.

(** ** The sessions that the reconstruction builds *)

Lemma civil_eqb_eq (a b : CivilDate) : civil_eqb a b = true <-> a = b.
Proof.
  unfold civil_eqb. destruct a as [y m d], b as [y' m' d']; simpl.
  rewrite !andb_true_iff, !Z.eqb_eq. split.
  - intros [[-> ->] ->]. reflexivity.
  - intros H. injection H as -> -> ->. auto.
Qed.

Section SessionFacts.

Variable tzOffset : Z -> Z.
Variable env : Env.

Lemma group_step_opens (i : nat) (x : Interaction) (st : GroupState) :
  starts_new_session tzOffset (currentSession st) (timestamp x) = true ->
  group_step tzOffset env i x st
  = mkGroupState (sessions_of st)
      (Some (push_turns (opened tzOffset env (length (sessions_of st)) i x) x)).
Proof.
  intros H. unfold group_step. rewrite H.
  unfold push_turns, opened, turns. cbv beta zeta.
  cbn [currentSession earlier].
  destruct (present (user_input x)), (present (agent_response x));
    reflexivity.
Qed.

Lemma group_step_continues (i : nat) (x : Interaction) (st : GroupState)
  (s : Session) :
  currentSession st = Some s ->
  starts_new_session tzOffset (currentSession st) (timestamp x) = false ->
  group_step tzOffset env i x st
  = mkGroupState (earlier st) (Some (push_turns s x)).
Proof.
  intros Hs H. unfold group_step. rewrite H, Hs.
  unfold push_turns, turns, add_message, set_lastInteraction.
  cbv beta zeta.
  destruct (present (user_input x)), (present (agent_response x));
    cbn -[Nat.mul]; rewrite <- ?app_assoc, ?app_nil_r; reflexivity.
Qed.

(** The sessions after one step: either one more session, or the last
    one extended. *)
Lemma group_step_cases (i : nat) (x : Interaction) (st : GroupState) :
  (starts_new_session tzOffset (currentSession st) (timestamp x) = true
   /\ sessions_of (group_step tzOffset env i x st)
      = sessions_of st
        ++ [push_turns (opened tzOffset env (length (sessions_of st)) i x) x])
  \/ (exists s,
        currentSession st = Some s
        /\ starts_new_session tzOffset (currentSession st) (timestamp x) = false
        /\ sessions_of st = earlier st ++ [s]
        /\ sessions_of (group_step tzOffset env i x st)
           = earlier st ++ [push_turns s x]).
Proof.
  destruct (starts_new_session tzOffset (currentSession st) (timestamp x)) eqn:E.
  - left. split; trivial. now rewrite group_step_opens.
  - right. destruct (currentSession st) as [s|] eqn:Hs; [|discriminate].
    exists s. rewrite <- Hs in E.
    rewrite (group_step_continues i x st s Hs E).
    unfold sessions_of. rewrite Hs. auto.
Qed.

Lemma turns_timestamp (x : Interaction) :
  Forall (fun m => msg_timestamp m = timestamp x) (turns x).
Proof.
  unfold turns.
  destruct (present (user_input x)), (present (agent_response x));
    repeat constructor.
Qed.

(** A property of sessions that holds for a new session and survives an
    extension holds for every session of the result. *)
Lemma group_loop_Forall (P : Session -> Prop) :
  (forall k i x, P (push_turns (opened tzOffset env k i x) x)) ->
  (forall s x,
      starts_new_session tzOffset (Some s) (timestamp x) = false ->
      P s -> P (push_turns s x)) ->
  forall sorted i st,
    Forall P (sessions_of st) ->
    Forall P (sessions_of (group_loop tzOffset env i sorted st)).
Proof.
  intros Hnew Hext. induction sorted as [|x t IH]; intros i st H; simpl; trivial.
  apply IH.
  destruct (group_step_cases i x st) as [[_ ->]|(s & Hs & E & Hst & ->)].
  - apply List.Forall_app. split; trivial. constructor; [apply Hnew|constructor].
  - rewrite Hst in H. apply List.Forall_app in H as [H1 H2].
    apply List.Forall_app. split; trivial.
    constructor; [|constructor]. apply Hext.
    + now rewrite <- Hs.
    + now apply List.Forall_inv in H2.
Qed.

Lemma group_loop_messages (sorted : list Interaction) :
  forall i st,
    concat (List.map interactions
              (sessions_of (group_loop tzOffset env i sorted st)))
    = concat (List.map interactions (sessions_of st)) ++ flat_map turns sorted.
Proof.
  induction sorted as [|x t IH]; intros i st; simpl.
  - now rewrite app_nil_r.
  - rewrite IH.
    destruct (group_step_cases i x st) as [[_ ->]|(s & _ & _ & -> & ->)];
      rewrite !List.map_app, !concat_app; simpl;
      rewrite ?app_nil_r, <- ?app_assoc; reflexivity.
Qed.

Lemma tracks_step (i : nat) (x : Interaction) (st : GroupState) :
  tracks tzOffset (Some x) (group_step tzOffset env i x st).
Proof.
  unfold tracks.
  destruct (starts_new_session tzOffset (currentSession st) (timestamp x)) eqn:E.
  - rewrite group_step_opens by trivial. simpl. auto.
  - destruct (currentSession st) as [s|] eqn:Hs; [|discriminate].
    rewrite <- Hs in E. rewrite (group_step_continues i x st s Hs E).
    simpl. split; trivial.
    rewrite Hs in E. simpl in E. apply orb_false_elim in E as [E _].
    apply negb_false_iff in E. now apply civil_eqb_eq.
Qed.

Lemma starts_tracked (prev : option Interaction) (x : Interaction)
  (st : GroupState) :
  tracks tzOffset prev st ->
  starts_new_session tzOffset (currentSession st) (timestamp x)
  = match prev with
    | None => true
    | Some p => cut_between tzOffset p x
    end.
Proof.
  unfold tracks, cut_between, starts_new_session.
  destruct prev as [p|], (currentSession st) as [s|]; try easy.
  intros [-> ->]. reflexivity.
Qed.

Lemma group_loop_count (sorted : list Interaction) :
  forall i st prev,
    tracks tzOffset prev st ->
    length (sessions_of (group_loop tzOffset env i sorted st))
    = (session_starts tzOffset prev sorted + length (sessions_of st))%nat.
Proof.
  induction sorted as [|x t IH]; intros i st prev H; simpl; trivial.
  rewrite (IH _ _ (Some x)) by apply tracks_step.
  pose proof (starts_tracked prev x st H) as T.
  destruct (group_step_cases i x st) as [[E ->]|(s & Hs & E & Hst & ->)];
    rewrite E in T.
  - rewrite length_app. simpl.
    destruct prev; [rewrite <- T|]; lia.
  - rewrite Hst, !length_app. simpl.
    destruct prev; [rewrite <- T; lia|discriminate].
Qed.

Lemma sorted_snoc {A : Type} (R : A -> A -> Prop) (l : list A) (s : A) :
  StronglySorted R (l ++ [s])
  <-> StronglySorted R l /\ Forall (fun a => R a s) l.
Proof.
  induction l as [|a t IH]; simpl.
  - split; [intros _; split; constructor|intros _; repeat constructor].
  - split.
    + intros H. apply StronglySorted_inv in H as [H F].
      apply IH in H as [H Fs]. apply List.Forall_app in F as [F Fa].
      split; [now constructor|].
      constructor; trivial. now apply List.Forall_inv in Fa.
    + intros [H F]. apply StronglySorted_inv in H as [H Ft].
      apply List.Forall_cons_iff in F as [Ra F].
      constructor; [apply IH; auto|].
      apply List.Forall_app. split; trivial. now constructor.
Qed.

Lemma sorted_rev {A : Type} (R : A -> A -> Prop) (l : list A) :
  StronglySorted R l -> StronglySorted (fun a b => R b a) (rev l).
Proof.
  induction 1 as [|a t _ IH F]; simpl; [constructor|].
  apply sorted_snoc. split; trivial. now apply List.Forall_rev.
Qed.

Lemma spans_push (s : Session) (x : Interaction) :
  spans s -> (lastInteraction s <= timestamp x)%Z -> spans (push_turns s x).
Proof.
  intros [H F] Hx. split; simpl; [lia|].
  apply List.Forall_app. split.
  - eapply List.Forall_impl; [|exact F]. simpl. intros; lia.
  - eapply List.Forall_impl; [|apply turns_timestamp]. simpl. intros m ->. lia.
Qed.

Lemma group_step_order (b : Z) (i : nat) (x : Interaction) (st : GroupState) :
  in_order b (sessions_of st) -> (b <= timestamp x)%Z ->
  in_order (timestamp x) (sessions_of (group_step tzOffset env i x st)).
Proof.
  intros (Hs & Hp & Hb) Hx.
  assert (Hbx : forall l, Forall (fun s => (lastInteraction s <= b)%Z) l ->
                          Forall (fun s => (lastInteraction s <= timestamp x)%Z) l).
  { intros l. apply List.Forall_impl. intros; lia. }
  destruct (group_step_cases i x st) as [[_ ->]|(s & _ & _ & Hst & ->)].
  - split; [|split].
    + apply sorted_snoc. split; trivial.
      eapply List.Forall_impl; [|exact Hb]. unfold follows. simpl. intros; lia.
    + apply List.Forall_app. split; trivial.
      constructor; [|constructor].
      apply (spans_push (opened tzOffset env _ i x) x); simpl; [|lia].
      split; [simpl; lia|constructor].
    + apply List.Forall_app. split; auto.
      constructor; [simpl; lia|constructor].
  - rewrite Hst in Hs, Hp, Hb.
    apply sorted_snoc in Hs as [Hs Fs].
    apply List.Forall_app in Hp as [Hp Hps].
    apply List.Forall_app in Hb as [Hb Hbs].
    apply List.Forall_inv in Hps, Hbs.
    split; [|split].
    + apply sorted_snoc. split; trivial.
    + apply List.Forall_app. split; trivial.
      constructor; [|constructor]. apply spans_push; trivial. lia.
    + apply List.Forall_app. split; auto.
      constructor; [simpl; lia|constructor].
Qed.

Lemma group_loop_order (sorted : list Interaction) :
  forall i st b,
    StronglySorted by_timestamp sorted ->
    Forall (fun x => (b <= timestamp x)%Z) sorted ->
    in_order b (sessions_of st) ->
    exists b', in_order b' (sessions_of (group_loop tzOffset env i sorted st)).
Proof.
  induction sorted as [|x t IH]; intros i st b S F H; simpl.
  - now exists b.
  - apply StronglySorted_inv in S as [S Fx].
    apply List.Forall_cons_iff in F as [Hx _].
    apply (IH _ _ (timestamp x)); trivial.
    now apply (group_step_order b).
Qed.

(** The index in an id is the index of the interaction that opened the
    session, so the sessions carry different indexes, all below the index
    reached. *)
Lemma group_loop_ids (sorted : list Interaction) :
  forall i st,
    Forall (fun s => id_index (id s) < i) (sessions_of st) ->
    List.NoDup (List.map (fun s => id_index (id s)) (sessions_of st)) ->
    List.NoDup (List.map (fun s => id_index (id s))
                  (sessions_of (group_loop tzOffset env i sorted st))).
Proof.
  induction sorted as [|x t IH]; intros i st F D; simpl; trivial.
  destruct (group_step_cases i x st) as [[_ E]|(s & _ & _ & Hst & E)].
  - apply IH; rewrite E.
    + apply List.Forall_app. split.
      * eapply List.Forall_impl; [|exact F]. simpl. intros; lia.
      * constructor; [simpl; lia|constructor].
    + rewrite List.map_app. simpl.
      apply List.NoDup_app; trivial.
      * repeat constructor. intros [].
      * intros k Hk [<-|[]]. apply in_map_iff in Hk as (s & Hs & Hin).
        rewrite List.Forall_forall in F. apply F in Hin. simpl in Hs. lia.
  - apply IH; rewrite E.
    + rewrite Hst in F. apply List.Forall_app in F as [F1 F2].
      apply List.Forall_inv in F2.
      apply List.Forall_app. split.
      * eapply List.Forall_impl; [|exact F1]. simpl. intros; lia.
      * constructor; [simpl; lia|constructor].
    + rewrite Hst in D. now rewrite List.map_app in *.
Qed.

End SessionFacts.

(** X1.  The message count that a session displays is the number of
    messages it holds, for every session of the result. *)
Theorem groupInteractions_messageCount (tzOffset : Z -> Z) (env : Env)
  (l : list Interaction) :
  Forall (fun s => messageCount s = length (interactions s))
    (groupInteractionsBySessions tzOffset env l).
Proof.
  unfold groupInteractionsBySessions. destruct l as [|x l]; [constructor|].
  apply List.Forall_rev. apply group_loop_Forall.
  - intros k i y. simpl. lia.
  - intros s y _ H. simpl. rewrite length_app. lia.
  - constructor.
Qed.

(** X2.  Read from the oldest session to the newest, the messages of the
    sessions are the turns of the interactions in time order: the user
    turn, then the assistant turn of each interaction, with blank texts
    left out.  No message is lost, repeated or moved. *)
Theorem groupInteractions_messages (tzOffset : Z -> Z) (env : Env)
  (l : list Interaction) :
  concat (List.map interactions
            (rev (groupInteractionsBySessions tzOffset env l)))
  = flat_map turns (sort_by_timestamp l).
Proof.
  unfold groupInteractionsBySessions. destruct l as [|x l]; trivial.
  rewrite rev_involutive. now rewrite group_loop_messages.
Qed.

(** X3.  The number of sessions is the number of interactions that, in
    time order, are the first one or are cut from their predecessor by a
    change of local day or by more than thirty minutes. *)
Theorem groupInteractions_count (tzOffset : Z -> Z) (env : Env)
  (l : list Interaction) :
  length (groupInteractionsBySessions tzOffset env l)
  = session_starts tzOffset None (sort_by_timestamp l).
Proof.
  unfold groupInteractionsBySessions. destruct l as [|x l]; trivial.
  rewrite length_rev, (group_loop_count tzOffset env _ _ _ None); simpl; auto.
Qed.

(** X4.  The result lists the sessions from the most recent to the
    oldest without overlap: each session begins no earlier than the next
    one in the list ends, and the time of every message of a session lies
    between its start time and its last interaction. *)
Theorem groupInteractions_recent_first (tzOffset : Z -> Z) (env : Env)
  (l : list Interaction) :
  StronglySorted follows (groupInteractionsBySessions tzOffset env l)
  /\ Forall spans (groupInteractionsBySessions tzOffset env l).
Proof.
  unfold groupInteractionsBySessions. destruct l as [|x l].
  { split; constructor. }
  set (sorted := sort_by_timestamp (x :: l)).
  assert (S : StronglySorted by_timestamp sorted)
    by apply sort_by_timestamp_sorted.
  destruct sorted as [|y t].
  { split; constructor. }
  destruct (group_loop_order tzOffset env (y :: t) 0 (mkGroupState [] None)
              (timestamp y)) as (b & Hs & Hp & _); trivial.
  - apply StronglySorted_inv in S as [_ F].
    constructor; [lia|]. exact F.
  - repeat split; constructor.
  - split; [now apply sorted_rev in Hs|now apply List.Forall_rev].
Qed.

(** X5.  A session never mixes days: its date is the local calendar day
    of its start time, and every message of the session carries a time of
    that same day. *)
Theorem groupInteractions_one_day (tzOffset : Z -> Z) (env : Env)
  (l : list Interaction) :
  Forall (on_its_day tzOffset) (groupInteractionsBySessions tzOffset env l).
Proof.
  unfold groupInteractionsBySessions. destruct l as [|x l]; [constructor|].
  apply List.Forall_rev. apply group_loop_Forall.
  - intros k i y. split; simpl; trivial.
    eapply List.Forall_impl; [|apply turns_timestamp].
    simpl. now intros m ->.
  - intros s y E [Hd F]. split; simpl; trivial.
    apply List.Forall_app. split; trivial.
    eapply List.Forall_impl; [|apply turns_timestamp].
    simpl. intros m ->.
    simpl in E. apply orb_false_elim in E as [E _].
    apply negb_false_iff in E. apply civil_eqb_eq in E. now symmetry.
  - constructor.
Qed.

(** X6.  The sessions of one result carry pairwise different ids, even
    when the clock and Math.random give the same values for all of them:
    the index at the end of an id is that of the interaction that opened
    the session. *)
Theorem groupInteractions_ids_differ (tzOffset : Z -> Z) (env : Env)
  (l : list Interaction) :
  List.NoDup (List.map id (groupInteractionsBySessions tzOffset env l)).
Proof.
  apply (List.NoDup_map_inv id_index). rewrite List.map_map.
  unfold groupInteractionsBySessions. destruct l as [|x l]; [constructor|].
  rewrite List.map_rev. apply List.NoDup_rev.
  apply group_loop_ids; constructor.
Qed.

(** ** The order of the input of the session reconstruction (C6) *)

Lemma turns_stamped (t : Z) (s : list Interaction) :
  List.filter (fun m => (msg_timestamp m =? t)%Z) (flat_map turns s)
  = flat_map turns (List.filter (fun x => (timestamp x =? t)%Z) s).
Proof.
  induction s as [|x s IH]; trivial.
  cbn [flat_map List.filter]. rewrite List.filter_app, IH.
  pose proof (turns_timestamp x) as F.
  destruct (Z.eqb_spec (timestamp x) t) as [E|E]; cbn [flat_map]; f_equal.
  - induction F as [|m ms Hm _ IHm]; trivial.
    cbn [List.filter]. rewrite Hm, (proj2 (Z.eqb_eq _ _) E). now f_equal.
  - induction F as [|m ms Hm _ IHm]; trivial.
    cbn [List.filter]. rewrite Hm, (proj2 (Z.eqb_neq _ _) E). exact IHm.
Qed.

(** C6, amended.  For interactions with pairwise distinct timestamps, any
    two orderings of the same records give the same session list, for the
    same readings of the clock and draws of Math.random.  And whatever the
    timestamps: read from the oldest session to the newest, the messages
    that carry one timestamp are the turns of the interactions with that
    timestamp in the order in which the caller passed them, since the sort
    keeps the input order among equal timestamps. *)
Theorem groupInteractions_order_free (tzOffset : Z -> Z) (env : Env)
  (l : list Interaction) :
  (forall l' : list Interaction,
      Permutation l l' -> List.NoDup (List.map timestamp l) ->
      groupInteractionsBySessions tzOffset env l
      = groupInteractionsBySessions tzOffset env l')
  /\ (forall t : Z,
        List.filter (fun m => (msg_timestamp m =? t)%Z)
          (concat (List.map interactions
                     (rev (groupInteractionsBySessions tzOffset env l))))
        = flat_map turns (List.filter (fun x => (timestamp x =? t)%Z) l)).
Proof.
  split.
  - intros l' P D. unfold groupInteractionsBySessions.
    rewrite (sort_by_timestamp_order_free l l' P D).
    destruct l as [|x t], l' as [|x' t']; trivial.
    now apply Permutation_nil_cons in P.
  - intros t.
    assert (E : concat (List.map interactions
                          (rev (groupInteractionsBySessions tzOffset env l)))
                = flat_map turns (sort_by_timestamp l)).
    { unfold groupInteractionsBySessions. destruct l as [|x l]; trivial.
      rewrite rev_involutive. now rewrite group_loop_messages. }
    now rewrite E, turns_stamped, sort_by_timestamp_stable.
Qed.

Lemma groupInteractions_order_free_witness :
  groupInteractionsBySessions utc env0 [asked_first; asked_later]
  = groupInteractionsBySessions utc env0 [asked_later; asked_first]
  /\ List.map msg_content
       (List.filter (fun m => (msg_timestamp m =? 1710027000000)%Z)
          (concat (List.map interactions
                     (rev (groupInteractionsBySessions utc env0
                             [asked_second; asked_later; asked_first])))))
     = [u16 "play music"; u16 "lock the doors"].
Proof.
  split.
  - apply (proj1 (groupInteractions_order_free utc env0
                    [asked_first; asked_later])).
    + apply perm_swap.
    + vm_compute. repeat constructor; simpl; intuition discriminate.
  - rewrite (proj2 (groupInteractions_order_free utc env0
                      [asked_second; asked_later; asked_first])).
    vm_compute. reflexivity.
Defined.

(** ** The matcher finds texts of the pattern *)

Lemma captured_nil (r : regex) (w : jsstring) :
  sure_groups r = [] -> captured r w [].
Proof. intros E. split; [constructor|]. rewrite E. constructor. Qed.

Lemma captured_seq (a b : regex) (u v : jsstring) (ca cb : list (nat * jsstring)) :
  captured a u ca -> captured b v cb -> captured (Seq a b) (u ++ v) (cb ++ ca).
Proof.
  intros [Fa Sa] [Fb Sb]. split.
  - apply List.Forall_app. split.
    + eapply List.Forall_impl; [|exact Fb].
      intros c (Hin & x & Hx & Hl). split.
      * intros y Hy. apply in_or_app. right. now apply Hin.
      * exists x. split; trivial. simpl. apply in_or_app. now right.
    + eapply List.Forall_impl; [|exact Fa].
      intros c (Hin & x & Hx & Hl). split.
      * intros y Hy. apply in_or_app. left. now apply Hin.
      * exists x. split; trivial. simpl. apply in_or_app. now left.
  - simpl. rewrite List.map_app. apply List.Forall_app. split.
    + eapply List.Forall_impl; [|exact Sa].
      intros i Hi. apply in_or_app. now right.
    + eapply List.Forall_impl; [|exact Sb].
      intros i Hi. apply in_or_app. now left.
Qed.

Lemma captured_weaken (r r' : regex) (w : jsstring) (cs : list (nat * jsstring)) :
  (forall x, In x (groups_of r) -> In x (groups_of r')) ->
  sure_groups r' = [] ->
  captured r w cs -> captured r' w cs.
Proof.
  intros Hg Hs [F _]. split; [|rewrite Hs; constructor].
  eapply List.Forall_impl; [|exact F].
  intros c (Hin & x & Hx & Hl). split; trivial. exists x. auto.
Qed.

Lemma captured_star (g : bool) (a : regex) (u v : jsstring)
  (ca cs : list (nat * jsstring)) :
  captured a u ca -> captured (Star g a) v cs ->
  captured (Star g a) (u ++ v) (cs ++ ca).
Proof.
  intros Ha Hs.
  apply (captured_weaken (Seq a (Star g a))); trivial.
  - simpl. intros x Hx. apply in_app_or in Hx. tauto.
  - now apply captured_seq.
Qed.

Lemma captured_group (i : nat) (a : regex) (u : jsstring)
  (ca : list (nat * jsstring)) :
  lang a u -> captured a u ca -> captured (Group i a) u ((i, u) :: ca).
Proof.
  intros Hl [F S]. split.
  - constructor.
    + split; [apply incl_refl|]. exists a. split; [now left|trivial].
    + eapply List.Forall_impl; [|exact F].
      intros c (Hin & x & Hx & Hlx). split; trivial.
      exists x. split; [now right|trivial].
  - simpl. constructor; [now left|].
    eapply List.Forall_impl; [|exact S]. intros j Hj. now right.
Qed.

(** A successful match has consumed a text of the pattern, has recorded
    captures of its groups, and ends in a state on which the continuation
    succeeded. *)
Lemma rmatch_sound (r : regex) :
  forall st k x,
    rmatch r st k = Some x ->
    exists st' w cs,
      rest st = w ++ rest st'
      /\ pos st' = pos st + length w
      /\ caps st' = cs ++ caps st
      /\ lang r w
      /\ captured r w cs
      /\ k st' = Some x.
Proof.
  assert (Hstay : forall (q : regex) (st : mstate) (k : mstate -> option mstate) x,
             lang q [] -> sure_groups q = [] -> k st = Some x ->
             exists st' w cs,
               rest st = w ++ rest st'
               /\ pos st' = pos st + length w
               /\ caps st' = cs ++ caps st
               /\ lang q w
               /\ captured q w cs
               /\ k st' = Some x).
  { intros q st k x L S H. exists st, [], []. simpl.
    sound_goals; trivial; try lia; now apply captured_nil. }
  induction r as [|p|a IHa b IHb|a IHa b IHb|g a IHa|i a IHa| |];
    intros st k x; cbn [rmatch].
  - apply Hstay; [constructor|reflexivity].
  - destruct (rest st) as [|c t] eqn:E; [discriminate|].
    destruct (p c) eqn:Hp; [|discriminate]. intros H.
    exists (MState (S (pos st)) t (caps st)), [c], []. simpl.
    sound_goals; trivial; try lia; try (now constructor); now apply captured_nil.
  - intros H. apply IHa in H as (st1 & w1 & c1 & R1 & P1 & C1 & L1 & G1 & H).
    apply IHb in H as (st2 & w2 & c2 & R2 & P2 & C2 & L2 & G2 & H).
    exists st2, (w1 ++ w2), (c2 ++ c1).
    rewrite R1, R2, P2, P1, C2, C1, length_app, !app_assoc.
    sound_goals; trivial; try lia; try (now constructor); now apply captured_seq.
  - destruct (rmatch a st k) eqn:E.
    + intros [= <-].
      apply IHa in E as (st1 & w & cs & R & P & C & L & G & H).
      exists st1, w, cs. sound_goals; trivial; [now apply lang_alt_l|].
      apply (captured_weaken a); trivial.
      simpl. intros y Hy. apply in_or_app. now left.
    + intros H. apply IHb in H as (st1 & w & cs & R & P & C & L & G & H).
      exists st1, w, cs. sound_goals; trivial; [now apply lang_alt_r|].
      apply (captured_weaken b); trivial.
      simpl. intros y Hy. apply in_or_app. now right.
  - generalize (length (rest st)) as fuel. intros fuel. revert st x.
    induction fuel as [|f IHf]; intros st x; cbn [star_loop].
    { apply Hstay; [constructor|reflexivity]. }
    assert (forall y,
              rmatch a st (fun st' => if (pos st <? pos st')%nat
                                      then star_loop (rmatch a) g k f st'
                                      else None) = Some y ->
              exists st' w cs,
                rest st = w ++ rest st'
                /\ pos st' = pos st + length w
                /\ caps st' = cs ++ caps st
                /\ lang (Star g a) w
                /\ captured (Star g a) w cs
                /\ k st' = Some y) as Hmore.
    { intros y H. apply IHa in H as (st1 & w1 & c1 & R1 & P1 & C1 & L1 & G1 & H).
      destruct (pos st <? pos st1)%nat; [|discriminate].
      apply IHf in H as (st2 & w2 & c2 & R2 & P2 & C2 & L2 & G2 & H).
      exists st2, (w1 ++ w2), (c2 ++ c1).
      rewrite R1, R2, P2, P1, C2, C1, length_app, !app_assoc.
      sound_goals; trivial; try lia;
        try (now apply lang_star_more); now apply captured_star. }
    destruct g.
    + destruct (rmatch a st _) eqn:E.
      * intros [= <-]. now apply Hmore.
      * apply Hstay; [constructor|reflexivity].
    + destruct (k st) eqn:E.
      * intros [= <-]. revert E. apply Hstay; [constructor|reflexivity].
      * apply Hmore.
  - intros H. apply IHa in H as (st1 & w & cs & R & P & C & L & G & H).
    exists (MState (pos st1) (rest st1) ((i, w) :: caps st1)), w, ((i, w) :: cs).
    cbn [rest pos caps].
    sound_goals; trivial.
    + now rewrite C.
    + now constructor.
    + now apply captured_group.
    + rewrite <- H. do 3 f_equal.
      rewrite R, P.
      replace (pos st + length w - pos st) with (length w) by lia.
      now rewrite firstn_app, Nat.sub_diag, firstn_all, app_nil_r.
  - destruct (pos st =? 0)%nat; [|discriminate].
    apply Hstay; [constructor|reflexivity].
  - destruct (rest st) eqn:E; [|discriminate].
    intros H. exists st, [], []. simpl. rewrite E.
    sound_goals; trivial; try lia; try (now apply captured_nil); constructor.
Qed.

Lemma match_at_sound (r : regex) (p : nat) (s : jsstring) (m : rmatched) :
  match_at r p s = Some m ->
  exists w after,
    s = w ++ after
    /\ m_start m = p /\ m_end m = p + length w
    /\ lang r w /\ captured r w (m_caps m).
Proof.
  unfold match_at. destruct (rmatch r _ Some) as [st|] eqn:E; [|discriminate].
  intros [= <-]. cbn [m_start m_end m_caps].
  apply rmatch_sound in E as (st' & w & cs & R & P & C & L & G & [= ->]).
  cbn [rest pos caps] in *. rewrite app_nil_r in C. subst cs.
  now exists w, (rest st).
Qed.

Lemma search_from_sound (r : regex) (s : jsstring) :
  forall p m,
    search_from r p s = Some m ->
    exists before w after,
      s = before ++ w ++ after
      /\ m_start m = p + length before
      /\ m_end m = m_start m + length w
      /\ lang r w /\ captured r w (m_caps m).
Proof.
  induction s as [|c t IH]; intros p m; cbn [search_from].
  - destruct (match_at r p []) eqn:E; [|discriminate].
    intros [= <-]. apply match_at_sound in E as (w & after & S & B & F & L & G).
    exists [], w, after. simpl.
    split; [|split; [|split; [|split]]]; trivial; lia.
  - destruct (match_at r p (c :: t)) eqn:E.
    + intros [= <-]. apply match_at_sound in E as (w & after & S & B & F & L & G).
      exists [], w, after. simpl.
      split; [|split; [|split; [|split]]]; trivial; lia.
    + intros H. apply IH in H as (before & w & after & S & B & F & L & G).
      exists (c :: before), w, after. simpl. rewrite S.
      split; [|split; [|split; [|split]]]; trivial; lia.
Qed.

Lemma matched_middle (before w after : jsstring) :
  firstn (length w) (skipn (length before) (before ++ w ++ after)) = w.
Proof.
  rewrite skipn_app, skipn_all, Nat.sub_diag, skipn_O. simpl.
  rewrite firstn_app, firstn_all, Nat.sub_diag, firstn_O. apply app_nil_r.
Qed.

(** The text of a match of [exec] is a text of the pattern that stands
    in the input, and the captures are captures of its groups. *)
Lemma exec_sound (r : regex) (s : jsstring) (m : rmatched) :
  exec r s = Some m ->
  (exists before after,
      s = before ++ matched_text s m ++ after /\ length before = m_start m)
  /\ lang r (matched_text s m)
  /\ captured r (matched_text s m) (m_caps m).
Proof.
  unfold exec. intros H.
  apply search_from_sound in H as (before & w & after & S & B & F & L & G).
  assert (matched_text s m = w) as ->.
  { unfold matched_text. rewrite F, B, S. simpl.
    replace (length before + length w - length before) with (length w) by lia.
    apply matched_middle. }
  split; [exists before, after; split; trivial; lia|]. auto.
Qed.

Lemma capture_sound (r : regex) (w : jsstring) (cs : list (nat * jsstring))
  (i : nat) :
  captured r w cs ->
  (capture i cs = [] /\ ~ In i (sure_groups r))
  \/ (incl (capture i cs) w
      /\ exists a, In (i, a) (groups_of r) /\ lang a (capture i cs)).
Proof.
  intros [F S].
  assert (H : ~ In i (List.map fst cs) /\ capture i cs = []
              \/ (incl (capture i cs) w
                  /\ exists a, In (i, a) (groups_of r) /\ lang a (capture i cs))).
  { clear S. induction cs as [|[j v] t IH]; simpl.
    - left. auto.
    - apply List.Forall_cons_iff in F as [(Hin & a & Ha & Hl) F].
      simpl in *. destruct (Nat.eqb_spec i j) as [->|Hne].
      + right. split; trivial. now exists a.
      + destruct (IH F) as [[Hn He]|Hr]; [|now right].
        left. split; trivial. intros [Hj|Hj]; [congruence|contradiction]. }
  destruct H as [[Hn He]|Hr]; [|now right].
  left. split; trivial. intros Hs.
  rewrite List.Forall_forall in S. now apply S in Hs.
Qed.

(** ** Texts of the patterns of the source *)

Lemma lang_lit (s w : jsstring) : lang (lit_with chr s) w -> w = s.
Proof.
  revert w. induction s as [|c t IH]; intros w; simpl.
  - now inversion 1.
  - destruct t as [|d t'].
    + inversion 1 as [|p c' Hc| | | | | | | |]; subst.
      apply N.eqb_eq in Hc. now subst.
    + inversion 1 as [| |a b u v Hu Hv| | | | | | |]; subst.
      inversion Hu as [|p c' Hc| | | | | | | |]; subst.
      apply N.eqb_eq in Hc. subst. simpl. f_equal. now apply IH.
Qed.

Lemma lang_lit_text (s : string) (w : jsstring) : lang (lit s) w -> w = u16 s.
Proof. apply lang_lit. Qed.

Lemma lang_star_class (g : bool) (p : N -> bool) (w : jsstring) :
  lang (Star g (Class p)) w -> Forall (fun c => p c = true) w.
Proof.
  remember (Star g (Class p)) as r eqn:E. intros H.
  induction H as [| | | | | |g' a u v Hu _ Hv IH| | |]; try discriminate.
  - constructor.
  - injection E as -> ->. apply List.Forall_app. split; [|now apply IH].
    inversion Hu; subst. now repeat constructor.
Qed.

Lemma lang_plus_class (p : N -> bool) (w : jsstring) :
  lang (plus (Class p)) w -> w <> [] /\ Forall (fun c => p c = true) w.
Proof.
  unfold plus. inversion 1 as [| |a b u v Hu Hv| | | | | | |]; subst.
  inversion Hu; subst. apply lang_star_class in Hv.
  split; [discriminate|]. now constructor.
Qed.

Lemma lang_seq_inv (a b : regex) (w : jsstring) :
  lang (Seq a b) w -> exists u v, w = u ++ v /\ lang a u /\ lang b v.
Proof. inversion 1; subst. eauto. Qed.

Lemma lang_empty_inv (w : jsstring) : lang Empty w -> w = [].
Proof. now inversion 1. Qed.

(** ** The matcher finds a literal where it stands *)

Lemma rmatch_lit (s : jsstring) :
  forall st k,
    rmatch (lit_with chr s) st k
    = if startsWith s (rest st)
      then k (MState (pos st + length s) (skipn (length s) (rest st)) (caps st))
      else None.
Proof.
  induction s as [|c t IH]; intros [p r cs] k.
  - simpl. now rewrite Nat.add_0_r.
  - destruct t as [|d t'].
    + cbn [lit_with chr rmatch rest pos caps startsWith length].
      destruct r as [|c' r']; trivial.
      rewrite andb_true_r. rewrite Nat.add_1_r.
      now destruct (c =? c')%N.
    + change (lit_with chr (c :: d :: t'))
        with (Seq (chr c) (lit_with chr (d :: t'))).
      cbn [rmatch chr rest pos caps].
      destruct r as [|c' r']; trivial.
      change (startsWith (c :: d :: t') (c' :: r'))
        with ((c =? c')%N && startsWith (d :: t') r').
      destruct (c =? c')%N; trivial.
      rewrite IH. cbn [rest pos caps andb].
      destruct (startsWith (d :: t') r'); trivial.
      f_equal. f_equal. simpl. lia.
Qed.

Lemma star_loop_greedy_some
  (body : mstate -> (mstate -> option mstate) -> option mstate) (fuel : nat)
  (st : mstate) :
  star_loop body true Some fuel st <> None.
Proof.
  destruct fuel as [|f]; cbn [star_loop]; [discriminate|].
  destruct (body st _); discriminate.
Qed.

(** A pattern that begins with a literal and goes on with a greedy run
    matches exactly where the literal stands. *)
Lemma match_at_lit_run (s : jsstring) (p : N -> bool) (q : nat) (t : jsstring) :
  match_at (Seq (lit_with chr s) (Seq (Star true (Class p)) Empty)) q t <> None
  <-> startsWith s t = true.
Proof.
  unfold match_at.
  change (rmatch (Seq (lit_with chr s) (Seq (Star true (Class p)) Empty))
            (MState q t []) Some)
    with (rmatch (lit_with chr s) (MState q t [])
            (fun st' => star_loop (rmatch (Class p)) true Some
                          (length (rest st')) st')).
  rewrite rmatch_lit. cbn [rest pos caps].
  destruct (startsWith s t); [|split; [intros H; now contradiction H|discriminate]].
  split; trivial. intros _.
  pose proof (star_loop_greedy_some (rmatch (Class p))
                (length (skipn (length s) t))
                (MState (q + length s) (skipn (length s) t) [])) as H.
  destruct (star_loop _ true Some _ _); [discriminate|contradiction].
Qed.

Lemma search_from_complete (r : regex) (pat : jsstring) :
  (forall q t, startsWith pat t = true -> match_at r q t <> None) ->
  forall pre post q,
    startsWith pat post = true -> search_from r q (pre ++ post) <> None.
Proof.
  intros Hr. induction pre as [|c pre IH]; intros post q Hs; simpl.
  - destruct post as [|c t]; cbn [search_from];
      pose proof (Hr q _ Hs) as H;
      destruct (match_at r q _); congruence.
  - destruct (match_at r q (c :: pre ++ post)); [discriminate|].
    now apply IH.
Qed.

Lemma split_go_nonempty (fuel : nat) (r : regex) :
  forall p q piece s, split_go fuel r p q piece s <> [].
Proof.
  induction fuel as [|f IH]; intros p q piece s; cbn [split_go]; [discriminate|].
  destruct s as [|c t]; [discriminate|].
  destruct (match_at r q (c :: t)) as [m|]; [|apply IH].
  destruct (m_end m =? p); [apply IH|discriminate].
Qed.

(** The first piece of a split at a pattern whose matches are not empty
    is the text before the leftmost match. *)
Lemma split_go_first (r : regex) :
  (forall q t m, match_at r q t = Some m -> q < m_end m) ->
  forall fuel q piece s m,
    length s < fuel ->
    search_from r q s = Some m ->
    exists more,
      split_go fuel r 0 q piece s
      = (rev piece ++ firstn (m_start m - q) s) :: more
      /\ more <> [].
Proof.
  intros Hr. induction fuel as [|f IH]; intros q piece s m Hlen; [lia|].
  destruct s as [|c t]; cbn [search_from split_go].
  - destruct (match_at r q []) as [m'|] eqn:E; [|discriminate].
    intros _. pose proof (Hr _ _ _ E) as H.
    apply match_at_bounds in E. simpl in E. lia.
  - simpl in Hlen. destruct (match_at r q (c :: t)) as [m'|] eqn:E.
    + intros [= ->]. pose proof (Hr _ _ _ E) as H.
      destruct (Nat.eqb_spec (m_end m) 0) as [|_]; [lia|].
      apply match_at_bounds in E as [-> _].
      rewrite Nat.sub_diag, firstn_O, app_nil_r.
      eexists. split; [reflexivity|apply split_go_nonempty].
    + intros H. pose proof (search_from_bounds _ _ _ _ H) as [B _].
      destruct (IH (S q) (c :: piece) t m) as (more & -> & Hm); [lia|trivial|].
      exists more. split; trivial. f_equal.
      replace (m_start m - q) with (S (m_start m - S q)) by lia.
      simpl. now rewrite <- app_assoc.
Qed.

(** ** The socket client over arbitrary runs *)

(** The attempts counted stay within the maximum and every delay passed
    to setTimeout is one of the five backoff delays, in every state that
    keeps the maximum of the constructor. *)
Lemma step_bounded (w : World) (e : Event) :
  maxReconnectAttempts (api w) = 5 ->
  reconnectAttempts (api w) <= 5
  /\ Forall (fun d => In d (backoff_delays 5)) (scheduled w) ->
  reconnectAttempts (api (step w e)) <= 5
  /\ Forall (fun d => In d (backoff_delays 5)) (scheduled (step w e)).
Proof.
  intros Hmax [Hn Hd].
  destruct e as [u| |d|i|i|k]; simpl; auto.
  - unfold disconnect. destruct (socket (api w)); auto.
  - unfold send. destruct (isConnected (api w)), (socket (api w)); auto.
  - destruct (sockets w !! i) as [[u []]|]; auto.
    unfold onopen, send. simpl. destruct (socket (api w)); simpl; auto with arith.
  - destruct (sockets w !! i) as [[u st]|]; auto.
    assert (reconnectAttempts
              (api (onclose u (with_sockets (set_status i SockClosed (sockets w)) w)))
            <= 5
            /\ Forall (fun d => In d (backoff_delays 5))
                 (scheduled
                    (onclose u
                       (with_sockets (set_status i SockClosed (sockets w)) w))))
      as Hclose.
    { rewrite onclose_delay. unfold onclose. simpl. rewrite Hmax.
      destruct (Nat.ltb_spec (reconnectAttempts (api w)) 5) as [Hlt|Hge];
        simpl; rewrite ?app_nil_r; split; trivial; try lia.
      apply List.Forall_app. split; trivial.
      constructor; [|constructor].
      destruct (reconnectAttempts (api w)) as [|[|[|[|[|]]]]]; simpl; tauto || lia. }
    destruct st; auto.
  - destruct (timers w !! k); auto.
Qed.

(** X7.  However the calls of the application and the events of the
    browser interleave, the client never counts more than five reconnect
    attempts, and every delay it passes to setTimeout is one of 2000,
    4000, 6000, 8000 and 10000 ms. *)
Theorem reconnect_always_bounded (es : list Event) :
  reconnectAttempts (api (run initial es)) <= 5
  /\ Forall (fun d => In d (backoff_delays 5)) (scheduled (run initial es)).
Proof.
  unfold run.
  assert (H : maxReconnectAttempts (api initial) = 5
              /\ reconnectAttempts (api initial) <= 5
              /\ Forall (fun d => In d (backoff_delays 5)) (scheduled initial)).
  { simpl. repeat split; auto with arith. }
  revert H. generalize initial.
  induction es as [|e es IH]; intros w (Hmax & H); simpl; trivial.
  apply IH. split.
  - now rewrite step_max.
  - now apply step_bounded.
Qed.

(** X8.  When the connection drops and the socket created by the retry
    opens, the client is connected again on the new socket, the attempt
    counter is back at 0, and the identification frame of the same user
    has been sent on the new socket. *)
Theorem reconnect_reidentifies (w : World) (n s : nat) (info : SocketInfo) :
  one_live_socket n w -> n < 5 ->
  socket (api w) = Some s -> sockets w !! s = Some info ->
  let w' := run w [SocketCloses s; TimerFires 0;
                   SocketOpens (length (sockets w))] in
  connection_state w' = Connected
  /\ reconnectAttempts (api w') = 0
  /\ socket (api w') = Some (length (sockets w))
  /\ scheduled w' = scheduled w ++ [(2000 * Z.of_nat (S n))%Z]
  /\ sent w' = sent w ++ [(length (sockets w), UserConnected (sock_user info))].
Proof.
  intros (s0 & info0 & Hs0 & Hl0 & Hst0 & _ & Ht & Hn & Hmax) Hlt Hs Hl.
  assert (Hst : sock_status info <> SockClosed) by congruence.
  destruct info as [u st]. destruct w as [[so co hs n' m] ss ts sc se].
  cbn [api sockets timers scheduled sent socket reconnectAttempts
       maxReconnectAttempts sock_user sock_status] in *.
  clear Hs0 Hl0 Hst0. subst so ts n' m.
  assert (Hlen : length (set_status s SockClosed ss) = length ss).
  { unfold set_status. rewrite Hl. apply length_insert. }
  assert (Hnew : (set_status s SockClosed ss ++ [mkSocket u SockConnecting])
                 !! length ss = Some (mkSocket u SockConnecting)).
  { rewrite <- Hlen. apply list_lookup_middle. reflexivity. }
  apply Nat.ltb_lt in Hlt.
  unfold run. cbn [fold_left].
  assert (step (mkWorld (mkAPI (Some s) co hs n 5) ss [] sc se) (SocketCloses s)
          = mkWorld (mkAPI (Some s) false hs (S n) 5)
              (set_status s SockClosed ss)
              [mkTimer (2000 * Z.of_nat (S n)) u]
              (sc ++ [(2000 * Z.of_nat (S n))%Z]) se) as ->.
  { cbn [step sockets]. rewrite Hl.
    destruct st; try contradiction; unfold onclose, with_sockets;
      cbn [api sockets timers scheduled sent socket isConnected messageHandlers
           reconnectAttempts maxReconnectAttempts]; now rewrite Hlt. }
  assert (forall a, step (mkWorld a (set_status s SockClosed ss)
                            [mkTimer (2000 * Z.of_nat (S n)) u]
                            (sc ++ [(2000 * Z.of_nat (S n))%Z]) se)
                      (TimerFires 0)
                    = connect u (mkWorld a (set_status s SockClosed ss) []
                                   (sc ++ [(2000 * Z.of_nat (S n))%Z]) se))
    as -> by reflexivity.
  unfold connect.
  cbn [api sockets timers scheduled sent socket isConnected messageHandlers
       reconnectAttempts maxReconnectAttempts].
  rewrite Hlen. cbn [step sockets]. rewrite Hnew.
  unfold onopen, send, with_sockets, connection_state.
  cbn [api sockets timers scheduled sent socket isConnected messageHandlers
       reconnectAttempts maxReconnectAttempts].
  auto.
Qed.

Lemma reconnect_reidentifies_witness :
  let w := connected (u16 "driver") in
  let w' := run w [SocketCloses 0; TimerFires 0; SocketOpens 1] in
  connection_state w' = Connected
  /\ reconnectAttempts (api w') = 0
  /\ socket (api w') = Some 1
  /\ scheduled w' = [2000%Z]
  /\ sent w' = sent w ++ [(1, UserConnected (u16 "driver"))].
Proof.
  apply (reconnect_reidentifies (connected (u16 "driver")) 0 0
           (mkSocket (u16 "driver") SockOpen)).
  - apply connected_one_live.
  - lia.
  - reflexivity.
  - reflexivity.
Defined.

(** X9.  A handler that was removed is not registered any more, however
    often it had been added, and the handlers that stay keep their order;
    adding a handler that was not registered and removing it again gives
    back the client as it was. *)
Theorem removeMessageHandler_removes_all (h : nat) (w : World) :
  ~ In h (messageHandlers (api (removeMessageHandler h w)))
  /\ (forall a b pre mid post,
        messageHandlers (api w) = pre ++ a :: mid ++ b :: post ->
        a <> h -> b <> h ->
        exists pre' mid' post',
          messageHandlers (api (removeMessageHandler h w))
          = pre' ++ a :: mid' ++ b :: post')
  /\ (~ In h (messageHandlers (api w)) ->
      removeMessageHandler h (addMessageHandler h w) = w).
Proof.
  unfold removeMessageHandler, addMessageHandler. simpl. split; [|split].
  - intros H. apply filter_In in H as [_ H].
    now rewrite Nat.eqb_refl in H.
  - intros a b pre mid post -> Ha Hb.
    set (keep := fun x => negb (x =? h)).
    exists (List.filter keep pre), (List.filter keep mid), (List.filter keep post).
    rewrite List.filter_app. simpl.
    rewrite List.filter_app. simpl.
    unfold keep at 2 4.
    apply Nat.eqb_neq in Ha, Hb. now rewrite Ha, Hb.
  - intros H. destruct w as [[so co hs n m] ss ts sc se]. simpl in *.
    do 2 f_equal. rewrite List.filter_app. simpl.
    rewrite Nat.eqb_refl. simpl. rewrite app_nil_r.
    induction hs as [|x t IH]; simpl; trivial.
    destruct (Nat.eqb_spec x h) as [->|_]; simpl.
    + exfalso. apply H. now left.
    + f_equal. apply IH. intros Hin. apply H. now right.
Qed.

(** ** Code units through the string operations *)

Lemma firstn_in {A : Type} (x : A) (n : nat) (l : list A) :
  In x (firstn n l) -> In x l.
Proof.
  intros H. rewrite <- (firstn_skipn n l). apply in_or_app. now left.
Qed.

Lemma skipn_in {A : Type} (x : A) (n : nat) (l : list A) :
  In x (skipn n l) -> In x l.
Proof.
  intros H. rewrite <- (firstn_skipn n l). apply in_or_app. now right.
Qed.

Lemma substring_in (x : N) (s : jsstring) (a b : Z) :
  In x (substring s a b) -> In x s.
Proof. unfold substring. intros H. now apply firstn_in, skipn_in in H. Qed.

Lemma removeFirstStr_in (x : N) (pat s : jsstring) :
  In x (removeFirstStr pat s) -> In x s.
Proof.
  induction s as [|c t IH]; cbn [removeFirstStr].
  - destruct (startsWith pat []); [apply skipn_in|trivial].
  - destruct (startsWith pat (c :: t)); [apply skipn_in|].
    intros [->|H]; [now left|right; auto].
Qed.

Lemma split1_in (sep x : N) (s piece : jsstring) :
  In piece (split1 sep s) -> In x piece -> In x s.
Proof.
  revert piece. induction s as [|c t IH]; intros piece; simpl.
  - intros [<-|[]] [].
  - destruct (c =? sep)%N.
    + intros [<-|H] Hx; [destruct Hx|]. right. now apply (IH piece).
    + destruct (split1 sep t) as [|p0 more] eqn:E.
      * intros [<-|[]] [->|[]]. now left.
      * intros [<-|H] Hx.
        -- destruct Hx as [->|Hx]; [now left|].
           right. apply (IH p0); [now left|trivial].
        -- right. apply (IH piece); [now right|trivial].
Qed.

Lemma cut_matches_in (x : N) (ms : list rmatched) :
  forall p s, In x (cut_matches ms p s) -> In x s.
Proof.
  induction ms as [|m ms IH]; intros p s; simpl; trivial.
  intros H. apply in_app_or in H as [H|H].
  - now apply firstn_in in H.
  - apply IH in H. now apply skipn_in in H.
Qed.

Section Units.

Variable P : N -> Prop.

Lemma Forall_in_from (s t : jsstring) :
  (forall x, In x t -> In x s) -> Forall P s -> Forall P t.
Proof.
  intros H F. rewrite List.Forall_forall in *. auto.
Qed.

Lemma Forall_trim (s : jsstring) : Forall P s -> Forall P (trim s).
Proof. apply Forall_in_from. intros x. apply trim_in. Qed.

Lemma Forall_removeFirstStr (pat s : jsstring) :
  Forall P s -> Forall P (removeFirstStr pat s).
Proof. apply Forall_in_from. intros x. apply removeFirstStr_in. Qed.

Lemma Forall_substring (s : jsstring) (a b : Z) :
  Forall P s -> Forall P (substring s a b).
Proof. apply Forall_in_from. intros x. apply substring_in. Qed.

Lemma Forall_remove_all (r : regex) (s : jsstring) :
  Forall P s -> Forall P (remove_all r s).
Proof. apply Forall_in_from. intros x. apply cut_matches_in. Qed.

Lemma Forall_split1 (sep : N) (s piece : jsstring) :
  In piece (split1 sep s) -> Forall P s -> Forall P piece.
Proof.
  intros H. apply Forall_in_from. intros x. now apply (split1_in sep).
Qed.

Lemma Forall_line (content line : jsstring) :
  In line (nonBlankLines content) -> Forall P content -> Forall P line.
Proof.
  unfold nonBlankLines. intros H. apply filter_In in H as [H _].
  now apply Forall_split1 with (sep := 0x0A%N).
Qed.

(** The captures of a match hold code units of the input. *)
Lemma Forall_group (r : regex) (s : jsstring) (m : rmatched) (i : nat) :
  exec r s = Some m -> Forall P s -> Forall P (group i m).
Proof.
  intros E F. apply exec_sound in E as ((before & after & Hs & _) & _ & G).
  unfold group.
  destruct (capture_sound _ _ _ i G) as [[-> _]|[Hin _]]; [constructor|].
  apply Forall_in_from with (s := s); trivial.
  intros x Hx. apply Hin in Hx. rewrite Hs.
  apply in_or_app. right. apply in_or_app. now left.
Qed.

End Units.

(** ** The code units of an encoded component *)

Lemma hexDigit_unreserved (d : N) :
  (d < 16)%N -> isUnreserved (hexDigit d) = true.
Proof.
  intros H. unfold hexDigit, isUnreserved, isDigit.
  destruct (N.ltb_spec d 10).
  - replace ((0x30 <=? 0x30 + d) && (0x30 + d <=? 0x39))%N with true.
    + now rewrite orb_true_r.
    + symmetry. apply andb_true_intro. split; apply N.leb_le; lia.
  - replace ((0x41 <=? 0x41 + (d - 10)) && (0x41 + (d - 10) <=? 0x5A))%N
      with true; trivial.
    symmetry. apply andb_true_intro. split; apply N.leb_le; lia.
Qed.

Lemma utf8_octets_bytes (cp : N) :
  (cp < 0x110000)%N -> Forall (fun o => (o < 256)%N) (utf8_octets cp).
Proof.
  intros H. unfold utf8_octets.
  destruct (N.ltb_spec cp 0x80); [repeat constructor; lia|].
  destruct (N.ltb_spec cp 0x800).
  { repeat constructor.
    - assert (cp / 0x40 < 0x20)%N by (apply N.Div0.div_lt_upper_bound; lia). lia.
    - assert (cp mod 0x40 < 0x40)%N by (apply N.mod_lt; lia). lia. }
  destruct (N.ltb_spec cp 0x10000).
  { repeat constructor.
    - assert (cp / 0x1000 < 0x10)%N by (apply N.Div0.div_lt_upper_bound; lia). lia.
    - assert ((cp / 0x40) mod 0x40 < 0x40)%N by (apply N.mod_lt; lia). lia.
    - assert (cp mod 0x40 < 0x40)%N by (apply N.mod_lt; lia). lia. }
  repeat constructor.
  - assert (cp / 0x40000 < 0x8)%N by (apply N.Div0.div_lt_upper_bound; lia). lia.
  - assert ((cp / 0x1000) mod 0x40 < 0x40)%N by (apply N.mod_lt; lia). lia.
  - assert ((cp / 0x40) mod 0x40 < 0x40)%N by (apply N.mod_lt; lia). lia.
  - assert (cp mod 0x40 < 0x40)%N by (apply N.mod_lt; lia). lia.
Qed.

Lemma percent_safe (octets : list N) :
  Forall (fun o => (o < 256)%N) octets ->
  Forall (fun c => url_char c = true) (flat_map percent octets).
Proof.
  induction 1 as [|o t Ho _ IH]; simpl; [constructor|].
  unfold url_char.
  constructor; [reflexivity|].
  constructor.
  { rewrite hexDigit_unreserved; trivial.
    apply N.Div0.div_lt_upper_bound. lia. }
  constructor; trivial.
  rewrite hexDigit_unreserved; trivial. apply N.mod_lt. lia.
Qed.

Lemma encodeURIComponent_safe (s : jsstring) :
  forall q,
    code_units s -> encodeURIComponent s = Some q ->
    Forall (fun c => url_char c = true) q.
Proof.
  remember (length s) as n eqn:Hn.
  revert s Hn. induction n as [n IH] using lt_wf_ind. intros s Hn q Hs.
  destruct s as [|c t]; simpl.
  { intros [= <-]. constructor. }
  apply List.Forall_cons_iff in Hs as [Hc Ht]. simpl in Hn.
  assert (Htail : forall q', encodeURIComponent t = Some q' ->
                             Forall (fun c => url_char c = true) q')
    by (intros q'; apply (IH (length t)); trivial; lia).
  destruct (isUnreserved c) eqn:U.
  { destruct (encodeURIComponent t) as [q'|]; [|discriminate].
    intros [= <-]. constructor; [unfold url_char; now rewrite U|auto]. }
  destruct (isLowSurrogate c) eqn:Lo; [discriminate|].
  destruct (isHighSurrogate c) eqn:Hi.
  - destruct t as [|lo t']; [discriminate|].
    destruct (isLowSurrogate lo) eqn:Lo'; [|discriminate].
    apply List.Forall_cons_iff in Ht as [_ Ht']. simpl in Hn.
    destruct (encodeURIComponent t') as [q'|] eqn:E; [|discriminate].
    intros [= <-]. apply List.Forall_app. split.
    + apply percent_safe, utf8_octets_bytes.
      unfold isHighSurrogate, isLowSurrogate, pairPoint in *.
      apply andb_prop in Hi as [H1 H2]. apply andb_prop in Lo' as [H3 H4].
      apply N.leb_le in H1, H2, H3, H4. lia.
    + apply (IH (length t')) with (s := t'); trivial; lia.
  - destruct (encodeURIComponent t) as [q'|]; [|discriminate].
    intros [= <-]. apply List.Forall_app. split; [|auto].
    apply percent_safe, utf8_octets_bytes. lia.
Qed.

(** ** The directions card *)

Lemma default_last_cons {A : Type} (d a : A) (l : list A) :
  default d (last (a :: l)) = default a (last l).
Proof. rewrite last_cons. now destruct (last l). Qed.

Section Scan.

Variable lines : list jsstring.

(** A field of the loop holds what the last line that gives it gave. *)
Lemma scan_field (field : DirState -> jsstring)
  (read : jsstring -> option jsstring) :
  (forall st l,
      field (directions_line st l)
      = default (field st) (read (trim l))) ->
  forall st,
    field (fold_left directions_line lines st)
    = default (field st) (last (omap read (List.map trim lines))).
Proof.
  intros Hline. induction lines as [|l more IH]; intros st; simpl; trivial.
  rewrite IH, Hline.
  destruct (read (trim l)); simpl; trivial.
  now rewrite default_last_cons.
Qed.

Lemma scan_directions (st : DirState) :
  directions (fold_left directions_line lines st)
  = directions st
    ++ List.filter (fun l => kind_eqb (line_kind l) StepLine)
         (List.map trim lines).
Proof.
  revert st. induction lines as [|l more IH]; intros st; simpl.
  - now rewrite app_nil_r.
  - rewrite IH. unfold directions_line.
    destruct (line_kind (trim l)); simpl; trivial.
    + now destruct (exec re_https (trim l)).
    + now rewrite <- app_assoc.
Qed.

End Scan.

Lemma line_destination (st : DirState) (l : jsstring) :
  destination (directions_line st l)
  = default (destination st)
      (labelled DestinationLine (u16 "📍 Destination:") (trim l)).
Proof.
  unfold directions_line, labelled.
  destruct (line_kind (trim l)); simpl; trivial.
  now destruct (exec re_https (trim l)).
Qed.

Lemma line_distance (st : DirState) (l : jsstring) :
  distance (directions_line st l)
  = default (distance st) (labelled DistanceLine (u16 "📏 Distance:") (trim l)).
Proof.
  unfold directions_line, labelled.
  destruct (line_kind (trim l)); simpl; trivial.
  now destruct (exec re_https (trim l)).
Qed.

Lemma line_duration (st : DirState) (l : jsstring) :
  duration (directions_line st l)
  = default (duration st) (labelled DurationLine (u16 "⏱️ Duration:") (trim l)).
Proof.
  unfold directions_line, labelled.
  destruct (line_kind (trim l)); simpl; trivial.
  now destruct (exec re_https (trim l)).
Qed.

Lemma line_mapsUrl (st : DirState) (l : jsstring) :
  mapsUrl (directions_line st l) = default (mapsUrl st) (linked (trim l)).
Proof.
  unfold directions_line, linked.
  destruct (line_kind (trim l)); simpl; trivial.
  now destruct (exec re_https (trim l)).
Qed.

(** X10.  The directions formatter shows, for the destination, the
    distance, the duration and the maps address, what the last line that
    gives the field gives; it shows one step for every numbered line, in
    the order of the text; and it shows the error card with the raw text
    exactly when some line counts as an error line or no destination was
    read. *)
Theorem formatDirectionsResponse_card (content : jsstring) :
  formatDirectionsResponse content = directions_card content.
Proof.
  unfold formatDirectionsResponse, directions_card, directions_scan, last_read,
    step_lines, has_line_of_kind.
  rewrite scan_hasError, scan_directions.
  rewrite (scan_field _ destination _ line_destination).
  rewrite (scan_field _ distance _ line_distance).
  rewrite (scan_field _ duration _ line_duration).
  rewrite (scan_field _ mapsUrl _ line_mapsUrl).
  reflexivity.
Qed.

(** X11.  Whenever the dispatcher returns an error card, it is the card
    of a reported error, never the one of a parse failure, it carries the
    response text unchanged, and the text was taken for directions. *)
Theorem formatResponse_error_card (content raw : jsstring) (kind : ErrorKind) :
  formatResponse content = Returned (ErrorResult kind raw) ->
  kind = ReportedError /\ raw = content /\ isDirections content = true.
Proof.
  unfold formatResponse.
  destruct (falsy content); [discriminate|].
  destruct (isDirections content).
  - unfold formatDirectionsResponse.
    destruct (hasError _ || falsy _); [|discriminate].
    intros [= <- <-]. auto.
  - assert (G : forall c, formatGeneralResponse c <> ErrorResult kind raw).
    { intros c E. pose proof (formatGeneralResponse_general c) as H.
      rewrite E in H. discriminate. }
    destruct (isLocation content).
    { unfold formatLocationResponse.
      destruct (nonBlankLines content); discriminate. }
    destruct (isPlaceSearch content).
    + unfold formatPlaceSearchResponse.
      destruct (nonBlankLines content) as [|h t]; [discriminate|].
      destruct (exec re_found h).
      * destruct (make_places (place_entries t)); discriminate.
      * intros [= E]. now apply G in E.
    + intros [= E]. now apply G in E.
Qed.

Lemma formatResponse_error_card_witness :
  formatResponse sample_route_error
  = Returned (ErrorResult ReportedError sample_route_error)
  /\ isDirections sample_route_error = true.
Proof.
  assert (E : formatResponse sample_route_error
              = Returned (ErrorResult ReportedError sample_route_error))
    by (vm_compute; reflexivity).
  split; [exact E|].
  exact (proj2 (proj2 (formatResponse_error_card _ _ _ E))).
Defined.

(** ** The shape of what the cards show *)

Lemma last_omap_from {A B : Type} (f : A -> option B) (l : list A) (x : B) :
  last (omap f l) = Some x -> exists y, In y l /\ f y = Some x.
Proof.
  induction l as [|a t IH]; [discriminate|].
  change (omap f (a :: t))
    with (match f a with Some b => b :: omap f t | None => omap f t end).
  destruct (f a) as [b|] eqn:E.
  - rewrite last_cons. destruct (last (omap f t)) eqn:El.
    + intros H. destruct (IH H) as (y & Hy & Hf).
      exists y. split; [now right|trivial].
    + intros [= <-]. exists a. split; [now left|trivial].
  - intros H. destruct (IH H) as (y & Hy & Hf).
    exists y. split; [now right|trivial].
Qed.

Lemma last_read_labelled (k : LineKind) (label content : jsstring) :
  trimmed (default [] (last_read (labelled k label) content)).
Proof.
  unfold last_read.
  destruct (last (omap (labelled k label) _)) as [x|] eqn:E; [|reflexivity].
  apply last_omap_from in E as (y & _ & E). unfold labelled in E.
  destruct (kind_eqb _ k); [|discriminate]. injection E as <-.
  apply trim_trim.
Qed.

Lemma https_address (l : jsstring) (m : rmatched) :
  exec re_https l = Some m ->
  web_address (u16 "https://") (matched_text l m)
  /\ length (u16 "https://") < length (matched_text l m).
Proof.
  intros E. apply exec_sound in E as (_ & L & _).
  unfold re_https, cat in L. cbn [fold_right] in L.
  apply lang_seq_inv in L as (u & v & -> & Lu & Lv).
  apply lang_lit_text in Lu. subst u.
  apply lang_seq_inv in Lv as (v1 & v2 & -> & Lv1 & Lv2).
  apply lang_empty_inv in Lv2. subst v2. rewrite app_nil_r.
  apply lang_plus_class in Lv1 as [Hne Hv].
  split; [split|].
  - now exists v1.
  - apply List.Forall_app. split.
    + apply List.Forall_forall. intros c Hc.
      assert (F : forallb (fun c => negb (isWhiteSpace c)) (u16 "https://") = true)
        by (vm_compute; reflexivity).
      rewrite forallb_forall in F. apply F in Hc.
      now apply negb_true_iff in Hc.
    + eapply List.Forall_impl; [|exact Hv].
      intros c Hc. now apply negb_true_iff in Hc.
  - rewrite length_app. destruct v1; [contradiction|simpl; lia].
Qed.

Lemma render_step_ok (index : nat) (direction : jsstring) :
  direction <> [] -> step_ok index (render_step index direction).
Proof.
  intros Hd. unfold render_step.
  destruct (exec re_numbered direction) as [m|] eqn:E.
  - apply exec_sound in E as (_ & _ & G).
    unfold step_ok, group. cbn [step_instruction step_number].
    split.
    + destruct (capture_sound _ _ _ 2 G) as [[_ Hn]|(_ & a & Ha & La)].
      { exfalso. apply Hn. simpl. auto. }
      simpl in Ha. destruct Ha as [[=]|[[= <-]|[]]].
      now apply lang_plus_class in La as [Hne _].
    + destruct (capture_sound _ _ _ 1 G) as [[_ Hn]|(_ & a & Ha & La)].
      { exfalso. apply Hn. simpl. auto. }
      simpl in Ha. destruct Ha as [[= <-]|[[=]|[]]].
      now apply lang_plus_class in La.
  - split; simpl; trivial.
Qed.

(** The element at position [k] of a numbered map is made from the
    element at position [k], with the number of that position. *)
Lemma mapi_from_lookup {A B : Type} (f : nat -> A -> B) (l : list A) :
  forall (i k : nat) (y : B),
    mapi_from f i l !! k = Some y ->
    exists x, l !! k = Some x /\ y = f (i + k) x.
Proof.
  induction l as [|x t IH]; intros i k y; [discriminate|].
  destruct k as [|k]; cbn [mapi_from].
  - intros [= <-]. exists x. split; trivial. now rewrite Nat.add_0_r.
  - intros H. apply IH in H as (d & Hd & ->).
    exists d. split; trivial. f_equal. lia.
Qed.

(** X12.  Every directions card is well formed: the destination is not
    empty, destination, distance and duration carry no white space around
    them, every step has an instruction that is not empty, under the
    number read from its line (one or more digits) or else under its own
    position in the list counted from one, and the maps address is empty
    or begins with https:// followed by at least one more code unit,
    without white space. *)
Theorem directions_card_wellformed (content d di du url : jsstring)
  (steps : list Step) :
  formatDirectionsResponse content = DirectionsResult d di du steps url ->
  d <> [] /\ trimmed d /\ trimmed di /\ trimmed du
  /\ (forall (index : nat) (s : Step),
        steps !! index = Some s -> step_ok index s)
  /\ (url = []
      \/ (web_address (u16 "https://") url
          /\ length (u16 "https://") < length url)).
Proof.
  unfold formatDirectionsResponse, directions_scan.
  rewrite scan_hasError, scan_directions.
  rewrite (scan_field _ destination _ line_destination).
  rewrite (scan_field _ distance _ line_distance).
  rewrite (scan_field _ duration _ line_duration).
  rewrite (scan_field _ mapsUrl _ line_mapsUrl).
  cbn [hasError destination distance duration directions mapsUrl app].
  destruct (_ || falsy _) eqn:E; [discriminate|].
  apply orb_false_elim in E as [_ E].
  intros [= <- <- <- <- <-].
  split; [|split; [|split; [|split; [|split]]]].
  - intros H. rewrite H in E. discriminate.
  - apply last_read_labelled.
  - apply last_read_labelled.
  - apply last_read_labelled.
  - intros index s Hs.
    apply mapi_from_lookup in Hs as (l & Hl & ->).
    apply render_step_ok.
    apply list_elem_of_lookup_2, list_elem_of_In in Hl.
    apply filter_In in Hl as [_ Hl]. intros ->. discriminate.
  - destruct (last (omap linked _)) as [u|] eqn:El; [|now left].
    right. apply last_omap_from in El as (y & _ & El).
    unfold linked in El. destruct (kind_eqb _ MapsLine); [|discriminate].
    destruct (exec re_https y) as [m|] eqn:Em; [|discriminate].
    injection El as <-. now apply https_address.
Qed.

Lemma directions_card_wellformed_witness :
  exists d di du steps url,
    formatDirectionsResponse sample_bare_step
    = DirectionsResult d di du steps url
    /\ d <> []
    /\ steps = [mkStep (Parsed (u16 "1")) (u16 "Turn left");
                mkStep (Positional 2) (u16 "2.")]
    /\ forall index s, steps !! index = Some s -> step_ok index s.
Proof.
  assert (E : formatDirectionsResponse sample_bare_step
              = DirectionsResult (u16 "Home") [] []
                  [mkStep (Parsed (u16 "1")) (u16 "Turn left");
                   mkStep (Positional 2) (u16 "2.")]
                  [])
    by (vm_compute; reflexivity).
  do 5 eexists. split; [exact E|].
  destruct (directions_card_wellformed _ _ _ _ _ _ E) as (H1 & _ & _ & _ & H2 & _).
  split; [exact H1|]. split; [reflexivity|exact H2].
Defined.

Lemma maps_address (w : jsstring) :
  lang re_maps_url w ->
  web_address (u16 "https://www.google.com/maps") w.
Proof.
  intros L. unfold re_maps_url, cat in L. cbn [fold_right] in L.
  apply lang_seq_inv in L as (u & v & -> & Lu & Lv).
  apply lang_lit_text in Lu. subst u.
  apply lang_seq_inv in Lv as (v1 & v2 & -> & Lv1 & Lv2).
  apply lang_empty_inv in Lv2. subst v2. rewrite app_nil_r.
  apply lang_star_class in Lv1.
  split; [now exists v1|].
  apply List.Forall_app. split.
  - apply List.Forall_forall. intros c Hc.
    assert (F : forallb (fun c => negb (isWhiteSpace c))
                  (u16 "https://www.google.com/maps") = true)
      by (vm_compute; reflexivity).
    rewrite forallb_forall in F. apply F in Hc.
    now apply negb_true_iff in Hc.
  - eapply List.Forall_impl; [|exact Lv1].
    intros c Hc. now apply negb_true_iff in Hc.
Qed.

(** X13.  A general response that holds the text
    https://www.google.com/maps anywhere is shown with the link button:
    the link is an address that stands in the text, begins with that
    prefix and holds no white space, and the text shown above the button
    is the text before the address, trimmed.  A response without the
    prefix is shown unchanged and without a link. *)
Theorem formatGeneralResponse_link (content : jsstring) :
  if includes (u16 "https://www.google.com/maps") content
  then exists before url after rest,
         content = before ++ url ++ after
         /\ web_address (u16 "https://www.google.com/maps") url
         /\ formatGeneralResponse content
            = GeneralResult (trim before) (Some (mkMapsLink url rest))
  else formatGeneralResponse content = GeneralResult content None.
Proof.
  unfold formatGeneralResponse.
  destruct (includes (u16 "https://www.google.com/maps") content) eqn:I;
    [|reflexivity].
  apply includes_found in I as (pre & post & Hc & Hs).
  assert (Hr : forall q t, startsWith (u16 "https://www.google.com/maps") t = true ->
                           match_at re_maps_url q t <> None).
  { intros q t H. now apply match_at_lit_run. }
  assert (Hne : forall q t m, match_at re_maps_url q t = Some m -> q < m_end m).
  { intros q t m H. apply match_at_sound in H as (w & _ & _ & _ & -> & L & _).
    apply maps_address in L as [[more ->] _]. rewrite length_app.
    change (length (u16 "https://www.google.com/maps")) with 27. lia. }
  pose proof (search_from_complete _ _ Hr pre post 0 Hs) as Hex.
  rewrite <- Hc in Hex. fold (exec re_maps_url content) in Hex.
  destruct (exec re_maps_url content) as [m|] eqn:E; [|contradiction].
  pose proof (exec_sound _ _ _ E) as ((before & after & Hb & Hlen) & L & _).
  assert (Hparts : exists more,
             split_re re_maps_url content = before :: more /\ more <> []).
  { unfold split_re. destruct content as [|c t] eqn:Ec.
    { destruct pre; [|discriminate]. simpl in Hc. subst post.
      vm_compute in Hs. discriminate. }
    rewrite <- Ec in *.
    destruct (split_go_first _ Hne (S (2 * length content)) 0 [] content m)
      as (more & -> & Hm); [lia|exact E|].
    exists more. split; trivial. f_equal. simpl.
    rewrite Nat.sub_0_r, <- Hlen. rewrite Hb at 1.
    now rewrite firstn_app, firstn_all, Nat.sub_diag, firstn_O, app_nil_r. }
  destruct Hparts as (more & -> & Hm).
  destruct more as [|part1 more]; [contradiction|].
  exists before, (matched_text content m), after. eexists.
  split; [exact Hb|]. split; [now apply maps_address|reflexivity].
Qed.

(** ** The sign-in and registration form *)

Lemma falsy_nil (s : jsstring) : falsy s = true <-> s = [].
Proof. destruct s; simpl; split; congruence. Qed.

Lemma validateForm_valid (st : LandingState) :
  validateForm st = Valid -> acceptable st.
Proof.
  unfold validateForm, acceptable.
  destruct st as [lg ld er [u e p vt vm b]]. cbn [formData isLogin username
    email password vehicleModel].
  change (u16 "@") with [0x40%N].
  destruct (falsy (trim u)); [discriminate|].
  destruct (Nat.ltb_spec (length (trim u)) 3) as [H3|H3]; [discriminate|].
  destruct lg; cbn [negb andb].
  - destruct p as [|c p]; cbn [falsy]; [discriminate|].
    intros _. repeat split; discriminate || trivial.
  - destruct (falsy (trim e)); [discriminate|].
    destruct (includes [0x40%N] e); cbn [negb]; [|discriminate].
    destruct p as [|c p]; cbn [falsy]; [discriminate|].
    destruct (Nat.ltb_spec (length (c :: p)) 6) as [H6|H6]; [discriminate|].
    destruct vm as [|m vm]; cbn [falsy]; [discriminate|].
    intros _. repeat split; discriminate || trivial.
Qed.

(** X14.  The validation lets a form through exactly when the trimmed
    user name has at least three code units and the password is not
    empty and, for a registration, the e-mail holds an at sign, the
    password has at least six code units and a vehicle model is chosen. *)
Theorem validateForm_accepts (st : LandingState) :
  validateForm st = Valid <-> acceptable st.
Proof.
  split; [apply validateForm_valid|].
  unfold validateForm, acceptable.
  destruct st as [lg ld er [u e p vt vm b]]. cbn [formData isLogin username
    email password vehicleModel].
  change (u16 "@") with [0x40%N].
  intros (Hu & Hp & Hreg).
  destruct (trim u) as [|c0 u'] eqn:Eu; [simpl in Hu; lia|]. cbn [falsy].
  destruct (Nat.ltb_spec (length (c0 :: u')) 3) as [H3|_]; [lia|].
  destruct p as [|c p]; [contradiction|].
  destruct lg; cbn [negb andb falsy]; trivial.
  destruct (Hreg eq_refl) as (Hat & H6 & Hm).
  rewrite Hat. cbn [negb].
  assert (He : falsy (trim e) = false).
  { apply includes_In in Hat.
    apply (trim_keeps 0x40%N e eq_refl) in Hat. now destruct (trim e). }
  rewrite He.
  destruct (Nat.ltb_spec (length (c :: p)) 6) as [|_]; [lia|].
  now destruct vm.
Qed.

(** The vehicle type of the form is one of the two keys of the table, and
    the model is empty or one of the models of that type. *)
Lemma form_reachable_model (st : LandingState) :
  form_reachable st ->
  VEHICLE_DATA (vehicleType (formData st)) <> None
  /\ (vehicleModel (formData st) = [] \/ model_of_type (formData st) = true).
Proof.
  induction 1 as [|st e _ [IHt IHm] Hoff].
  - split; [discriminate|now left].
  - destruct e as [name value|]; [|split; [discriminate|now left]].
    destruct st as [lg ld er [u em p vt vm b]].
    unfold model_of_type in *.
    destruct name; cbn in *; auto.
    + apply andb_prop in Hoff as [_ Hoff].
      apply orb_prop in Hoff as [Hoff|Hoff];
        [|apply orb_prop in Hoff as [Hoff|Hoff]; [|discriminate]];
        apply str_eqb_eq in Hoff; subst value;
        (split; [discriminate|now left]).
    + split; trivial.
      apply andb_prop in Hoff as [_ Hoff].
      apply orb_prop in Hoff as [Hoff|Hoff]; [|now right].
      left. now apply falsy_nil.
Qed.

(** X15.  However the user fills in the form, switches the vehicle type
    and toggles between sign-in and registration, a registration that
    passes the validation names a model of the vehicle type it names, and
    the request is sent with that type and model. *)
Theorem registration_model_of_type (st : LandingState) :
  form_reachable st -> isLogin st = false -> validateForm st = Valid ->
  model_of_type (formData st) = true
  /\ exists u e p b,
       handleSubmit st
       = Sent (RegisterRequest u e p (vehicleType (formData st))
                 (vehicleModel (formData st)) b).
Proof.
  intros R Hreg Hv.
  destruct (form_reachable_model st R) as [Ht Hm].
  pose proof (validateForm_valid st Hv) as (_ & _ & Ha).
  destruct (Ha Hreg) as (_ & _ & Hmodel).
  split; [now destruct Hm|].
  unfold handleSubmit. rewrite Hv, Hreg.
  destruct (VEHICLE_DATA (vehicleType (formData st))); [|contradiction].
  eauto.
Qed.

Lemma registration_model_of_type_witness :
  let st := fold_left form_step sample_registration landing in
  model_of_type (formData st) = true
  /\ exists u e p b,
       handleSubmit st
       = Sent (RegisterRequest u e p (vehicleType (formData st))
                 (vehicleModel (formData st)) b).
Proof.
  apply registration_model_of_type.
  - unfold sample_registration. cbn [fold_left].
    repeat (apply form_next; [|vm_compute; reflexivity]).
    apply form_start.
  - reflexivity.
  - vm_compute. reflexivity.
Defined.

(** X16.  Every request that the form sends carries a user name of at
    least three code units and a password; user name and e-mail are sent
    without white space around them; a registration carries an e-mail
    with an at sign, a password of at least six code units, a model, and
    a bill id that is absent or not blank. *)
Theorem handleSubmit_request (st : LandingState) (req : AuthRequest) :
  handleSubmit st = Sent req -> request_ok req.
Proof.
  unfold handleSubmit.
  destruct (validateForm st) eqn:Hv; [|discriminate].
  apply validateForm_valid in Hv as (Hu & Hp & Hreg).
  destruct (isLogin st).
  - intros [= <-]. simpl. repeat split; trivial. apply trim_trim.
  - destruct (VEHICLE_DATA _); [|discriminate].
    destruct (Hreg eq_refl) as (Hat & Hp6 & Hm).
    intros [= <-]. simpl.
    repeat split; trivial; try apply trim_trim.
    + change (u16 "@") with [0x40%N] in *.
      apply includes_unit. apply includes_unit in Hat.
      now apply trim_keeps.
    + destruct (trim (billId (formData st))) as [|c t] eqn:Eb; simpl; trivial.
      split; [|discriminate]. unfold trimmed. rewrite <- Eb. apply trim_trim.
Qed.

Lemma handleSubmit_request_witness :
  request_ok
    (RegisterRequest (u16 "driver") (u16 "driver@example.org") (u16 "secret1")
       (u16 "truck") (u16 "ram_1500") None).
Proof.
  apply (handleSubmit_request (fold_left form_step sample_registration landing)).
  vm_compute. reflexivity.
Defined.

(** ** The vehicle controls *)

(** X17.  The volume that the volume buttons send is always between 0
    and 100, whatever the dashboard showed and whatever the step, and a
    volume shown within that range stays within it. *)
Theorem handleVolumeChange_range (seen prev : VehicleState) (increment : Z)
  (reply : FetchOutcome) :
  let h := handleVolumeChange seen increment reply prev in
  (exists v, parameters (sent_command h) = Some (u16 "volume", v)
             /\ (0 <= v <= 100)%Z)
  /\ ((0 <= volume (music prev) <= 100)%Z ->
      (0 <= volume (music (next_state h)) <= 100)%Z).
Proof.
  unfold handleVolumeChange, settle. split.
  - exists (Z.max 0 (Z.min 100 (volume (music seen) + increment))).
    split; [|lia].
    destruct reply as [status|]; trivial.
    destruct (status =? 401)%Z; trivial. now destruct (ok status).
  - intros H. destruct reply as [status|]; trivial.
    destruct (status =? 401)%Z; trivial.
    destruct (ok status); trivial. simpl. lia.
Qed.

(** X18.  No control changes what the dashboard shows unless its request
    was accepted: a rejected fetch, a response that is not ok and the 401
    response leave the state as it was, and the user is logged out
    exactly on the 401 response. *)
Theorem press_unaccepted (c : Control) (seen prev : VehicleState)
  (reply : FetchOutcome) :
  (accepted reply = false -> next_state (press c seen reply prev) = prev)
  /\ (logged_out (press c seen reply prev) = true <-> reply = Responded 401).
Proof.
  assert (H : forall cmd update,
             (accepted reply = false ->
              next_state (settle cmd reply update prev) = prev)
             /\ (logged_out (settle cmd reply update prev) = true
                 <-> reply = Responded 401)).
  { intros cmd update. unfold settle, accepted.
    destruct reply as [status|]; [|split; [trivial|split; discriminate]].
    destruct (Z.eqb_spec status 401) as [->|Hne]; simpl.
    - split; [trivial|]. split; trivial.
    - destruct (ok status); simpl; split; trivial; try discriminate;
        split; try discriminate; intros [= ->]; contradiction. }
  destruct c; apply H.
Qed.

(** X19.  After an accepted request the dashboard agrees with the
    request: it shows the temperature or volume that was sent, doors
    locked after lock_doors and unlocked after unlock_doors, music playing
    after play_music and paused after pause_music, and for the two plain
    toggles the opposite of what the user saw when pressing. *)
Theorem press_agrees (c : Control) (seen prev : VehicleState)
  (reply : FetchOutcome) :
  accepted reply = true -> agrees c seen (press c seen reply prev).
Proof.
  unfold accepted. destruct reply as [status|]; [|discriminate].
  intros H. apply andb_prop in H as [H401 Hok].
  apply negb_true_iff in H401.
  destruct c; unfold agrees, press, handleTemperatureChange, handleACToggle,
    handleMusicToggle, handleVolumeChange, handleDoorsToggle,
    handleLightsToggle, settle; rewrite H401, Hok;
    cbn [sent_command next_state command parameters climate music vehicle
         temperature volume playing doors_locked ac_on lights_on];
    trivial.
  - destruct (playing (music seen)); [right|left]; split; reflexivity.
  - destruct (doors_locked (vehicle seen)); [right|left]; split; reflexivity.
Qed.

Lemma press_agrees_witness :
  agrees DoorsButton default_state
    (press DoorsButton default_state (Responded 200) default_state).
Proof. apply press_agrees. reflexivity. Defined.

(** X20.  Two presses of a control in a row, both accepted: when the
    second press still reads the state that the first one read, because
    the first response had not arrived, the dashboard ends where one press
    leaves it; when the second press of a toggle reads the state left by
    the first, the dashboard is back where it started. *)
Theorem press_twice (c : Control) (shown : VehicleState)
  (r1 r2 : FetchOutcome) :
  accepted r1 = true -> accepted r2 = true ->
  let once := next_state (press c shown r1 shown) in
  next_state (press c shown r2 once) = once
  /\ (is_toggle c = true -> next_state (press c once r2 once) = shown).
Proof.
  unfold accepted. destruct r1 as [s1|], r2 as [s2|]; try discriminate.
  intros H1 H2.
  apply andb_prop in H1 as [A1 O1]. apply negb_true_iff in A1.
  apply andb_prop in H2 as [A2 O2]. apply negb_true_iff in A2.
  destruct shown as [[t ac fan] [pl vol track] [locked lights]].
  destruct c; unfold press, handleTemperatureChange, handleACToggle,
    handleMusicToggle, handleVolumeChange, handleDoorsToggle,
    handleLightsToggle, settle; rewrite A1, O1, A2, O2;
    cbn [next_state climate music vehicle temperature ac_on fan_speed playing
         volume current_track doors_locked lights_on is_toggle];
    (split; [reflexivity|]); intros T; try discriminate;
    now rewrite negb_involutive.
Qed.

Lemma press_twice_witness :
  let once := next_state (press ACButton default_state (Responded 200)
                            default_state) in
  ac_on (climate once) = true
  /\ next_state (press ACButton default_state (Responded 200) once) = once
  /\ next_state (press ACButton once (Responded 200) once) = default_state.
Proof.
  split; [reflexivity|].
  destruct (press_twice ACButton default_state (Responded 200) (Responded 200)
              eq_refl eq_refl) as [H1 H2].
  split; [exact H1|exact (H2 eq_refl)].
Defined.

(** ** Error messages of the API client *)

(** X21.  The message that handleAPIError returns is never empty, and
    the only errors for which it raises instead of returning are
    responses without a body whose status is none of 401, 403, 404 and
    500. *)
Theorem handleAPIError_message (error : ApiError) :
  match handleAPIError error with
  | Returned message => message <> []
  | Threw _ =>
    exists status,
      error = ResponseError status NoData
      /\ ~ In status [401; 403; 404; 500]%Z
  end.
Proof.
  assert (D : forall data fallback,
             fallback <> [] ->
             match detail_or data fallback with
             | Returned message => message <> []
             | Threw _ => data = NoData
             end).
  { intros [|[[|c d]|]] fallback H; simpl; trivial; discriminate. }
  destruct error as [status data| |[[|c m]|]]; simpl; try discriminate.
  destruct (Z.eqb_spec status 400) as [->|H400].
  { pose proof (D data (u16 "Invalid request")) as H.
    destruct (detail_or data _); [apply H; discriminate|].
    exists 400%Z. rewrite H by discriminate.
    split; trivial. simpl. lia. }
  destruct (Z.eqb_spec status 401); [discriminate|].
  destruct (Z.eqb_spec status 403); [discriminate|].
  destruct (Z.eqb_spec status 404); [discriminate|].
  destruct (Z.eqb_spec status 500); [discriminate|].
  pose proof (D data (u16 "Server error (" ++ intToString status ++ u16 ")")) as H.
  destruct (detail_or data _); [apply H; discriminate|].
  exists status. rewrite H by discriminate.
  split; trivial. simpl. lia.
Qed.

(** ** The place cards *)

Lemma groups_of_found :
  groups_of re_found = [(1, plus digit); (2, plus_lazy (none_of (u16 "(")))]
  /\ sure_groups re_found = [1; 2].
Proof. split; vm_compute; reflexivity. Qed.

Lemma groups_of_star_rating :
  groups_of re_star_rating = [(1, re_rating_number)]
  /\ sure_groups re_star_rating = [1].
Proof. split; vm_compute; reflexivity. Qed.

(** The first group of a match of a rating pattern is a rating number. *)
Lemma rating_group (r : regex) (s : jsstring) (m : rmatched) :
  groups_of r = [(1, re_rating_number)] -> sure_groups r = [1] ->
  exec r s = Some m -> lang re_rating_number (group 1 m).
Proof.
  intros Hg Hs E. apply exec_sound in E as (_ & _ & G).
  unfold group.
  destruct (capture_sound _ _ _ 1 G) as [[_ Hn]|(_ & a & Ha & La)].
  - exfalso. apply Hn. rewrite Hs. now left.
  - rewrite Hg in Ha. destruct Ha as [[= <-]|[]]. exact La.
Qed.

Lemma status_cases (afterDistance : jsstring) :
  In (if includes (u16 "🟢") afterDistance then u16 "Open"
      else if includes (u16 "🔴") afterDistance then u16 "Closed" else [])
    [[]; u16 "Open"; u16 "Closed"].
Proof.
  destruct (includes (u16 "🟢") afterDistance); [right; now left|].
  destruct (includes (u16 "🔴") afterDistance); [right; right; now left|now left].
Qed.

Lemma parse_entry_ok (entryContent : jsstring) :
  code_units entryContent -> fields_ok (parse_entry entryContent).
Proof.
  intros Hu. unfold parse_entry.
  set (cleanLine := trim (removeFirstStr PIN entryContent)).
  assert (Hc : code_units cleanLine)
    by (apply Forall_trim, Forall_removeFirstStr, Hu).
  assert (Hfinal : forall fields,
             In (f_status fields) [[]; u16 "Open"; u16 "Closed"] ->
             (f_rating fields = [] \/ lang re_rating_number (f_rating fields)) ->
             trimmed (f_address fields) ->
             code_units (f_name fields) -> code_units (f_address fields) ->
             fields_ok
               (mkPlaceFields (trim (remove_all re_glyphs (f_name fields)))
                  (f_distance fields) (f_rating fields) (f_status fields)
                  (f_address fields))).
  { intros fields H1 H2 H3 H4 H5. unfold fields_ok. cbn [f_name f_status
      f_rating f_address].
    split; [apply trim_trim|]. repeat (split; trivial).
    apply Forall_trim, Forall_remove_all, H4. }
  apply Hfinal; clear Hfinal.
  - destruct (exec re_parens cleanLine).
    + cbn [f_status]. apply status_cases.
    + destruct (split1 0x2B50%N cleanLine) as [|p0 [|p1 more]]; now left.
  - destruct (exec re_parens cleanLine).
    + cbn [f_rating].
      destruct (exec re_star_rating _) as [rm|] eqn:E; [|now left].
      right. revert E. apply rating_group; apply groups_of_star_rating.
    + destruct (split1 0x2B50%N cleanLine) as [|p0 [|p1 more]];
        cbn [f_rating]; try (now left).
      destruct (exec re_rating (trim p1)) as [rm|] eqn:E; [|now left].
      right. revert E. apply rating_group; reflexivity.
  - destruct (exec re_parens cleanLine).
    + cbn [f_address].
      destruct (exec re_address _); [apply trim_trim|reflexivity].
    + destruct (split1 0x2B50%N cleanLine) as [|p0 [|p1 more]]; reflexivity.
  - destruct (exec re_parens cleanLine).
    + cbn [f_name]. apply Forall_trim, Forall_substring, Hc.
    + destruct (split1 0x2B50%N cleanLine) as [|p0 [|p1 more]] eqn:E;
        cbn [f_name]; try constructor;
        apply Forall_trim, (Forall_split1 _ 0x2B50%N cleanLine); trivial;
        rewrite E; now left.
  - destruct (exec re_parens cleanLine).
    + cbn [f_address].
      destruct (exec re_address _) as [am|] eqn:E; [|constructor].
      apply Forall_trim. revert E. intros E.
      apply (Forall_group _ _ _ _ _ E).
      unfold substringFrom. apply Forall_trim, Forall_substring, Hc.
    + destruct (split1 0x2B50%N cleanLine) as [|p0 [|p1 more]]; constructor.
Qed.

Lemma make_place_ok (f : PlaceFields) (p : Place) :
  fields_ok f -> truthy (f_name f) = true ->
  make_place f = Some p -> place_ok p.
Proof.
  intros (Hn & Hst & Hr & Ha & Hun & Hua) Ht. unfold make_place.
  destruct (encodeURIComponent (link_text f)) as [q|] eqn:E; [|discriminate].
  intros [= <-]. unfold place_ok.
  cbn [place_name place_status place_rating place_address place_mapsUrl].
  split; [intros H; rewrite H in Ht; discriminate|].
  split; trivial. split; trivial.
  split.
  { destruct (f_rating f) as [|c r] eqn:Er; cbn [truthy falsy negb]; trivial.
    exists (c :: r). split; trivial.
    destruct Hr as [Hr|Hr]; [discriminate|exact Hr]. }
  split; trivial.
  exists q. split; trivial.
  apply (encodeURIComponent_safe (link_text f)); trivial.
  unfold link_text. apply List.Forall_app. split; trivial.
  destruct (truthy (f_address f)); [|constructor].
  apply List.Forall_app. split; trivial.
  repeat constructor.
Qed.

Lemma place_entries_ok (lines : list jsstring) :
  Forall code_units lines ->
  Forall (fun f => fields_ok f /\ truthy (f_name f) = true) (place_entries lines)
  /\ length (place_entries lines) <= length lines.
Proof.
  induction 1 as [|l more Hl _ [IHf IHn]]; cbn [place_entries length];
    [split; [constructor|lia]|].
  destruct (exec re_numbered (trim l)) as [m|] eqn:E; [|split; [trivial|lia]].
  destruct (truthy (f_name (parse_entry (group 2 m)))) eqn:Ht;
    [|split; [trivial|lia]].
  split; [|cbn [length]; lia].
  constructor; trivial. split; trivial.
  apply parse_entry_ok. apply (Forall_group _ _ _ _ _ E).
  now apply Forall_trim.
Qed.

Lemma make_places_ok (fs : list PlaceFields) :
  Forall (fun f => fields_ok f /\ truthy (f_name f) = true) fs ->
  forall places,
    make_places fs = Some places ->
    Forall place_ok places /\ length places = length fs.
Proof.
  induction 1 as [|f more [Hf Ht] _ IH]; simpl.
  - intros places [= <-]. split; [constructor|reflexivity].
  - destruct (make_place f) as [p|] eqn:E; [|discriminate].
    destruct (make_places more) as [ps|]; [|discriminate].
    intros places [= <-]. destruct (IH ps eq_refl) as [IHp IHn].
    split; [|simpl; now rewrite IHn].
    constructor; trivial. now apply (make_place_ok f).
Qed.

(** X22.  Every place-search card made from a text of code units is well
    formed: the count is a run of digits and the place type carries no
    white space around it; there are fewer places than lines; and every
    place has a name that is not empty, name and address without white
    space around them, a status that is empty, Open or Closed, a rating
    that is absent or the star and a rating number, and a maps address
    that is the search prefix followed only by unreserved characters and
    per cent signs. *)
Theorem place_cards_wellformed (content count placeType : jsstring)
  (places : list Place) :
  code_units content ->
  formatPlaceSearchResponse content
  = Returned (PlaceSearchResult count placeType places) ->
  count <> [] /\ Forall (fun c => isDigit c = true) count
  /\ trimmed placeType
  /\ length places < length (nonBlankLines content)
  /\ Forall place_ok places.
Proof.
  intros Hu. unfold formatPlaceSearchResponse.
  destruct (nonBlankLines content) as [|headerLine entries] eqn:El;
    [discriminate|].
  destruct (exec re_found headerLine) as [fm|] eqn:Ef.
  2:{ intros [= H]. pose proof (formatGeneralResponse_general content) as G.
      rewrite H in G. discriminate. }
  destruct (make_places (place_entries entries)) as [ps|] eqn:Ep;
    [|discriminate].
  intros [= <- <- <-].
  assert (Hlines : Forall code_units entries).
  { apply List.Forall_forall. intros l Hl.
    apply (Forall_line _ content); trivial. rewrite El. now right. }
  destruct (place_entries_ok entries Hlines) as [Hf Hn].
  destruct (make_places_ok _ Hf _ Ep) as [Hp Hlen].
  assert (Hcount : group 1 fm <> []
                   /\ Forall (fun c => isDigit c = true) (group 1 fm)).
  { apply exec_sound in Ef as (_ & _ & G). unfold group.
    destruct groups_of_found as [Hg Hs].
    destruct (capture_sound _ _ _ 1 G) as [[_ Hno]|(_ & a & Ha & La)].
    - exfalso. apply Hno. rewrite Hs. now left.
    - rewrite Hg in Ha. destruct Ha as [[= <-]|[[=]|[]]].
      now apply lang_plus_class in La. }
  destruct Hcount as [Hc1 Hc2].
  split; trivial. split; trivial.
  split; [apply trim_trim|].
  split; [simpl; lia|trivial].
Qed.

Lemma place_cards_wellformed_witness :
  exists count placeType places,
    formatPlaceSearchResponse sample_places
    = Returned (PlaceSearchResult count placeType places)
    /\ length places = 2 /\ Forall place_ok places.
Proof.
  destruct (formatPlaceSearchResponse sample_places) as [[c t ps| | | | |]|] eqn:E;
    try (vm_compute in E; discriminate).
  exists c, t, ps. split; [reflexivity|].
  assert (U : code_units sample_places).
  { apply List.Forall_forall. intros x Hx.
    assert (F : forallb (fun c => (c <? 0x10000)%N) sample_places = true)
      by (vm_compute; reflexivity).
    rewrite forallb_forall in F. apply F in Hx. now apply N.ltb_lt. }
  destruct (place_cards_wellformed _ _ _ _ U E) as (_ & _ & _ & _ & H).
  split; [|exact H].
  vm_compute in E. injection E as _ _ <-. reflexivity.
Defined.

(** ** The session of the application *)

Section AppSession.

Variable User : Type.
Variable stringify : User -> jsstring.
Variable parse : jsstring -> option User.

(** A record written by [JSON.stringify] is read back by [JSON.parse]. *)
Hypothesis parse_stringify : forall u, parse (stringify u) = Some u.

Lemma app_reachable_kept (entry : option jsstring) (st : App.AppState User) :
  App.app_reachable User stringify parse entry st ->
  if App.loading User st
  then st = App.mounted User entry
  else App.session_kept User parse st.
Proof using parse_stringify.
  induction 1 as [|st e _ IH En]; [reflexivity|].
  destruct e as [reply|u| |u]; simpl in En.
  - rewrite En in IH. subst st.
    unfold App.app_step, App.checkExistingAuth, App.mounted.
    cbn [App.saved App.isLoggedIn App.currentUser].
    destruct entry as [[|c s]|]; cbn [truthy falsy negb].
    + cbn. auto.
    + destruct (parse (c :: s)) as [u|] eqn:Ep; [|cbn; auto].
      destruct (App.verifyUserAuth reply); [|cbn; auto].
      cbn. exists u, (c :: s). auto.
    + cbn. auto.
  - apply negb_true_iff in En. rewrite En in IH.
    cbn. rewrite En. cbn. exists u, (stringify u). auto.
  - apply negb_true_iff in En. rewrite En in IH.
    cbn. rewrite En. cbn. auto.
  - apply andb_prop in En as [En Hin]. apply negb_true_iff in En.
    rewrite En in IH. cbn. rewrite En.
    unfold App.session_kept in *. cbn. rewrite Hin in *.
    exists u, (stringify u). auto.
Qed.

(** X23.  Once the check of the saved session has ended, whatever the
    logins, logouts and updates that follow: while the dashboard is shown
    there is a current user and the local storage holds a record that
    parses to that user, so that a reload can restore the session; while
    the landing page is shown there is no current user and the storage
    holds no session, so that a reload after a logout restores none. *)
Theorem app_session_kept (entry : option jsstring) (st : App.AppState User) :
  App.app_reachable User stringify parse entry st ->
  App.loading User st = false ->
  App.session_kept User parse st.
Proof using parse_stringify.
  intros R L. apply app_reachable_kept in R. now rewrite L in R.
Qed.

End AppSession.

Lemma app_session_kept_witness :
  let step := App.app_step jsstring (fun u => u) Some in
  let st := step (step (step (App.mounted jsstring (Some (u16 "driver")))
                          (App.Checked jsstring (Responded 401)))
                    (App.LoggedIn jsstring (u16 "driver")))
              (App.LoggedOut jsstring) in
  App.session_kept jsstring Some st.
Proof.
  apply (app_session_kept jsstring (fun u => u) Some (fun u => eq_refl)
           (Some (u16 "driver"))).
  - repeat (apply App.app_next; [|reflexivity]). apply App.app_mounted.
  - reflexivity.
Defined.

(** ** Well-formed strings and their code points *)

Lemma surrogates_apart (c : N) :
  isHighSurrogate c = true -> isLowSurrogate c = false.
Proof.
  unfold isHighSurrogate, isLowSurrogate. intros H.
  apply andb_prop in H as [_ H]. apply N.leb_le in H.
  apply andb_false_intro1. apply N.leb_gt. lia.
Qed.

Lemma plain_parts (c : N) :
  plain c = true -> isHighSurrogate c = false /\ isLowSurrogate c = false.
Proof.
  unfold plain. intros H. apply andb_prop in H as [H1 H2].
  now apply negb_true_iff in H1, H2.
Qed.

Lemma whitespace_plain (c : N) : isWhiteSpace c = true -> plain c = true.
Proof.
  intros H. unfold plain, isHighSurrogate, isLowSurrogate.
  assert (c < 0xD800 \/ 0xDFFF < c)%N as Hc.
  { unfold isWhiteSpace, isLineTerminator in H.
    repeat (apply orb_prop in H as [H|H]);
      try (apply N.eqb_eq in H; lia).
    apply andb_prop in H as [_ H]. apply N.leb_le in H. lia. }
  apply andb_true_intro. split; apply negb_true_iff, andb_false_iff;
    destruct Hc; (left; apply N.leb_gt; lia) || (right; apply N.leb_gt; lia).
Qed.

Lemma wellFormed_plain (c : N) (t : jsstring) :
  plain c = true -> wellFormed (c :: t) = wellFormed t.
Proof.
  intros H. apply plain_parts in H as [H1 H2]. simpl. now rewrite H1, H2.
Qed.

Lemma wellFormed_pair (hi lo : N) (t : jsstring) :
  isHighSurrogate hi = true ->
  wellFormed (hi :: lo :: t) = isLowSurrogate lo && wellFormed t.
Proof.
  intros H. cbn [wellFormed]. now rewrite (surrogates_apart hi H), H.
Qed.

(** The three shapes of a well-formed string. *)
Lemma wellFormed_cases (s : jsstring) :
  wellFormed s = true ->
  s = []
  \/ (exists c t, s = c :: t /\ plain c = true /\ wellFormed t = true)
  \/ (exists hi lo t,
        s = hi :: lo :: t /\ isHighSurrogate hi = true
        /\ isLowSurrogate lo = true /\ wellFormed t = true).
Proof.
  destruct s as [|c t]; [now left|]. cbn [wellFormed].
  destruct (isLowSurrogate c) eqn:Lo; [discriminate|].
  destruct (isHighSurrogate c) eqn:Hi.
  - destruct t as [|lo t]; [discriminate|]. intros H.
    apply andb_prop in H as [H1 H2]. right. right. now exists c, lo, t.
  - intros H. right. left. exists c, t. unfold plain. now rewrite Hi, Lo.
Qed.

Section ByLength.

Variable P : jsstring -> Prop.

Hypothesis P_nil : P [].
Hypothesis P_plain : forall c t,
  plain c = true -> wellFormed t = true -> P t -> P (c :: t).
Hypothesis P_pair : forall hi lo t,
  isHighSurrogate hi = true -> isLowSurrogate lo = true ->
  wellFormed t = true -> P t -> P (hi :: lo :: t).

(** Induction along the code points of a well-formed string. *)
Lemma wellFormed_ind (s : jsstring) : wellFormed s = true -> P s.
Proof using P_nil P_plain P_pair.
  remember (length s) as n eqn:Hn. revert s Hn.
  induction n as [n IH] using lt_wf_ind. intros s Hn H.
  destruct (wellFormed_cases s H)
    as [->|[(c & t & -> & Hc & Ht)|(hi & lo & t & -> & Hh & Hl & Ht)]];
    trivial.
  - apply P_plain; trivial. apply (IH (length t)); trivial. simpl in Hn. lia.
  - apply P_pair; trivial. apply (IH (length t)); trivial. simpl in Hn. lia.
Qed.

End ByLength.

Lemma wellFormed_app (a b : jsstring) :
  wellFormed a = true -> wellFormed b = true -> wellFormed (a ++ b) = true.
Proof.
  intros Ha Hb. revert a Ha.
  apply wellFormed_ind; trivial.
  - intros c t Hc _ IH. rewrite <- ?app_comm_cons. now rewrite wellFormed_plain.
  - intros hi lo t Hh Hl _ IH. rewrite <- ?app_comm_cons.
    rewrite wellFormed_pair by trivial. now rewrite Hl.
Qed.

Lemma code_points_plain (c : N) (t : jsstring) :
  plain c = true -> code_points (c :: t) = c :: code_points t.
Proof.
  intros H. apply plain_parts in H as [H1 _]. cbn [code_points].
  destruct t; trivial. now rewrite H1.
Qed.

Lemma code_points_pair (hi lo : N) (t : jsstring) :
  isHighSurrogate hi = true -> isLowSurrogate lo = true ->
  code_points (hi :: lo :: t) = pairPoint hi lo :: code_points t.
Proof. intros H1 H2. cbn [code_points]. now rewrite H1, H2. Qed.

Lemma code_points_app (a b : jsstring) :
  wellFormed a = true -> code_points (a ++ b) = code_points a ++ code_points b.
Proof.
  revert a. apply wellFormed_ind; trivial.
  - intros c t Hc _ IH. rewrite <- ?app_comm_cons. rewrite !code_points_plain by trivial.
    cbn [app]. now rewrite IH.
  - intros hi lo t Hh Hl _ IH. rewrite <- ?app_comm_cons. rewrite !code_points_pair by trivial.
    cbn [app]. now rewrite IH.
Qed.

(** A well-formed string cut before a plain code unit is well formed on
    both sides. *)
Lemma wellFormed_cut (b : jsstring) (c : N) :
  plain c = true ->
  forall a,
    wellFormed (a ++ c :: b) = true ->
    wellFormed a = true /\ wellFormed (c :: b) = true.
Proof.
  intros Hc a. remember (length a) as n eqn:Hn. revert a Hn.
  induction n as [n IH] using lt_wf_ind. intros a Hn.
  destruct a as [|x a]; [auto|].
  change ((x :: a) ++ c :: b) with (x :: (a ++ c :: b)). cbn [wellFormed].
  destruct (isLowSurrogate x) eqn:Lo; [discriminate|].
  destruct (isHighSurrogate x) eqn:Hi.
  - destruct a as [|y a].
    + cbn [app]. apply plain_parts in Hc as [_ Hl]. rewrite Hl. discriminate.
    + change ((y :: a) ++ c :: b) with (y :: (a ++ c :: b)).
      intros H. apply andb_prop in H as [Hy H].
      destruct (IH (length a)) with (a := a) as [Ha Hb];
        trivial; [simpl in Hn; lia|].
      split; trivial. now rewrite Hy.
  - intros H. apply (IH (length a)) in H; trivial. simpl in Hn. lia.
Qed.

Lemma wellFormed_skip (w : jsstring) :
  Forall (fun c => plain c = true) w ->
  forall b, wellFormed (w ++ b) = true -> wellFormed b = true.
Proof.
  induction 1 as [|c t Hc _ IH]; intros b; rewrite <- ?app_comm_cons; trivial.
  rewrite wellFormed_plain by trivial. apply IH.
Qed.

Lemma wellFormed_keep (a w : jsstring) :
  Forall (fun c => plain c = true) w ->
  wellFormed (a ++ w) = true -> wellFormed a = true.
Proof.
  intros Hw. destruct w as [|c w]; [now rewrite app_nil_r|].
  apply List.Forall_cons_iff in Hw as [Hc _]. intros H.
  now apply (wellFormed_cut w c Hc) in H.
Qed.

(** ** Trimming cuts white space off both ends *)

Lemma trimStart_cut (s : jsstring) :
  exists w, s = w ++ trimStart s /\ Forall (fun c => isWhiteSpace c = true) w.
Proof.
  induction s as [|c t (w & Hw & F)]; simpl.
  - now exists [].
  - destruct (isWhiteSpace c) eqn:E.
    + exists (c :: w). split; [simpl; now f_equal|now constructor].
    + now exists [].
Qed.

Lemma trim_cut (s : jsstring) :
  exists w1 w2,
    s = w1 ++ trim s ++ w2
    /\ Forall (fun c => isWhiteSpace c = true) w1
    /\ Forall (fun c => isWhiteSpace c = true) w2.
Proof.
  destruct (trimStart_cut s) as (w1 & H1 & F1).
  destruct (trimStart_cut (rev (trimStart s))) as (w2 & H2 & F2).
  exists w1, (rev w2). split; [|split; trivial; now apply List.Forall_rev].
  unfold trim, trimEnd. rewrite <- rev_app_distr, <- H2, rev_involutive.
  exact H1.
Qed.

Lemma whitespace_all_plain (w : jsstring) :
  Forall (fun c => isWhiteSpace c = true) w -> Forall (fun c => plain c = true) w.
Proof. apply List.Forall_impl. apply whitespace_plain. Qed.

Lemma wellFormed_trim (s : jsstring) :
  wellFormed s = true -> wellFormed (trim s) = true.
Proof.
  destruct (trim_cut s) as (w1 & w2 & Hs & F1 & F2). intros H.
  rewrite Hs in H. apply wellFormed_skip in H; [|now apply whitespace_all_plain].
  apply wellFormed_keep in H; trivial. now apply whitespace_all_plain.
Qed.

Lemma emoji_free_trim (s : jsstring) :
  wellFormed s = true -> emoji_free s -> emoji_free (trim s).
Proof.
  intros Hw. pose proof (wellFormed_trim s Hw) as Ht.
  destruct (trim_cut s) as (w1 & w2 & Hs & F1 & F2).
  unfold emoji_free. rewrite Hs at 1.
  assert (W1 : wellFormed w1 = true).
  { clear Hs. induction F1 as [|c t Hc _ IH]; trivial.
    rewrite wellFormed_plain; trivial. now apply whitespace_plain. }
  rewrite code_points_app by trivial.
  rewrite code_points_app by trivial.
  intros H. apply List.Forall_app in H as [_ H].
  now apply List.Forall_app in H as [H _].
Qed.

(** ** Removing the emoji of a well-formed string *)

Lemma stripEmoji_plain (c : N) (t : jsstring) :
  plain c = true ->
  stripEmoji (c :: t) = if isEmojiPoint c then stripEmoji t else c :: stripEmoji t.
Proof.
  intros H. apply plain_parts in H as [H1 _]. cbn [stripEmoji].
  destruct t as [|lo t']; [now destruct (isEmojiPoint c)|].
  now rewrite H1.
Qed.

Lemma stripEmoji_pair (hi lo : N) (t : jsstring) :
  isHighSurrogate hi = true -> isLowSurrogate lo = true ->
  stripEmoji (hi :: lo :: t)
  = if isEmojiPoint (pairPoint hi lo) then stripEmoji t
    else hi :: lo :: stripEmoji t.
Proof. intros H1 H2. cbn [stripEmoji]. now rewrite H1, H2. Qed.

Lemma stripEmoji_clean (s : jsstring) :
  wellFormed s = true ->
  wellFormed (stripEmoji s) = true /\ emoji_free (stripEmoji s).
Proof.
  revert s. apply wellFormed_ind.
  - split; [reflexivity|constructor].
  - intros c t Hc _ [IHw IHe]. rewrite stripEmoji_plain by trivial.
    destruct (isEmojiPoint c) eqn:E; [auto|].
    split; [now rewrite wellFormed_plain|].
    unfold emoji_free. rewrite code_points_plain by trivial. now constructor.
  - intros hi lo t Hh Hl _ [IHw IHe]. rewrite stripEmoji_pair by trivial.
    destruct (isEmojiPoint (pairPoint hi lo)) eqn:E; [auto|].
    split; [rewrite wellFormed_pair by trivial; now rewrite Hl|].
    unfold emoji_free. rewrite code_points_pair by trivial. now constructor.
Qed.

(** ** The pieces of a split at plain code units *)

Lemma split_go_wellFormed (p : N -> bool) :
  (forall c, p c = true -> plain c = true) ->
  forall fuel a q piece s,
    wellFormed (rev piece ++ s) = true ->
    Forall (fun x => wellFormed x = true)
      (split_go fuel (plus (Class p)) a q piece s).
Proof.
  intros Hp. induction fuel as [|f IH]; intros a q piece s H; cbn [split_go].
  { now repeat constructor. }
  destruct s as [|c t].
  { rewrite app_nil_r in H. now repeat constructor. }
  assert (Hnext : Forall (fun x => wellFormed x = true)
                    (split_go f (plus (Class p)) a (S q) (c :: piece) t)).
  { apply IH. simpl. now rewrite <- app_assoc. }
  destruct (match_at (plus (Class p)) q (c :: t)) as [m|] eqn:E; trivial.
  destruct (m_end m =? a); trivial.
  apply match_at_sound in E as (w & after & Hs & _ & He & L & _).
  apply lang_plus_class in L as [Hne Hw].
  assert (Pw : Forall (fun c => plain c = true) w)
    by (eapply List.Forall_impl; [|exact Hw]; apply Hp).
  replace (m_end m - q) with (length w) by lia.
  rewrite Hs in *. rewrite skipn_app, skipn_all, Nat.sub_diag, skipn_O.
  cbn [app].
  destruct w as [|x w]; [contradiction|].
  apply List.Forall_cons_iff in Pw as [Px Pw]. rewrite <- ?app_comm_cons in H.
  apply (wellFormed_cut _ x Px) in H as [H1 H2].
  constructor; trivial.
  apply IH. cbn [rev app].
  rewrite wellFormed_plain in H2 by trivial.
  now apply wellFormed_skip in H2.
Qed.

Lemma sentences_wellFormed (text : jsstring) :
  wellFormed text = true ->
  Forall (fun s => wellFormed s = true) (sentences_of text).
Proof.
  intros H. unfold sentences_of.
  assert (F : Forall (fun s => wellFormed s = true)
                (split_re re_sentence_end text)).
  { unfold split_re. destruct text as [|c t].
    - destruct (match_at _ 0 []); now repeat constructor.
    - apply split_go_wellFormed; trivial.
      intros x Hx. unfold plain, isHighSurrogate, isLowSurrogate.
      assert (x < 0x80)%N as Hlt.
      { set (l := u16 ".!?") in Hx. vm_compute in l. subst l.
        simpl existsb in Hx.
        repeat (apply orb_prop in Hx as [Hx|Hx]);
          try (apply N.eqb_eq in Hx; lia).
        discriminate. }
      apply andb_true_intro.
      split; apply negb_true_iff, andb_false_intro1, N.leb_gt; lia. }
  rewrite List.Forall_forall in *. intros s Hs.
  apply filter_In in Hs as [Hs _]. auto.
Qed.

(** ** The general rule of the spoken summary *)

Lemma terminators_app (a b : jsstring) :
  terminators (a ++ b) = terminators a + terminators b.
Proof. unfold terminators. now rewrite List.filter_app, length_app. Qed.

Lemma terminators_none (s : jsstring) :
  Forall (fun c => isTerminator c = false) s -> terminators s = 0.
Proof.
  unfold terminators. induction 1 as [|c t Hc _ IH]; simpl; trivial.
  now rewrite Hc.
Qed.

(** A sentence, trimmed and without its emoji in either order, holds no
    terminator. *)
Lemma sentence_calm (text s : jsstring) :
  In s (sentences_of text) ->
  terminators (stripEmoji (trim s)) = 0
  /\ terminators (trim (stripEmoji s)) = 0.
Proof.
  unfold sentences_of. intros H. apply filter_In in H as [H _].
  apply split_re_pieces in H. rewrite List.Forall_forall in H.
  split; apply terminators_none, List.Forall_forall; intros c Hc; apply H.
  - now apply stripEmoji_in, trim_in in Hc.
  - now apply trim_in, stripEmoji_in in Hc.
Qed.

(** X24.  When none of the rules 1 to 6 returns, the summary is made of
    at most two sentences: it holds at most one full stop, exclamation
    mark or question mark, the one that joins the second sentence or ends
    the fallback text. *)
Theorem speech_general_sentences (toLowerCase : jsstring -> jsstring)
  (text : jsstring) :
  speech_rules toLowerCase text = None ->
  terminators (extractKeyInfoForSpeech toLowerCase text) <= 1.
Proof.
  intros H. unfold extractKeyInfoForSpeech. rewrite H.
  destruct (falsy text || (length (trim text) =? 0));
    [change (terminators []) with 0; lia|].
  unfold speech_general.
  destruct (sentences_of text) as [|first others] eqn:E.
  { change (terminators (u16 "Task completed.")) with 1. lia. }
  destruct (sentence_calm text first) as [Hf _]; [rewrite E; now left|].
  destruct others as [|second more]; [lia|].
  destruct (length (stripEmoji (trim first)) <? 50); [|lia].
  destruct (sentence_calm text second) as [_ Hs];
    [rewrite E; right; now left|].
  rewrite !terminators_app, Hf, Hs.
  change (terminators (u16 ". ")) with 1. lia.
Qed.

Lemma speech_general_sentences_witness :
  extractKeyInfoForSpeech asciiLower sample_chat
  = u16 "Hello there. How can I help you today"
  /\ terminators (extractKeyInfoForSpeech asciiLower sample_chat) <= 1.
Proof.
  split; [vm_compute; reflexivity|].
  apply speech_general_sentences. vm_compute. reflexivity.
Defined.

Lemma emoji_free_check (s : jsstring) :
  forallb (fun cp => negb (isEmojiPoint cp)) (code_points s) = true ->
  emoji_free s.
Proof.
  intros H. apply List.Forall_forall. intros cp Hcp.
  rewrite forallb_forall in H. apply H in Hcp.
  now apply negb_true_iff in Hcp.
Qed.

(** X25.  When none of the rules 1 to 6 returns, the summary of a
    well-formed text (no surrogate outside a pair) holds no code point of
    the three ranges U+1F300 to U+1F9FF, U+2600 to U+26FF and U+2700 to
    U+27BF: the emoji of these ranges are not spoken. *)
Theorem speech_general_no_emoji (toLowerCase : jsstring -> jsstring)
  (text : jsstring) :
  wellFormed text = true ->
  speech_rules toLowerCase text = None ->
  emoji_free (extractKeyInfoForSpeech toLowerCase text).
Proof.
  intros W H. unfold extractKeyInfoForSpeech. rewrite H.
  destruct (falsy text || (length (trim text) =? 0)); [constructor|].
  unfold speech_general.
  pose proof (sentences_wellFormed text W) as F.
  destruct (sentences_of text) as [|first others].
  { apply emoji_free_check. vm_compute. reflexivity. }
  apply List.Forall_cons_iff in F as [Wf F].
  destruct (stripEmoji_clean (trim first) (wellFormed_trim _ Wf)) as [Wr Er].
  destruct others as [|second more]; trivial.
  destruct (length (stripEmoji (trim first)) <? 50); trivial.
  apply List.Forall_cons_iff in F as [Ws _].
  destruct (stripEmoji_clean second Ws) as [Wc Ec].
  unfold emoji_free.
  rewrite code_points_app by trivial.
  rewrite code_points_app by reflexivity.
  apply List.Forall_app. split; trivial.
  apply List.Forall_app. split.
  - apply emoji_free_check. vm_compute. reflexivity.
  - now apply emoji_free_trim.
Qed.

Lemma speech_general_no_emoji_witness :
  extractKeyInfoForSpeech asciiLower sample_emoji_chat
  = u16 "Hello  there. All good  today"
  /\ emoji_free (extractKeyInfoForSpeech asciiLower sample_emoji_chat).
Proof.
  split; [vm_compute; reflexivity|].
  apply speech_general_no_emoji; vm_compute; reflexivity.
Defined.

(** ** When the fallback text is the answer (C10) *)

(** Code units outside every text of a pattern survive the removal of its
    matches. *)
Lemma all_matches_keep (r : regex) (c : N) :
  (forall w, lang r w -> ~ In c w) ->
  forall fuel p q s,
    p <= q -> q - p <= length s -> In c s ->
    In c (cut_matches (all_matches fuel r q (skipn (q - p) s)) p s).
Proof.
  intros Hc. induction fuel as [|f IH]; intros p q s Hpq Hlen Hin; [exact Hin|].
  cbn [all_matches].
  destruct (search_from r q (skipn (q - p) s)) as [m|] eqn:E; [|exact Hin].
  apply search_from_sound in E as (before & w & after & Hsk & B & F & L & _).
  cbn [cut_matches].
  assert (Hs : s = (firstn (q - p) s ++ before) ++ w ++ after).
  { rewrite <- app_assoc, <- Hsk. symmetry. apply firstn_skipn. }
  assert (Hl : length (firstn (q - p) s ++ before) = m_start m - p).
  { rewrite length_app, length_firstn. lia. }
  assert (H1 : firstn (m_start m - p) s = firstn (q - p) s ++ before).
  { rewrite Hs at 1. rewrite <- Hl.
    now rewrite firstn_app, firstn_all, Nat.sub_diag, firstn_O, app_nil_r. }
  assert (H2 : skipn (m_end m - p) s = after).
  { rewrite Hs at 1. rewrite app_assoc.
    replace (m_end m - p)
      with (length ((firstn (q - p) s ++ before) ++ w))
      by (rewrite length_app; lia).
    now rewrite skipn_app, skipn_all, Nat.sub_diag, skipn_O. }
  apply in_or_app. rewrite H1.
  rewrite Hs in Hin. apply in_app_or in Hin as [Hin|Hin]; [now left|].
  apply in_app_or in Hin as [Hin|Hin]; [now apply Hc in Hin|].
  right. rewrite <- H2 in Hin.
  set (next := if (m_start m <? m_end m)%nat then m_end m else S (m_end m)).
  assert (Hn : m_end m <= next) by (unfold next; destruct (_ <? _)%nat; lia).
  destruct (Nat.leb_spec (next - q) (length (skipn (q - p) s))) as [Hle|_];
    [|exact Hin].
  rewrite length_skipn in Hle.
  replace (skipn (next - q) (skipn (q - p) s))
    with (skipn (next - m_end m) (skipn (m_end m - p) s)).
  - apply IH; trivial. rewrite length_skipn. lia.
  - rewrite !skipn_skipn. f_equal. lia.
Qed.

Lemma remove_all_keeps (r : regex) (c : N) (s : jsstring) :
  (forall w, lang r w -> ~ In c w) -> In c s -> In c (remove_all r s).
Proof.
  intros Hc Hin. unfold remove_all, matches_of.
  apply (all_matches_keep r c Hc (S (length s)) 0 0 s); trivial; lia.
Qed.

Lemma lang_alt_inv (a b : regex) (w : jsstring) :
  lang (Alt a b) w -> lang a w \/ lang b w.
Proof. inversion 1; subst; auto. Qed.

Lemma startsWith_app (pat s : jsstring) :
  startsWith pat s = true -> exists t, s = pat ++ t.
Proof.
  revert s. induction pat as [|p pat IH]; intros s; [now exists s|].
  destruct s as [|c s]; [discriminate|]. cbn [startsWith].
  intros H. apply andb_prop in H as [Hp H]. apply N.eqb_eq in Hp. subst c.
  destruct (IH _ H) as [t ->]. now exists t.
Qed.

Lemma includes_incl (pat s : jsstring) (c : N) :
  includes pat s = true -> In c pat -> In c s.
Proof.
  intros H Hc. apply includes_found in H as (pre & post & -> & H).
  apply startsWith_app in H as [t ->].
  apply in_or_app. right. apply in_or_app. now left.
Qed.

(** What cannot be the fallback text: a text that begins otherwise, a
    text with a full stop before its end, a text that holds a code unit
    foreign to it. *)
Lemma begins_other (pre more : jsstring) (c : N) :
  hd_error pre = Some c -> c <> 0x54%N ->
  pre ++ more <> u16 "Task completed.".
Proof.
  destruct pre as [|d pre]; [discriminate|]. intros [= ->] Hc H.
  change (u16 "Task completed.") with (0x54%N :: u16 "ask completed.") in H.
  injection H as H _. contradiction.
Qed.

Lemma stop_inside (a b : jsstring) :
  b <> [] -> a ++ 0x2E%N :: b <> u16 "Task completed.".
Proof.
  intros Hb H.
  assert (Hn : nth_error (u16 "Task completed.") (length a) = Some 0x2E%N).
  { rewrite <- H, nth_error_app2, Nat.sub_diag; trivial. }
  apply (f_equal (@length N)) in H. rewrite length_app in H.
  change (length (u16 "Task completed.")) with 15 in H. simpl in H.
  remember (length a) as n eqn:En. clear En.
  do 14 (destruct n as [|n]; [vm_compute in Hn; discriminate|]).
  destruct b; [now apply Hb|simpl in H; lia].
Qed.

Lemma holds_other (s : jsstring) (c : N) :
  In c s -> ~ In c (u16 "Task completed.") -> s <> u16 "Task completed.".
Proof. intros H Hn E. now rewrite E in H. Qed.

Lemma or_default_other (r d : jsstring) :
  r <> u16 "Task completed." -> d <> u16 "Task completed." ->
  (if truthy r then r else d) <> u16 "Task completed.".
Proof. now destruct r. Qed.

Lemma some_eq {A : Type} (x y : A) : Some x = Some y -> x = y.
Proof. now intros [= ->]. Qed.

(** None of the rules but the weather rule answers with the fallback
    text. *)
Lemma speech_location_other (text cleanText : jsstring) :
  speech_location text cleanText <> Some (u16 "Task completed.").
Proof.
  unfold speech_location.
  destruct (_ || _); [|discriminate].
  destruct (exec re_location text) as [m|]; [|discriminate].
  intros H. apply some_eq in H. revert H.
  apply (begins_other _ _ 0x59%N); [vm_compute; reflexivity|discriminate].
Qed.

Lemma speech_places_other (text cleanText : jsstring) :
  speech_places text cleanText <> Some (u16 "Task completed.").
Proof.
  unfold speech_places.
  destruct (_ && _); [|discriminate].
  destruct (exec re_found text) as [m|]; [|discriminate].
  destruct (match_global re_pin_name text) as [ms|]; [|discriminate].
  cbv zeta. intros H. apply some_eq in H. revert H.
  destruct (firstn 3 _) as [|p0 [|p1 [|p2 more]]]; rewrite <- ?app_assoc;
    (apply (begins_other _ _ 0x49%N); [vm_compute; reflexivity|discriminate]).
Qed.

Lemma stopwatch_foreign (w : jsstring) :
  lang (lit "⏱️") w -> ~ In 0x3A%N w.
Proof.
  intros L. apply lang_lit_text in L. subst w.
  vm_compute. intuition discriminate.
Qed.

Lemma speech_navigation_other (text cleanText : jsstring) :
  speech_navigation text cleanText <> Some (u16 "Task completed.").
Proof.
  unfold speech_navigation.
  destruct (_ && _); [|discriminate].
  cbv zeta. intros H. apply some_eq in H. revert H.
  apply or_default_other; [|vm_compute; discriminate].
  change (u16 ". ") with (0x2E%N :: [0x20%N]).
  assert (Hu : forall ul,
             find_line (includes (u16 "Duration:")) (nonBlankLines text)
             = Some ul -> In 0x3A%N ul).
  { intros ul Eu. apply find_some in Eu as [_ Eu].
    apply (includes_incl _ _ _ Eu). vm_compute. tauto. }
  destruct (find_line (includes (u16 "Distance:")) _) as [sl|];
    destruct (find_line (includes (u16 "Duration:")) _) as [ul|];
    destruct (find_line _ _) as [dl|];
    cbn [app]; rewrite <- ?app_assoc; cbn [app].
  1, 3, 5, 7:
    apply (begins_other _ _ 0x4E%N); [vm_compute; reflexivity|discriminate].
  1, 2: apply stop_inside; discriminate.
  - apply (holds_other _ 0x3A%N); [|vm_compute; intuition discriminate].
    apply in_or_app. left. apply trim_keeps; [reflexivity|].
    apply remove_all_keeps; [exact stopwatch_foreign|].
    now apply Hu.
  - vm_compute. discriminate.
Qed.

Lemma speech_fixed_other (cleanText : jsstring) :
  speech_temperature cleanText <> Some (u16 "Task completed.")
  /\ speech_ac cleanText <> Some (u16 "Task completed.")
  /\ speech_music cleanText <> Some (u16 "Task completed.")
  /\ speech_doors cleanText <> Some (u16 "Task completed.")
  /\ speech_lights cleanText <> Some (u16 "Task completed.")
  /\ speech_error cleanText <> Some (u16 "Task completed.").
Proof.
  unfold speech_temperature, speech_ac, speech_music, speech_doors,
    speech_lights, speech_error.
  split; [|split; [|split; [|split; [|split]]]]; fixed_answer.
Qed.

Lemma temp_labels_foreign (c : N) (w : jsstring) :
  c = 0xB0%N \/ c = 0x67%N -> lang re_temp_labels w -> ~ In c w.
Proof.
  intros Hc L. unfold re_temp_labels in L.
  apply lang_alt_inv in L as [L|L]; [|apply lang_alt_inv in L as [L|L]];
    apply lang_lit_text in L; subst w;
    destruct Hc as [-> | ->]; vm_compute; intuition discriminate.
Qed.

(** The weather rule answers with the fallback text only when it hands
    back a condition line that reads so. *)
Lemma speech_weather_echo (text cleanText : jsstring) :
  speech_weather text cleanText = Some (u16 "Task completed.")
  <-> includes (u16 "weather") cleanText
      || includes (u16 "temperature") cleanText = true
      /\ find_line (fun line => includes (u16 "°") line
                                || includes (u16 "degrees") line)
           (nonBlankLines text) = None
      /\ exists conditionLine,
           find_line (fun line => includes (u16 "Condition:") line
                                  || includes (u16 "Weather:") line)
             (nonBlankLines text) = Some conditionLine
           /\ trim (remove_all re_condition_labels conditionLine)
              = u16 "Task completed.".
Proof.
  unfold speech_weather.
  destruct (includes (u16 "weather") cleanText
            || includes (u16 "temperature") cleanText);
    [|split; [discriminate|now intros [? _]]].
  cbv zeta.
  destruct (find_line (fun line => includes (u16 "°") line
                                   || includes (u16 "degrees") line)
              (nonBlankLines text)) as [tl|] eqn:Et.
  - split; [|now intros (_ & ? & _)].
    intros H. apply some_eq in H. exfalso. revert H.
    apply find_some in Et as [_ Et].
    assert (exists c, (c = 0xB0%N \/ c = 0x67%N) /\ In c tl) as (c & Hc & Hin).
    { apply orb_prop in Et as [Et|Et].
      - exists 0xB0%N. split; [now left|].
        apply (includes_incl _ _ _ Et). vm_compute. tauto.
      - exists 0x67%N. split; [now right|].
        apply (includes_incl _ _ _ Et). vm_compute. tauto. }
    assert (Hr : In c (trim (remove_all re_temp_labels tl))).
    { apply trim_keeps; [now destruct Hc as [-> | ->]|].
      apply remove_all_keeps; trivial. intros w. now apply temp_labels_foreign. }
    apply or_default_other; [|vm_compute; discriminate].
    apply (holds_other _ c).
    + clear Et. destruct (find_line _ _); [apply in_or_app; now left|trivial].
    + destruct Hc as [-> | ->]; vm_compute; intuition discriminate.
  - cbn [truthy falsy negb app].
    destruct (find_line (fun line => includes (u16 "Condition:") line
                                     || includes (u16 "Weather:") line)
                (nonBlankLines text)) as [cl|].
    + split.
      * intros H. apply some_eq in H.
        split; trivial. split; trivial. exists cl. split; trivial.
        destruct (trim (remove_all re_condition_labels cl)); trivial.
        vm_compute in H. discriminate.
      * intros (_ & _ & l & E & Hl). injection E as <-. rewrite Hl.
        vm_compute. reflexivity.
    + split; [|now intros (_ & _ & l & ? & _)].
      intros H. apply some_eq in H. vm_compute in H. discriminate.
Qed.

Lemma speech_before_ac_other (toLowerCase : jsstring -> jsstring)
  (text : jsstring) :
  speech_before_ac toLowerCase text <> Some (u16 "Task completed.").
Proof.
  unfold speech_before_ac. cbv zeta. cbn [first_of].
  pose proof (speech_location_other text (toLowerCase text)) as H1.
  pose proof (speech_places_other text (toLowerCase text)) as H2.
  pose proof (speech_navigation_other text (toLowerCase text)) as H3.
  destruct (speech_fixed_other (toLowerCase text)) as (H4 & _).
  destruct (speech_location _ _); trivial.
  destruct (speech_places _ _); trivial.
  destruct (speech_navigation _ _); trivial.
  destruct (speech_temperature _); trivial; discriminate.
Qed.

(** The rules 1 to 6 answer with the fallback text exactly when the
    weather rule hands it back from a condition line. *)
Lemma speech_rules_echo (toLowerCase : jsstring -> jsstring) (text : jsstring) :
  speech_rules toLowerCase text = Some (u16 "Task completed.")
  <-> condition_echo toLowerCase text (u16 "Task completed.").
Proof.
  unfold condition_echo, speech_before_weather, speech_rules.
  cbv zeta. cbn [first_of].
  rewrite <- speech_weather_echo.
  pose proof (speech_before_ac_other toLowerCase text) as H0.
  destruct (speech_fixed_other (toLowerCase text)) as (_ & H1 & H2 & H3 & H4 & H5).
  destruct (speech_before_ac _ _); [split; [congruence|now intros [? _]]|].
  destruct (speech_ac _); [split; [congruence|now intros [? _]]|].
  destruct (speech_music _); [split; [congruence|now intros [? _]]|].
  destruct (speech_doors _); [split; [congruence|now intros [? _]]|].
  destruct (speech_lights _); [split; [congruence|now intros [? _]]|].
  destruct (speech_weather _ _) as [r|].
  - split; [now intros ->|now intros [_ ?]].
  - split; [|now intros [_ ?]].
    destruct (speech_error _); congruence.
Qed.

(** C10, amended.  An empty or white-space-only input yields the empty
    string.  The fallback text is the answer in exactly two cases, both
    for an input that is not blank: none of the rules 1 to 6 returns and
    the split at full stops, exclamation and question marks leaves no
    non-blank sentence; or the weather rule hands the text back from a
    Condition or Weather line that reads so.  In particular, when none of
    the rules 1 to 6 returns, the fallback text is the answer exactly
    when the split leaves no sentence. *)
Theorem speech_blank_and_fallback (toLowerCase : jsstring -> jsstring)
  (text : jsstring) :
  (trim text = [] -> extractKeyInfoForSpeech toLowerCase text = [])
  /\ (extractKeyInfoForSpeech toLowerCase text = u16 "Task completed."
      <-> trim text <> []
          /\ ((speech_rules toLowerCase text = None /\ sentences_of text = [])
              \/ condition_echo toLowerCase text (u16 "Task completed.")))
  /\ (trim text <> [] -> speech_rules toLowerCase text = None ->
      (extractKeyInfoForSpeech toLowerCase text = u16 "Task completed."
       <-> sentences_of text = [])).
Proof.
  assert (trim text = [] -> extractKeyInfoForSpeech toLowerCase text = [])
    as Hblank.
  { intros H. unfold extractKeyInfoForSpeech.
    now rewrite (proj2 (blank_guard text) H). }
  assert (Hgeneral : speech_general text = u16 "Task completed."
                     <-> sentences_of text = []).
  { split.
    - intros H. destruct (sentences_of text) eqn:E; trivial.
      exfalso. revert H. apply speech_general_not_fallback. congruence.
    - intros H. unfold speech_general. now rewrite H. }
  split; trivial. split.
  - rewrite <- speech_rules_echo. unfold extractKeyInfoForSpeech.
    destruct (falsy text || (length (trim text) =? 0)%nat) eqn:G.
    { apply blank_guard in G. split; [discriminate|]. now intros [? _]. }
    assert (Ht : trim text <> []).
    { intros H. apply blank_guard in H. congruence. }
    destruct (speech_rules toLowerCase text) as [r|].
    + split.
      * intros ->. split; trivial. now right.
      * intros [_ [[? _]|[= ->]]]; [discriminate|reflexivity].
    + rewrite Hgeneral. split.
      * intros H. split; trivial. now left.
      * intros [_ [[_ ?]|?]]; [trivial|discriminate].
  - intros Ht Hrules. unfold extractKeyInfoForSpeech. rewrite Hrules.
    destruct (falsy text || (length (trim text) =? 0)%nat) eqn:G.
    { apply blank_guard in G. contradiction. }
    exact Hgeneral.
Qed.
